(** * Paladin: protection of a critical resource against interruption signals

    A model of package [paladin] (paladin.go): the guard ([Enter]/[Leave]
    around a [sync.Mutex]), the constructor [New], and [Run], which opens a
    resource, starts the user's runner in a goroutine, waits for the first
    of {interrupt signal, runner finished}, re-acquires the guard and closes
    the resource.

    [Run] is concurrent code: the caller of [Run] (the coordinator), the
    signal-listener goroutine and the runner goroutine are modelled as
    program counters in one state, and the interleavings as a step function
    [step : State -> Label -> option State], a label naming the goroutine
    that moves (or the signal the operating system delivers).  The
    unbuffered channel [done] is a rendezvous: a send and the coordinator's
    receive happen in one step.

    What the model takes from the surroundings of the package:
    - the opener and the closer are given by what they return; a task is
      given by the sequence of its [p.Enter()] and [p.Leave()] calls, with
      anything else it does in between;
    - the client calls [New] once and then [Run] any number of times, one
      call after the other; it does not write the [Signal] field;
    - a signal that is not relayed to the channel of [Run] has no effect
      here (what the operating system does with it otherwise, ending the
      process for one, is not described);
    - when [Run] is called again, the runner goroutine of the previous
      invocation may still be running and goes on using the guard; the
      previous listener can only block on a channel from which nobody
      receives any more, and is forgotten.  *)

From Stdlib Require Import List ZArith String Bool Arith Lia.
Import ListNotations.

(** ** Values of the Go runtime that [Run] handles *)

(** [os.Signal]: a signal is its number ([syscall.Signal]). *)
Definition os_Signal := Z.
Definition os_Interrupt : os_Signal := 2%Z.   (* syscall.SIGINT *)

(** [error]: an error value is observed through its message, [Error()]. *)
Record error := errors_New { Error : string }.

(** [fmt.Sprintf("Could not open: %v", err)] *)
Definition could_not_open (err : error) : string :=
  ("Could not open: " ++ Error err)%string.

(** [sync.Mutex]: locked or not; a Go mutex has no owner. *)
Module Mutex.
Definition t := bool.
Definition fresh : t := false.
(** [Lock]: [None] when the caller has to wait. *)
Definition Lock (m : t) : option t := if m then None else Some true.
(** [Unlock]: [None] is the fatal error "sync: unlock of unlocked mutex". *)
Definition Unlock (m : t) : option t := if m then Some false else None.
End Mutex.

(** Capacity of the channel [sig]: [make(chan os.Signal, 1024)]. *)
Definition sig_capacity : nat := 1024.

(** A channel registered with [signal.Notify]: its buffer (oldest first) and
    the signals it is subscribed to. *)
Record SigChan := { queue : list os_Signal; subscribed : list os_Signal }.

Definition signal_Notify (subs : list os_Signal) : SigChan :=
  {| queue := []; subscribed := subs |}.

(** The runtime relays a signal to a registered channel without blocking:
    a signal the channel is not subscribed to, or one that finds the buffer
    full, is not relayed. *)
Definition relay (sg : os_Signal) (ch : SigChan) : SigChan :=
  if existsb (Z.eqb sg) (subscribed ch) && (List.length (queue ch) <? sig_capacity)
  then {| queue := queue ch ++ [sg]; subscribed := subscribed ch |}
  else ch.

(** ** The Paladin *)

Record Paladin := { Signal : option os_Signal; guard : Mutex.t }.

(** [p.Enter()]: [None] when the caller blocks. *)
Definition Enter (p : Paladin) : option Paladin :=
  match Mutex.Lock (guard p) with
  | Some g => Some {| Signal := Signal p; guard := g |}
  | None => None
  end.

(** [p.Leave()]: [None] is the fatal unlock of an unlocked mutex. *)
Definition Leave (p : Paladin) : option Paladin :=
  match Mutex.Unlock (guard p) with
  | Some g => Some {| Signal := Signal p; guard := g |}
  | None => None
  end.

(** [New]: a fresh Paladin, [Signal] nil, guard entered. *)
Definition New : Paladin :=
  let p := {| Signal := None; guard := Mutex.fresh |} in
  match Enter p with Some p' => p' | None => p end.

(** [event]: an operating-system signal or the end of the runner. *)
Record event := { os : bool; s : option os_Signal }.

(** What a user task does that the Paladin can see. *)
Inductive TaskOp := TEnter | TLeave | TWork.

Section Model.

(** The resource ([io.Closer]) is opaque to the package. *)
Variable Handle : Type.

(** User tasks: control states and the next operation of a task ([None]:
    the runner function returns). *)
Variable T : Type.
Variable tnext : T -> option (TaskOp * T).

(** The three arguments of [Run]. *)
Record RunArgs := {
  openr : unit -> Handle * option error;   (* Opener *)
  closr : Handle -> option error;          (* Closer *)
  run : Handle -> T                        (* Runner: the task it starts *)
}.

(** Program counter of the caller of [Run]; the constructors carry the
    local variables in scope. *)
Inductive CoordPC :=
| CIdle                                          (* after New, before Run *)
| CStart (a : RunArgs)                           (* lines 103-118 *)
| COpen (a : RunArgs)                            (* lines 121-125 *)
| CLeave (a : RunArgs) (c : Handle)              (* line 128 *)
| CGo (a : RunArgs) (c : Handle)                 (* lines 131-136 *)
| CWait (a : RunArgs) (c : Handle)               (* line 139 *)
| CEnter (a : RunArgs) (c : Handle) (e : event)  (* line 142 *)
| CRecord (a : RunArgs) (c : Handle) (e : event) (* lines 144-146 *)
| CClose (a : RunArgs) (c : Handle) (e : event)  (* lines 149-150 *)
| CReturned (err : option error).                (* Run has returned err *)

(** The listener goroutine, lines 113-118. *)
Inductive ListenerPC :=
| LOff
| LRecv                  (* e.s = <-sig *)
| LSend (e : event)      (* done <- e *)
| LDone.

(** The runner goroutine, lines 131-136; [k] is the number of the [Run]
    invocation that launched it. *)
Inductive RunnerPC :=
| ROff
| RStart (k : nat) (c : Handle) (f : Handle -> T)  (* run(c) not yet called *)
| RRun (t : T)                                     (* inside run(c) *)
| RSend (t : T)                                    (* done <- e *)
| RDone (t : T).

(** What has happened, for stating the claims: each entry carries the
    number of the [Run] invocation it belongs to. *)
Inductive Event :=
| EvCall (a : RunArgs)
| EvNotify
| EvOpen (c : Handle) (err : option error)
| EvLeave
| EvGo (c : Handle)
| EvRun (c : Handle)             (* by the runner goroutine: run(c) *)
| EvRecv (e : event)
| EvEnter
| EvSignal (sg : option os_Signal)
| EvClose (c : Handle) (err : option error)
| EvReturn (err : option error).

Record State := {
  pal : Paladin;
  sig : option SigChan;        (* the channel of the latest Run *)
  coord : CoordPC;
  listener : ListenerPC;
  runner : RunnerPC;
  stale : list RunnerPC;       (* runners of earlier invocations *)
  runid : nat;                 (* number of Run invocations so far *)
  log : list (nat * Event);    (* newest first *)
  dead : bool                  (* the process ended on a fatal error *)
}.

Definition with_pal (st : State) (p : Paladin) : State :=
  {| pal := p; sig := sig st; coord := coord st; listener := listener st;
     runner := runner st; stale := stale st; runid := runid st;
     log := log st; dead := dead st |}.

Definition with_sig (st : State) (c : option SigChan) : State :=
  {| pal := pal st; sig := c; coord := coord st; listener := listener st;
     runner := runner st; stale := stale st; runid := runid st;
     log := log st; dead := dead st |}.

Definition with_coord (st : State) (pc : CoordPC) : State :=
  {| pal := pal st; sig := sig st; coord := pc; listener := listener st;
     runner := runner st; stale := stale st; runid := runid st;
     log := log st; dead := dead st |}.

Definition with_listener (st : State) (l : ListenerPC) : State :=
  {| pal := pal st; sig := sig st; coord := coord st; listener := l;
     runner := runner st; stale := stale st; runid := runid st;
     log := log st; dead := dead st |}.

Definition with_runner (st : State) (r : RunnerPC) : State :=
  {| pal := pal st; sig := sig st; coord := coord st; listener := listener st;
     runner := r; stale := stale st; runid := runid st;
     log := log st; dead := dead st |}.

Definition with_stale (st : State) (l : list RunnerPC) : State :=
  {| pal := pal st; sig := sig st; coord := coord st; listener := listener st;
     runner := runner st; stale := l; runid := runid st;
     log := log st; dead := dead st |}.

Definition with_runid (st : State) (k : nat) : State :=
  {| pal := pal st; sig := sig st; coord := coord st; listener := listener st;
     runner := runner st; stale := stale st; runid := k;
     log := log st; dead := dead st |}.

Definition logged (st : State) (evs : list (nat * Event)) : State :=
  {| pal := pal st; sig := sig st; coord := coord st; listener := listener st;
     runner := runner st; stale := stale st; runid := runid st;
     log := evs ++ log st; dead := dead st |}.

Definition note (st : State) (ev : Event) : State :=
  logged st [(runid st, ev)].

Definition fatal (st : State) : State :=
  {| pal := pal st; sig := sig st; coord := coord st; listener := listener st;
     runner := runner st; stale := stale st; runid := runid st;
     log := log st; dead := true |}.

(** The process after [p := New()]. *)
Definition boot : State :=
  {| pal := New; sig := None; coord := CIdle; listener := LOff;
     runner := ROff; stale := []; runid := 0; log := []; dead := false |}.

(** *** The caller of [Run] *)

(** One statement of [Run]; [None] when the coordinator cannot move by
    itself (it is outside [Run], waits on [done], or waits for the guard). *)
Definition Run_step (st : State) : option State :=
  match coord st with
  | CIdle | CReturned _ => None
  | CStart a =>
      (* sig := make(chan os.Signal, 1024); signal.Notify(sig, os.Interrupt);
         done := make(chan event); go func() { ... e.s = <-sig ... }() *)
      Some (note (with_coord (with_listener
                    (with_sig st (Some (signal_Notify [os_Interrupt]))) LRecv)
                    (COpen a)) EvNotify)
  | COpen a =>
      (* c, err := openr(); if err != nil { return errors.New(msg) } *)
      let (c, err) := openr a tt in
      match err with
      | Some x =>
          let r := Some (errors_New (could_not_open x)) in
          Some (note (note (with_coord st (CReturned r)) (EvOpen c err))
                     (EvReturn r))
      | None => Some (note (with_coord st (CLeave a c)) (EvOpen c None))
      end
  | CLeave a c =>
      (* p.Leave() *)
      match Leave (pal st) with
      | Some p => Some (note (with_coord (with_pal st p) (CGo a c)) EvLeave)
      | None => Some (fatal st)
      end
  | CGo a c =>
      (* go func() { run(c); ...; done <- e }() *)
      Some (note (with_coord (with_runner st (RStart (runid st) c (run a)))
                             (CWait a c)) (EvGo c))
  | CWait _ _ => None            (* e := <-done: see the rendezvous steps *)
  | CEnter a c e =>
      (* p.Enter() *)
      match Enter (pal st) with
      | Some p => Some (note (with_coord (with_pal st p) (CRecord a c e)) EvEnter)
      | None => None
      end
  | CRecord a c e =>
      (* if e.os { p.Signal = e.s } *)
      if os e
      then Some (note (with_coord
                   (with_pal st {| Signal := s e; guard := guard (pal st) |})
                   (CClose a c e)) (EvSignal (s e)))
      else Some (with_coord st (CClose a c e))
  | CClose a c e =>
      (* err = closr(c); return *)
      let r := closr a c in
      Some (note (note (with_coord st (CReturned r)) (EvClose c r)) (EvReturn r))
  end.

(** *** The goroutines *)

Inductive Outcome :=
| Next (p : Paladin) (r : RunnerPC) (evs : list (nat * Event))
| Fatal.

(** One step of a runner goroutine: it calls [run(c)], performs the task's
    next operation, or finds that [run] has returned and goes to send the
    event.  [None]: the goroutine waits (for the guard, or on [done]). *)
Definition runner_step (p : Paladin) (r : RunnerPC) : option Outcome :=
  match r with
  | RStart k c f => Some (Next p (RRun (f c)) [(k, EvRun c)])
  | RRun t =>
      match tnext t with
      | None => Some (Next p (RSend t) [])
      | Some (TEnter, t') =>
          match Enter p with
          | Some p' => Some (Next p' (RRun t') [])
          | None => None
          end
      | Some (TLeave, t') =>
          match Leave p with
          | Some p' => Some (Next p' (RRun t') [])
          | None => Some Fatal
          end
      | Some (TWork, t') => Some (Next p (RRun t') [])
      end
  | ROff | RSend _ | RDone _ => None
  end.

Fixpoint set_nth {A : Type} (i : nat) (x : A) (l : list A) : list A :=
  match l, i with
  | [], _ => []
  | _ :: l', O => x :: l'
  | y :: l', S j => y :: set_nth j x l'
  end.

(** Who moves. *)
Inductive Label :=
| LCall (a : RunArgs)        (* the client calls p.Run(openr, closr, run) *)
| LCoord                     (* the caller of Run executes a statement *)
| LListener                  (* the listener receives from sig *)
| LRunner                    (* the runner of this invocation moves *)
| LStale (i : nat)           (* the runner of an earlier invocation moves *)
| LSyncListener              (* done: listener sends, coordinator receives *)
| LSyncRunner                (* done: runner sends, coordinator receives *)
| LDeliver (sg : os_Signal). (* the operating system delivers a signal *)

Definition step_live (st : State) (l : Label) : option State :=
  match l with
  | LCall a =>
      match coord st with
      | CIdle | CReturned _ =>
          let st1 := with_runid st (S (runid st)) in
          Some (note (with_coord (with_listener
                  (with_runner (with_stale st1 (runner st :: stale st)) ROff)
                  LOff) (CStart a)) (EvCall a))
      | _ => None
      end
  | LCoord => Run_step st
  | LListener =>
      match listener st, sig st with
      | LRecv, Some ch =>
          match queue ch with
          | sg :: q =>
              Some (with_listener
                      (with_sig st (Some {| queue := q; subscribed := subscribed ch |}))
                      (LSend {| os := true; s := Some sg |}))
          | [] => None
          end
      | _, _ => None
      end
  | LRunner =>
      match runner_step (pal st) (runner st) with
      | Some (Next p r evs) => Some (logged (with_runner (with_pal st p) r) evs)
      | Some Fatal => Some (fatal st)
      | None => None
      end
  | LStale i =>
      match nth_error (stale st) i with
      | Some r0 =>
          match runner_step (pal st) r0 with
          | Some (Next p r evs) =>
              Some (logged (with_stale (with_pal st p) (set_nth i r (stale st))) evs)
          | Some Fatal => Some (fatal st)
          | None => None
          end
      | None => None
      end
  | LSyncListener =>
      match coord st, listener st with
      | CWait a c, LSend e =>
          Some (note (with_coord (with_listener st LDone) (CEnter a c e)) (EvRecv e))
      | _, _ => None
      end
  | LSyncRunner =>
      match coord st, runner st with
      | CWait a c, RSend t =>
          let e := {| os := false; s := None |} in
          Some (note (with_coord (with_runner st (RDone t)) (CEnter a c e)) (EvRecv e))
      | _, _ => None
      end
  | LDeliver sg =>
      (* before the first signal.Notify there is no channel to relay to *)
      match sig st with
      | Some ch => Some (with_sig st (Some (relay sg ch)))
      | None => Some st
      end
  end.

(** A step of the process: nothing moves after a fatal error. *)
Definition step (st : State) (l : Label) : option State :=
  if dead st then None else step_live st l.

(** A schedule is run from left to right; [None] when one of its labels is
    not enabled. *)
Fixpoint exec (st : State) (sched : list Label) : option State :=
  match sched with
  | [] => Some st
  | l :: rest =>
      match step st l with
      | Some st' => exec st' rest
      | None => None
      end
  end.

End Model.

Arguments CIdle {Handle T}.
Arguments CStart {Handle T} a.
Arguments COpen {Handle T} a.
Arguments CLeave {Handle T} a c.
Arguments CGo {Handle T} a c.
Arguments CWait {Handle T} a c.
Arguments CEnter {Handle T} a c e.
Arguments CRecord {Handle T} a c e.
Arguments CClose {Handle T} a c e.
Arguments RStart {Handle T} k c f.
Arguments RRun {Handle T} t.
Arguments RSend {Handle T} t.
Arguments RDone {Handle T} t.
Arguments CReturned {Handle T} err.
Arguments ROff {Handle T}.
Arguments LCoord {Handle T}.
Arguments LListener {Handle T}.
Arguments LRunner {Handle T}.
Arguments LStale {Handle T} i.
Arguments LSyncListener {Handle T}.
Arguments LSyncRunner {Handle T}.
Arguments LDeliver {Handle T} sg.
Arguments EvCall {Handle T} a.
Arguments LCall {Handle T} a.
Arguments EvNotify {Handle T}.
Arguments EvLeave {Handle T}.
Arguments EvEnter {Handle T}.
Arguments EvRecv {Handle T} e.
Arguments EvSignal {Handle T} sg.
Arguments EvReturn {Handle T} err.
Arguments EvOpen {Handle T} c err.
Arguments EvGo {Handle T} c.
Arguments EvRun {Handle T} c.
Arguments EvClose {Handle T} c err.
Arguments boot {Handle T}.
Arguments pal {Handle T} st : rename.
Arguments sig {Handle T} st : rename.
Arguments coord {Handle T} st : rename.
Arguments listener {Handle T} st : rename.
Arguments runner {Handle T} st : rename.
Arguments stale {Handle T} st : rename.
Arguments runid {Handle T} st : rename.
Arguments log {Handle T} st : rename.
Arguments dead {Handle T} st : rename.
Arguments openr {Handle T} a _ : rename.
Arguments closr {Handle T} a _ : rename.
Arguments run {Handle T} a _ : rename.
Arguments step {Handle T} tnext st l.
Arguments step_live {Handle T} tnext st l.
Arguments Run_step {Handle T} st.
Arguments runner_step {Handle T} tnext p r.
Arguments Next {Handle T} p r evs.
Arguments Fatal {Handle T}.
Arguments exec {Handle T} tnext st sched.

(** ** Scripted tasks

    A concrete family of tasks for running the model: a task is the list of
    the operations it still has to perform, together with the flag "inside
    a protected region"; a script that would leave a region it is not in,
    or enter one twice, stops there. *)
Module Script.

Definition task : Type := bool * list TaskOp.

Definition next (t : task) : option (TaskOp * task) :=
  match t with
  | (_, []) => None
  | (b, TEnter :: r) => if b then None else Some (TEnter, (true, r))
  | (b, TLeave :: r) => if b then Some (TLeave, (false, r)) else None
  | (b, TWork :: r) => Some (TWork, (b, r))
  end.

Definition inside (t : task) : bool := fst t.

(** Handles are numbers here. *)
Definition args (o : nat * option error) (cl : option error)
           (ops : list TaskOp) : RunArgs nat task :=
  {| openr := fun _ => o; closr := fun _ => cl; run := fun _ => (false, ops) |}.

Definition go (sched : list (Label nat task)) : option (State nat task) :=
  exec next boot sched.

(** The state a schedule leads to ([boot] when it cannot be run). *)
Definition final (sched : list (Label nat task)) : State nat task :=
  match go sched with
  | Some st => st
  | None => boot
  end.

Definition close_failed : error := errors_New "close failed".
Definition no_such_file : error := errors_New "no such file".

(** A resource that opens and fails to close; the task has one
    protected region. *)
Definition good : RunArgs nat task :=
  args (7, None) (Some close_failed) [TEnter; TWork; TLeave; TWork].

(** A resource that opens and closes. *)
Definition quiet : RunArgs nat task :=
  args (8, None) None [TWork; TEnter; TLeave].

(** A resource that cannot be opened. *)
Definition bad : RunArgs nat task :=
  args (0, Some no_such_file) None [TWork].

Definition interrupt : event := {| os := true; s := Some os_Interrupt |}.

(** An interruption wins while the task is inside its region: [Run]
    waits for the guard until the task has left the region.  Signal 15
    is not relayed, the second interrupt stays in the channel. *)
Definition sched_closing : list (Label nat task) :=
  [LCall good; LCoord; LCoord; LCoord; LCoord;
   LRunner; LRunner;
   LDeliver 15%Z; LDeliver os_Interrupt; LDeliver os_Interrupt;
   LListener; LSyncListener;
   LRunner; LRunner;
   LCoord; LCoord].

Definition sched_interrupted : list (Label nat task) :=
  sched_closing ++ [LCoord].

(** The task ends first; the interruption that follows loses. *)
Definition sched_rest : list (Label nat task) :=
  [LCoord; LCoord; LCoord; LCoord;
   LRunner; LRunner; LRunner; LRunner; LRunner;
   LDeliver os_Interrupt; LListener;
   LSyncRunner; LCoord; LCoord; LCoord].

Definition sched_completed : list (Label nat task) :=
  LCall quiet :: sched_rest.

Definition sched_opening : list (Label nat task) := [LCall bad; LCoord].

Definition sched_failed : list (Label nat task) :=
  [LCall bad; LCoord; LCoord].

End Script.

(** ** What is stated about the model *)

Section Specs.

Variable Handle : Type.
Variable T : Type.
Variable tnext : T -> option (TaskOp * T).

(** *** The recorded signal *)

Definition sig_ok (o : option os_Signal) : Prop :=
  o = None \/ o = Some os_Interrupt.

Definition ev_ok (e : event) : Prop :=
  os e = true -> s e = Some os_Interrupt.

Definition chan_ok (ch : option SigChan) : Prop :=
  match ch with
  | None => True
  | Some ch => subscribed ch = [os_Interrupt] /\
               Forall (eq os_Interrupt) (queue ch)
  end.

Definition InvSig (st : State Handle T) : Prop :=
  sig_ok (Signal (pal st)) /\
  chan_ok (sig st) /\
  match listener st with LSend e => ev_ok e | _ => True end /\
  match coord st with
  | CEnter _ _ e | CRecord _ _ e | CClose _ _ e => ev_ok e
  | _ => True
  end /\
  (forall k e, In (k, EvRecv e) (log st) -> ev_ok e).

(** When the closer is about to be called after an interruption, the
    signal has been recorded. *)
Definition InvRec (st : State Handle T) : Prop :=
  match coord st with
  | CClose _ _ e => os e = true -> Signal (pal st) = s e
  | _ => True
  end.

(** While [Run] waits for an event the listener is alive. *)
Definition InvListen (st : State Handle T) : Prop :=
  match coord st with
  | COpen _ | CLeave _ _ | CGo _ _ | CWait _ _ =>
      match listener st, sig st with
      | LRecv, Some _ => True
      | LSend _, Some _ => True
      | _, _ => False
      end
  | _ => True
  end /\
  match listener st with
  | LSend e => os e = true
  | _ => True
  end.

(** *** The usage contract of the guard

    [inreg] tells of a control state of a task whether it lies inside a
    protected region.  A task obeys the contract when [Enter] leads into a
    region, [Leave] is performed only inside one and leads out of it, and
    nothing else crosses the border. *)
Variable inreg : T -> bool.

Definition obeys : Prop :=
  forall t op t', tnext t = Some (op, t') ->
    match op with
    | TEnter => inreg t' = true
    | TLeave => inreg t = true /\ inreg t' = false
    | TWork => inreg t' = inreg t
    end.

Definition starts_outside (a : RunArgs Handle T) : Prop :=
  forall c, inreg (run a c) = false.

Definition protocol_ok (l : Label Handle T) : Prop :=
  match l with
  | LCall a => starts_outside a
  | _ => True
  end.

Definition in_region (r : RunnerPC Handle T) : bool :=
  match r with
  | RRun t | RSend t | RDone t => inreg t
  | _ => false
  end.

(** The program points of [Run] at which its caller holds the guard: all
    but those between [p.Leave()] and the return of [p.Enter()]. *)
Definition coord_holds (pc : CoordPC Handle T) : bool :=
  match pc with
  | CGo _ _ | CWait _ _ | CEnter _ _ _ => false
  | _ => true
  end.

Fixpoint count_in (l : list (RunnerPC Handle T)) : nat :=
  match l with
  | [] => 0
  | r :: l' => Nat.b2n (in_region r) + count_in l'
  end.

Definition holders (st : State Handle T) : nat :=
  Nat.b2n (coord_holds (coord st)) + Nat.b2n (in_region (runner st))
  + count_in (stale st).

Definition runner_wf (r : RunnerPC Handle T) : Prop :=
  match r with
  | RStart _ c f => inreg (f c) = false
  | _ => True
  end.

Definition pc_wf (pc : CoordPC Handle T) : Prop :=
  match pc with
  | CStart a | COpen a | CLeave a _ | CGo a _ => starts_outside a
  | _ => True
  end.

(** Until its runner is launched, an invocation has none. *)
Definition no_runner_yet (pc : CoordPC Handle T) (r : RunnerPC Handle T)
  : Prop :=
  match pc with
  | CStart _ | COpen _ | CLeave _ _ | CGo _ _ => r = ROff
  | _ => True
  end.

(** The guard is locked exactly when it has a holder, and it has at most
    one. *)
Definition InvGuard (st : State Handle T) : Prop :=
  dead st = false /\
  holders st = Nat.b2n (guard (pal st)) /\
  pc_wf (coord st) /\
  runner_wf (runner st) /\
  Forall runner_wf (stale st) /\
  no_runner_yet (coord st) (runner st).

Definition nobody_inside (st : State Handle T) : Prop :=
  in_region (runner st) = false /\
  Forall (fun r => in_region r = false) (stale st).

(** *** The log of an invocation *)

Definition by_coord (ev : Event Handle T) : bool :=
  match ev with EvRun _ => false | _ => true end.

(** The events of the caller of [Run] in invocation [k], newest first. *)
Definition cview (k : nat) (lg : list (nat * Event Handle T))
  : list (Event Handle T) :=
  map snd (filter (fun x => (fst x =? k) && by_coord (snd x)) lg).

Definition opened (a : RunArgs Handle T) (c : Handle) : Prop :=
  openr a tt = (c, None).

(** What the caller of [Run] has logged when it stands at [pc]. *)
Definition tr (pc : CoordPC Handle T) : list (Event Handle T) :=
  match pc with
  | CIdle | CReturned _ => []
  | CStart a => [EvCall a]
  | COpen a => [EvNotify; EvCall a]
  | CLeave a c => [EvOpen c None; EvNotify; EvCall a]
  | CGo a c => [EvLeave; EvOpen c None; EvNotify; EvCall a]
  | CWait a c => [EvGo c; EvLeave; EvOpen c None; EvNotify; EvCall a]
  | CEnter a c e =>
      [EvRecv e; EvGo c; EvLeave; EvOpen c None; EvNotify; EvCall a]
  | CRecord a c e =>
      [EvEnter; EvRecv e; EvGo c; EvLeave; EvOpen c None; EvNotify; EvCall a]
  | CClose a c e =>
      (if os e then [EvSignal (s e)] else []) ++
      [EvEnter; EvRecv e; EvGo c; EvLeave; EvOpen c None; EvNotify; EvCall a]
  end.

(** The two complete logs of an invocation. *)
Definition failed_trace (a : RunArgs Handle T) (c : Handle) (x : error)
  : list (Event Handle T) :=
  [EvReturn (Some (errors_New (could_not_open x))); EvOpen c (Some x);
   EvNotify; EvCall a].

Definition closed_trace (a : RunArgs Handle T) (c : Handle) (e : event)
  : list (Event Handle T) :=
  EvReturn (closr a c) :: EvClose c (closr a c) :: tr (CClose a c e).

Definition returned_shape (r : option error) (l : list (Event Handle T))
  : Prop :=
  exists a,
    (exists c x, openr a tt = (c, Some x) /\
                 r = Some (errors_New (could_not_open x)) /\
                 l = failed_trace a c x) \/
    (exists c e, opened a c /\ r = closr a c /\ l = closed_trace a c e).

Definition shape (pc : CoordPC Handle T) (l : list (Event Handle T)) : Prop :=
  match pc with
  | CIdle | CStart _ | COpen _ => l = tr pc
  | CLeave a c | CGo a c | CWait a c
  | CEnter a c _ | CRecord a c _ | CClose a c _ => opened a c /\ l = tr pc
  | CReturned r => returned_shape r l
  end.

Definition finished (l : list (Event Handle T)) : Prop :=
  l = [] \/ exists r, returned_shape r l.

Definition launched (lg : list (nat * Event Handle T))
           (r : RunnerPC Handle T) : Prop :=
  match r with
  | RStart k c f =>
      In (k, EvGo c) lg /\ exists a, In (k, EvCall a) lg /\ f = run a
  | _ => True
  end.

(** Earlier invocations are complete, later ones have not begun, and a
    runner was launched before it ran. *)
Definition LogFrame (k : nat) (lg : list (nat * Event Handle T)) : Prop :=
  (forall k0, k0 < k -> finished (cview k0 lg)) /\
  (forall k0, k < k0 -> cview k0 lg = []) /\
  (forall k0 c, In (k0, EvRun c) lg -> In (k0, EvGo c) lg).

Definition InvLog (st : State Handle T) : Prop :=
  shape (coord st) (cview (runid st) (log st)) /\
  LogFrame (runid st) (log st) /\
  launched (log st) (runner st) /\
  Forall (launched (log st)) (stale st) /\
  (runner st = ROff \/
   exists c, In (EvGo c) (cview (runid st) (log st))).

(** Counting in the log of invocation [k]. *)
Definition is_close (ev : Event Handle T) : bool :=
  match ev with EvClose _ _ => true | _ => false end.

Definition is_recv (ev : Event Handle T) : bool :=
  match ev with EvRecv _ => true | _ => false end.

Definition closes (k : nat) (st : State Handle T) : nat :=
  List.length (filter is_close (cview k (log st))).

Definition receives (k : nat) (st : State Handle T) : nat :=
  List.length (filter is_recv (cview k (log st))).

(** The event that decided an invocation, read off its log. *)
Fixpoint winner (l : list (Event Handle T)) : option event :=
  match l with
  | [] => None
  | EvRecv e :: _ => Some e
  | _ :: l' => winner l'
  end.

(** The event that has been acted upon at this point of [Run]. *)
Definition decided (st : State Handle T) : option event :=
  match coord st with
  | CClose _ _ e => Some e
  | CReturned _ => winner (cview (runid st) (log st))
  | _ => None
  end.

(** The [Signal] field after [Run] acted on [w], when it was [sg0] at the
    call. *)
Definition outcome_signal (sg0 : option os_Signal) (w : option event)
  : option os_Signal :=
  match w with
  | Some e => if os e then s e else sg0
  | None => sg0
  end.

(** During invocation [k], entered with [Signal] at [sg0]: the field
    changes only by the record of the event acted upon. *)
Definition kept (k : nat) (sg0 : option os_Signal) (st : State Handle T)
  : Prop :=
  runid st = k /\ coord st <> CIdle /\
  Signal (pal st) = outcome_signal sg0 (decided st).

(** What [Run] returns, as a function of its arguments. *)
Definition Run_result (a : RunArgs Handle T) : option error :=
  let (c, err) := openr a tt in
  match err with
  | Some x => Some (errors_New (could_not_open x))
  | None => closr a c
  end.

Definition not_a_call (l : Label Handle T) : Prop :=
  match l with LCall _ => False | _ => True end.

Definition any_label (l : Label Handle T) : Prop := True.

End Specs.

Arguments InvSig {Handle T} st.
Arguments InvRec {Handle T} st.
Arguments InvListen {Handle T} st.
Arguments InvLog {Handle T} st.
Arguments LogFrame {Handle T} k lg.
Arguments cview {Handle T} k lg.
Arguments tr {Handle T} pc.
Arguments shape {Handle T} pc l.
Arguments returned_shape {Handle T} r l.
Arguments finished {Handle T} l.
Arguments failed_trace {Handle T} a c x.
Arguments closed_trace {Handle T} a c e.
Arguments opened {Handle T} a c.
Arguments launched {Handle T} lg r.
Arguments by_coord {Handle T} ev.
Arguments is_close {Handle T} ev.
Arguments is_recv {Handle T} ev.
Arguments closes {Handle T} k st.
Arguments receives {Handle T} k st.
Arguments winner {Handle T} l.
Arguments decided {Handle T} st.
Arguments kept {Handle T} k sg0 st.
Arguments Run_result {Handle T} a.
Arguments not_a_call {Handle T} l.
Arguments any_label {Handle T} l.
Arguments obeys {T} tnext inreg.
Arguments starts_outside {Handle T} inreg a.
Arguments protocol_ok {Handle T} inreg l.
Arguments in_region {Handle T} inreg r.
Arguments coord_holds {Handle T} pc.
Arguments count_in {Handle T} inreg l.
Arguments holders {Handle T} inreg st.
Arguments runner_wf {Handle T} inreg r.
Arguments pc_wf {Handle T} inreg pc.
Arguments InvGuard {Handle T} inreg st.
Arguments no_runner_yet {Handle T} pc r.
Arguments nobody_inside {Handle T} inreg st.

(** ** More of the package: what else is stated *)

Section MoreSpecs.

Variable Handle : Type.
Variable T : Type.
Variable tnext : T -> option (TaskOp * T).

(** A process whose Paladin is [p], before any [Run]: [boot] is
    [start New]; [start] of a Paladin that did not come from [New] is a
    process that uses [new(Paladin)] or a Paladin it has left. *)
Definition start (p : Paladin) : State Handle T :=
  {| pal := p; sig := None; coord := CIdle; listener := LOff;
     runner := ROff; stale := []; runid := 0; log := []; dead := false |}.

(** The buffer of [sig] within its capacity. *)
Definition InvBound (st : State Handle T) : Prop :=
  match sig st with
  | Some ch => List.length (queue ch) <= sig_capacity
  | None => True
  end.

(** Receives of the listener in a schedule. *)
Fixpoint takes (sched : list (Label Handle T)) : nat :=
  match sched with
  | [] => 0
  | LListener :: rest => S (takes rest)
  | _ :: rest => takes rest
  end.

Definition is_start (pc : CoordPC Handle T) : bool :=
  match pc with CStart _ => true | _ => false end.

(** How many receives the listener of the invocation has left. *)
Definition budget (st : State Handle T) : nat :=
  match listener st with
  | LOff => if is_start (coord st) then 1 else 0
  | LRecv => 1
  | LSend _ | LDone => 0
  end.

(** The event that the caller of [Run] has received in this invocation. *)
Definition received (st : State Handle T) : option event :=
  match coord st with
  | CEnter _ _ e | CRecord _ _ e | CClose _ _ e => Some e
  | CReturned _ => winner (cview (runid st) (log st))
  | _ => None
  end.

(** A runner goroutine past [run(c)]: the task has nothing left to do. *)
Definition run_over (r : RunnerPC Handle T) : Prop :=
  match r with
  | RSend t | RDone t => tnext t = None
  | _ => True
  end.

(** An event is sent on [done] by the goroutine it tells of. *)
Definition InvDone (st : State Handle T) : Prop :=
  run_over (runner st) /\
  Forall run_over (stale st) /\
  match received st with
  | Some e =>
      if os e then listener st = LDone
      else exists t, runner st = RDone t
  | None => True
  end.

(** A runner whose task has ended inside a protected region. *)
Definition ended_inside (inreg : T -> bool) (r : RunnerPC Handle T) : Prop :=
  match r with
  | RRun t => tnext t = None /\ inreg t = true
  | RSend t | RDone t => inreg t = true
  | _ => False
  end.

(** Counting the opener, the launch and the call of the runner in the
    log of invocation [k], and the runner goroutines of [k] that have not
    yet called [run(c)]. *)
Definition is_open (ev : Event Handle T) : bool :=
  match ev with EvOpen _ _ => true | _ => false end.

Definition is_go (ev : Event Handle T) : bool :=
  match ev with EvGo _ => true | _ => false end.

Definition is_run (ev : Event Handle T) : bool :=
  match ev with EvRun _ => true | _ => false end.

Definition count_ev (f : Event Handle T -> bool) (k : nat)
           (lg : list (nat * Event Handle T)) : nat :=
  List.length (filter (fun x => (fst x =? k) && f (snd x)) lg).

Definition opens (k : nat) (st : State Handle T) : nat :=
  count_ev is_open k (log st).

Definition gos (k : nat) (st : State Handle T) : nat :=
  count_ev is_go k (log st).

Definition runs (k : nat) (st : State Handle T) : nat :=
  count_ev is_run k (log st).

Definition waiting (k : nat) (r : RunnerPC Handle T) : nat :=
  match r with
  | RStart k' _ _ => if k' =? k then 1 else 0
  | _ => 0
  end.

Fixpoint waiting_in (k : nat) (l : list (RunnerPC Handle T)) : nat :=
  match l with
  | [] => 0
  | r :: l' => waiting k r + waiting_in k l'
  end.

Definition pending (k : nat) (st : State Handle T) : nat :=
  waiting k (runner st) + waiting_in k (stale st).

(** Every launch is followed by at most one call of the runner. *)
Definition InvOnce (st : State Handle T) : Prop :=
  forall k, runs k st + pending k st = gos k st.

End MoreSpecs.

Arguments start {Handle T} p.
Arguments InvBound {Handle T} st.
Arguments takes {Handle T} sched.
Arguments is_start {Handle T} pc.
Arguments budget {Handle T} st.
Arguments received {Handle T} st.
Arguments run_over {Handle T} tnext r.
Arguments InvDone {Handle T} tnext st.
Arguments ended_inside {Handle T} tnext inreg r.
Arguments is_open {Handle T} ev.
Arguments is_go {Handle T} ev.
Arguments is_run {Handle T} ev.
Arguments count_ev {Handle T} f k lg.
Arguments opens {Handle T} k st.
Arguments gos {Handle T} k st.
Arguments runs {Handle T} k st.
Arguments waiting {Handle T} k r.
Arguments waiting_in {Handle T} k l.
Arguments pending {Handle T} k st.
Arguments InvOnce {Handle T} st.

Section MoreInvariants.

Variable Handle : Type.
Variable T : Type.

(** [Run] called with [a] on a Paladin whose guard is not locked, as
    long as the opener of [a] succeeds with [c]: it gets as far as
    [p.Leave()] and no further. *)
Definition never_left (a : RunArgs Handle T) (c : Handle)
           (st : State Handle T) : Prop :=
  guard (pal st) = false /\
  runner st = ROff /\ stale st = [ROff] /\ runid st = 1 /\
  (forall x, In x (log st) ->
             is_close (snd x) = false /\ is_go (snd x) = false) /\
  (coord st = CStart a \/ coord st = COpen a \/ coord st = CLeave a c) /\
  (dead st = true -> coord st = CLeave a c).

End MoreInvariants.

Arguments never_left {Handle T} a c st.

Section TaskStates.

Variable Handle : Type.
Variable T : Type.

(** A property [G] of handles and a property [W] of the states of
    tasks, as they bear on a runner goroutine, on the program points of
    [Run] before the launch, and on a call of [Run]. *)
Variable G : Handle -> Prop.
Variable W : T -> Prop.

Definition runner_has (r : RunnerPC Handle T) : Prop :=
  match r with
  | ROff => True
  | RStart _ c f => G c /\ W (f c)
  | RRun t | RSend t | RDone t => W t
  end.

Definition pc_has (pc : CoordPC Handle T) : Prop :=
  match pc with
  | CStart a | COpen a => forall c, opened a c -> G c /\ W (run a c)
  | CLeave a c | CGo a c => G c /\ W (run a c)
  | _ => True
  end.

Definition call_has (l : Label Handle T) : Prop :=
  match l with
  | LCall a => forall c, opened a c -> G c /\ W (run a c)
  | _ => True
  end.

Definition InvTask (st : State Handle T) : Prop :=
  pc_has (coord st) /\ runner_has (runner st) /\
  Forall runner_has (stale st).

End TaskStates.

Arguments runner_has {Handle T} G W r.
Arguments pc_has {Handle T} G W pc.
Arguments call_has {Handle T} G W l.
Arguments InvTask {Handle T} G W st.

Section Undisturbed.

Variable Handle : Type.
Variable T : Type.
Variable tnext : T -> option (TaskOp * T).

(** A move of the schedule other than the delivery of an interrupt. *)
Definition no_interrupt (l : Label Handle T) : Prop :=
  match l with
  | LDeliver sg => sg <> os_Interrupt
  | _ => True
  end.

(** The event the runner goroutine sends: [e.os = false], [e.s] unset. *)
Definition task_event : event := {| os := false; s := None |}.

(** No interrupt has reached the process. *)
Definition InvQuiet (st : State Handle T) : Prop :=
  Signal (pal st) = None /\
  match sig st with
  | Some ch => queue ch = [] /\ subscribed ch = [os_Interrupt]
  | None => True
  end /\
  (listener st = LOff \/ listener st = LRecv) /\
  match coord st with
  | CEnter _ _ e | CRecord _ _ e | CClose _ _ e => e = task_event
  | _ => True
  end /\
  (forall k ev, In (k, ev) (log st) ->
     match ev with
     | EvRecv e => e = task_event
     | EvSignal _ => False
     | _ => True
     end).

(** Invocation [k], entered with [Signal] at [sg0], has not been reached
    by an interrupt: the channel it made is empty, its listener has
    received nothing, and the only event there can be is the runner's. *)
Definition InvCalm (k : nat) (sg0 : option os_Signal)
           (st : State Handle T) : Prop :=
  runid st = k /\
  Signal (pal st) = sg0 /\
  match coord st with
  | CIdle => False
  | CStart _ => listener st = LOff
  | _ =>
      listener st = LRecv /\
      exists ch, sig st = Some ch /\
                 queue ch = [] /\ subscribed ch = [os_Interrupt]
  end /\
  match coord st with
  | CEnter _ _ e | CRecord _ _ e | CClose _ _ e => e = task_event
  | _ => True
  end /\
  (forall e, In (k, EvRecv e) (log st) -> e = task_event).

(** The task by itself: [k] operations of a runner goroutine that finds
    the Paladin as the one before left it.  [None] when it would have to
    wait for the guard, unlocks it unlocked, or has less than [k]
    operations to perform. *)
Fixpoint alone (k : nat) (p : Paladin) (t : T) : option (Paladin * T) :=
  match k with
  | O => Some (p, t)
  | S k' =>
      match runner_step (Handle := Handle) tnext p (RRun t) with
      | Some (Next p' (RRun t') _) => alone k' p' t'
      | _ => None
      end
  end.

(** One goroutine after the other: [Run] is called with [a] and gets to
    wait for an event, the runner goroutine starts, performs [k]
    operations and finds the task at its end, the event is handed over,
    and [Run] goes on to its return. *)
Definition sched_alone (a : RunArgs Handle T) (k : nat)
  : list (Label Handle T) :=
  [LCall a; LCoord; LCoord; LCoord; LCoord; LRunner] ++
  repeat LRunner k ++
  [LRunner; LSyncRunner; LCoord; LCoord; LCoord].

End Undisturbed.

Arguments no_interrupt {Handle T} l.
Arguments InvQuiet {Handle T} st.
Arguments InvCalm {Handle T} k sg0 st.
Arguments alone Handle {T} tnext k p t.
Arguments sched_alone {Handle T} a k.

(** ** Go's [int], taken as 64-bit *)

Definition int_wrap (z : Z) : Z := ((z + 2 ^ 63) mod 2 ^ 64 - 2 ^ 63)%Z.

(** [x++] on an [int] *)
Definition incr (z : Z) : Z := int_wrap (z + 1).

(** ** The tests (paladin_test.go)

    [runner] and [protectedRunner] count [e.result] up [iterations]
    times, the second inside a protected region and once more after it.
    The resource handle is the test's [env], of which the fields
    [result], [stopper] and [killer] are kept; the task state is the
    program point of the function handed to [Run] together with the
    [env].  The goroutine [killer], which signals the process, is the
    environment of the run: the signals it sends are the deliveries of a
    schedule, and its own use of [e.killer], which the task does not look
    at again, is left out.  A goroutine that has to wait for a mutex of
    the [env], and one that would unlock it unlocked, is seen as one that
    does not get further; neither happens in the three tests. *)
Module Tests.

Record env := { result : Z; stopper : Mutex.t; killer : Mutex.t }.

Definition set_result (e : env) (z : Z) : env :=
  {| result := z; stopper := stopper e; killer := killer e |}.

Definition set_stopper (e : env) (m : Mutex.t) : env :=
  {| result := result e; stopper := m; killer := killer e |}.

Definition set_killer (e : env) (m : Mutex.t) : env :=
  {| result := result e; stopper := stopper e; killer := m |}.

(** The three calls of [p.Run]: in [TestNoInterrupt], [testInterrupt]
    and [testInterruptProtected]. *)
Inductive Test := NoInterrupt | Interrupt | InterruptProtected.

Inductive PC :=
| IKiller               (* testInterrupt: e.killer.Unlock() *)
| IStopper              (* e.stopper.Unlock(); runner(r) *)
| PStopper              (* testInterruptProtected: e.stopper.Unlock() *)
| PKiller               (* e.killer.Unlock(); protectedRunner(r) *)
| UnLock                (* runner: e.stopper.Lock() *)
| UnLoop (i : Z)        (* for i := 0; i < iterations; i++ { e.result++ } *)
| UnUnlock              (* deferred e.stopper.Unlock() *)
| UnEnd
| PrLock                (* protectedRunner: e.stopper.Lock() *)
| PrEnter               (* e.p.Enter() *)
| PrLoop (i : Z)        (* for i := 0; i < iterations; i++ { e.result++ } *)
| PrLeave               (* e.p.Leave() *)
| PrLast                (* e.result++ *)
| PrUnlock              (* deferred e.stopper.Unlock() *)
| PrEnd.

Record task := { pc : PC; e : env }.

Definition at_pc (t : task) (p : PC) : task := {| pc := p; e := e t |}.

(** [runner(r)] and [protectedRunner(r)]: [r] is asserted to be the [env] *)
Definition runner (r : env) : task := {| pc := UnLock; e := r |}.
Definition protectedRunner (r : env) : task := {| pc := PrLock; e := r |}.

(** The opener of a test: [e] is [new(env)]; the two tests with signals
    lock both mutexes. *)
Definition opener (x : Test) (_ : unit) : env * option error :=
  match x with
  | NoInterrupt =>
      ({| result := 0; stopper := Mutex.fresh; killer := Mutex.fresh |}, None)
  | Interrupt | InterruptProtected =>
      ({| result := 0; stopper := true; killer := true |}, None)
  end.

(** The closer of the tests is [e.Close()], which returns nil. *)
Definition closer (_ : env) : option error := None.

(** The function a test hands to [Run]. *)
Definition task_of (x : Test) (r : env) : task :=
  match x with
  | NoInterrupt => runner r
  | Interrupt => {| pc := IKiller; e := r |}
  | InterruptProtected => {| pc := PStopper; e := r |}
  end.

Definition args (x : Test) : RunArgs env task :=
  {| openr := opener x; closr := closer; run := task_of x |}.

(** [m.Unlock(); rest]: [upd] stores the mutex. *)
Definition unlock_then (t : task) (m : Mutex.t) (upd : env -> Mutex.t -> env)
           (p : PC) : option (TaskOp * task) :=
  match Mutex.Unlock m with
  | Some m' => Some (TWork, {| pc := p; e := upd (e t) m' |})
  | None => Some (TWork, t)
  end.

(** [m.Lock(); rest] *)
Definition lock_then (t : task) (m : Mutex.t) (upd : env -> Mutex.t -> env)
           (p : PC) : option (TaskOp * task) :=
  match Mutex.Lock m with
  | Some m' => Some (TWork, {| pc := p; e := upd (e t) m' |})
  | None => Some (TWork, t)
  end.

Section Runners.

Variable iterations : Z.

Definition next (t : task) : option (TaskOp * task) :=
  match pc t with
  | IKiller => unlock_then t (killer (e t)) set_killer IStopper
  | IStopper => unlock_then t (stopper (e t)) set_stopper UnLock
  | PStopper => unlock_then t (stopper (e t)) set_stopper PKiller
  | PKiller => unlock_then t (killer (e t)) set_killer PrLock
  | UnLock => lock_then t (stopper (e t)) set_stopper (UnLoop 0)
  | UnLoop i =>
      if (i <? iterations)%Z
      then Some (TWork, {| pc := UnLoop (incr i);
                           e := set_result (e t) (incr (result (e t))) |})
      else Some (TWork, at_pc t UnUnlock)
  | UnUnlock => unlock_then t (stopper (e t)) set_stopper UnEnd
  | UnEnd => None
  | PrLock => lock_then t (stopper (e t)) set_stopper PrEnter
  | PrEnter => Some (TEnter, at_pc t (PrLoop 0))
  | PrLoop i =>
      if (i <? iterations)%Z
      then Some (TWork, {| pc := PrLoop (incr i);
                           e := set_result (e t) (incr (result (e t))) |})
      else Some (TWork, at_pc t PrLeave)
  | PrLeave => Some (TLeave, at_pc t PrLast)
  | PrLast =>
      Some (TWork, {| pc := PrUnlock;
                      e := set_result (e t) (incr (result (e t))) |})
  | PrUnlock => unlock_then t (stopper (e t)) set_stopper PrEnd
  | PrEnd => None
  end.

(** Inside the protected region of [protectedRunner]. *)
Definition inside (t : task) : bool :=
  match pc t with
  | PrLoop _ | PrLeave => true
  | _ => false
  end.

(** What [e.result] is at each program point. *)
Definition counted (t : task) : Prop :=
  match pc t with
  | IKiller | IStopper | PStopper | PKiller | UnLock | PrLock | PrEnter =>
      result (e t) = 0%Z
  | UnLoop i | PrLoop i =>
      (0 <= i <= iterations)%Z /\ result (e t) = i
  | UnUnlock | UnEnd | PrLeave | PrLast => result (e t) = iterations
  | PrUnlock | PrEnd => result (e t) = (iterations + 1)%Z
  end.

End Runners.

(** The mutexes of the [env] at each program point. *)
Definition locks (t : task) : Prop :=
  match pc t with
  | IKiller | PStopper => stopper (e t) = true /\ killer (e t) = true
  | IStopper => stopper (e t) = true
  | PKiller => stopper (e t) = false /\ killer (e t) = true
  | UnLock | PrLock | UnEnd | PrEnd => stopper (e t) = false
  | _ => stopper (e t) = true
  end.

(** The program points of the function that a test hands to [Run]. *)
Definition of_test (x : Test) (t : task) : bool :=
  match x, pc t with
  | NoInterrupt, (UnLock | UnLoop _ | UnUnlock | UnEnd) => true
  | Interrupt, (IKiller | IStopper | UnLock | UnLoop _ | UnUnlock | UnEnd) =>
      true
  | InterruptProtected,
    (PStopper | PKiller | PrLock | PrEnter | PrLoop _ | PrLeave | PrLast
     | PrUnlock | PrEnd) => true
  | _, _ => false
  end.

(** What holds of the task of test [x] wherever it stands. *)
Definition sound (iterations : Z) (x : Test) (t : task) : Prop :=
  counted iterations t /\ locks t /\ of_test x t = true.

(** The last program point of the task, and the count it leaves. *)
Definition last_pc (x : Test) : PC :=
  match x with InterruptProtected => PrEnd | _ => UnEnd end.

Definition full_count (iterations : Z) (x : Test) : Z :=
  match x with
  | InterruptProtected => (iterations + 1)%Z
  | _ => iterations
  end.

(** The operations the task of test [x] performs: those before the
    loop, one for each iteration, and those from the end of the loop
    on. *)
Definition steps_before (x : Test) : nat :=
  match x with NoInterrupt => 1 | Interrupt => 3 | InterruptProtected => 4 end.

Definition steps_after (x : Test) : nat :=
  match x with InterruptProtected => 4 | _ => 2 end.

Definition steps (iterations : Z) (x : Test) : nat :=
  steps_before x + (Z.to_nat iterations + steps_after x).

(** The task of test [x] at its end. *)
Definition ended (iterations : Z) (x : Test) : task :=
  {| pc := last_pc x;
     e := {| result := full_count iterations x;
             stopper := false; killer := false |} |}.

(** [e.result] as the test reads it after [Run]. *)
Definition seen (r : RunnerPC env task) : option Z :=
  match r with
  | ROff => None
  | RStart _ c _ => Some (result c)
  | RRun t | RSend t | RDone t => Some (result (e t))
  end.

(** A small run for three iterations: the interrupt arrives while
    [protectedRunner] counts. *)
Definition rest_counting : list (Label env task) :=
  [LCoord; LCoord; LCoord; LCoord;
   LRunner; LRunner; LRunner; LRunner; LRunner;
   LDeliver os_Interrupt; LListener; LSyncListener;
   LRunner; LRunner; LRunner; LRunner; LRunner;
   LCoord; LCoord; LCoord].

Definition sched_counting : list (Label env task) :=
  LCall (args InterruptProtected) :: rest_counting.

(** No signal: [runner] counts to the end. *)
Definition rest_quiet : list (Label env task) :=
  [LCoord; LCoord; LCoord; LCoord;
   LRunner; LRunner; LRunner; LRunner; LRunner; LRunner; LRunner; LRunner;
   LSyncRunner; LCoord; LCoord; LCoord].

Definition sched_quiet : list (Label env task) :=
  LCall (args NoInterrupt) :: rest_quiet.

Definition final (sched : list (Label env task)) : State env task :=
  match exec (next 3) boot sched with
  | Some st => st
  | None => boot
  end.

End Tests.

(** ** The demonstrator (demos/simple/simple.go)

    The function handed to [Run] reads the file inside a protected
    region and then prints its contents ten times, each time inside a
    region of its own ([say]).  The resource handle is the open file:
    what [ioutil.ReadAll] returns for it and what its [Close] returns.
    Standard output is the list of the strings the task has printed;
    [time.Sleep] takes a step and changes nothing.  The lines that the
    closer and [main] print are not part of the task and are left
    out. *)
Module Simple.

Record file :=
  { data : string; read_err : option error; close_err : option error }.

Inductive PC :=
| Enter1             (* p.Enter() *)
| ReadAll            (* b, err := ioutil.ReadAll(f) *)
| Leave1             (* p.Leave() *)
| Format             (* s = fmt.Sprintf(..., err), or s = string(b) *)
| Loop (i : Z)       (* for i := 0; i < 10; i++ { say(s): p.Enter() *)
| Print (i : Z)      (* fmt.Printf(..., s) *)
| SayLeave (i : Z)   (* deferred p.Leave() *)
| Sleep (i : Z).     (* time.Sleep(time.Second) *)

Record task :=
  { pc : PC; f : file; b : string; err : option error; s : string;
    stdout : list string }.

Definition at_pc (t : task) (p : PC) : task :=
  {| pc := p; f := f t; b := b t; err := err t; s := s t;
     stdout := stdout t |}.

(** The function literal of [main]. *)
Definition runner (r : file) : task :=
  {| pc := Enter1; f := r; b := EmptyString; err := None; s := EmptyString;
     stdout := [] |}.

Definition next (t : task) : option (TaskOp * task) :=
  match pc t with
  | Enter1 => Some (TEnter, at_pc t ReadAll)
  | ReadAll =>
      Some (TWork, {| pc := Leave1; f := f t; b := data (f t);
                      err := read_err (f t); s := s t;
                      stdout := stdout t |})
  | Leave1 => Some (TLeave, at_pc t Format)
  | Format =>
      Some (TWork,
            {| pc := Loop 0; f := f t; b := b t; err := err t;
               s := match err t with
                    | Some x => ("ERROR: " ++ Error x)%string
                    | None => b t
                    end;
               stdout := stdout t |})
  | Loop i =>
      if (i <? 10)%Z then Some (TEnter, at_pc t (Print i)) else None
  | Print i =>
      Some (TWork, {| pc := SayLeave i; f := f t; b := b t; err := err t;
                      s := s t; stdout := stdout t ++ [s t] |})
  | SayLeave i => Some (TLeave, at_pc t (Sleep i))
  | Sleep i => Some (TWork, at_pc t (Loop (incr i)))
  end.

(** Inside one of the protected regions. *)
Definition inside (t : task) : bool :=
  match pc t with
  | ReadAll | Leave1 | Print _ | SayLeave _ => true
  | _ => false
  end.

(** [os.Open(nm)] gives the file [fl] and the error [oerr]; the closer
    returns what [f.Close()] returns. *)
Definition args (fl : file) (oerr : option error) : RunArgs file task :=
  {| openr := fun _ => (fl, oerr); closr := close_err; run := runner |}.

(** What the task prints: the contents of the file, or the error of
    reading it. *)
Definition text (fl : file) : string :=
  match read_err fl with
  | Some x => ("ERROR: " ++ Error x)%string
  | None => data fl
  end.

(** What holds of the task on the file [fl] wherever it stands. *)
Definition sound (fl : file) (t : task) : Prop :=
  f t = fl /\
  match pc t with
  | Enter1 | ReadAll => stdout t = []
  | Leave1 | Format =>
      b t = data fl /\ err t = read_err fl /\ stdout t = []
  | Loop i =>
      (0 <= i <= 10)%Z /\ s t = text fl /\
      stdout t = repeat (text fl) (Z.to_nat i)
  | Print i =>
      (0 <= i < 10)%Z /\ s t = text fl /\
      stdout t = repeat (text fl) (Z.to_nat i)
  | SayLeave i | Sleep i =>
      (0 <= i < 10)%Z /\ s t = text fl /\
      stdout t = repeat (text fl) (Z.to_nat i + 1)
  end.

(** Standard output as the task has left it. *)
Definition printed (r : RunnerPC file task) : list string :=
  match r with
  | ROff | RStart _ _ _ => []
  | RRun t | RSend t | RDone t => stdout t
  end.

(** The task at its end. *)
Definition ended (fl : file) : task :=
  {| pc := Loop 10; f := fl; b := data fl; err := read_err fl;
     s := text fl; stdout := repeat (text fl) 10 |}.

(** A file of one line that reads and closes well. *)
Definition hello : file :=
  {| data := "hello world"; read_err := None; close_err := None |}.

(** The interrupt arrives while the task says the line for the second
    time. *)
Definition rest_said_twice : list (Label file task) :=
  [LCoord; LCoord; LCoord; LCoord;
   LRunner; LRunner; LRunner; LRunner; LRunner;
   LRunner; LRunner; LRunner; LRunner;
   LRunner; LDeliver os_Interrupt; LListener; LSyncListener;
   LRunner; LRunner;
   LCoord; LCoord; LCoord].

Definition final (sched : list (Label file task)) : State file task :=
  match exec next boot sched with
  | Some st => st
  | None => boot
  end.

End Simple.

(** ** Further scripted runs *)
Module Runs.

(** [new(Paladin)]: the guard is not locked. *)
Definition unlocked : Paladin := {| Signal := None; guard := false |}.

(** A task that ends inside its protected region. *)
Definition stays : RunArgs nat Script.task :=
  Script.args (9, None) None [TEnter].

(** The task of [Script.good] has entered its region. *)
Definition sched_inside : list (Label nat Script.task) :=
  [LCall Script.good; LCoord; LCoord; LCoord; LCoord; LRunner; LRunner].

(** What follows the call in [Script.sched_interrupted]. *)
Definition after_call : list (Label nat Script.task) :=
  tl Script.sched_interrupted.

(** The task of [stays] has ended inside its region ... *)
Definition sched_stays : list (Label nat Script.task) :=
  [LCall stays; LCoord; LCoord; LCoord; LCoord; LRunner; LRunner].

(** ... and has sent its event: [Run] cannot enter. *)
Definition sched_stuck : list (Label nat Script.task) :=
  [LRunner; LSyncRunner].

(** A run that only signal 15 is sent to. *)
Definition sched_calm : list (Label nat Script.task) :=
  [LCall Script.quiet; LCoord; LCoord; LCoord; LCoord;
   LRunner; LDeliver 15%Z; LRunner; LRunner; LRunner; LRunner;
   LSyncRunner; LCoord; LCoord; LCoord].

(** A second invocation, after [Script.sched_interrupted] has left an
    interrupt in the channel of the first; signal 15 is sent. *)
Definition after_second_call : list (Label nat Script.task) :=
  [LCoord; LCoord; LCoord; LCoord;
   LRunner; LRunner; LDeliver 15%Z; LRunner; LRunner; LRunner;
   LSyncRunner; LCoord; LCoord; LCoord].

End Runs.

(** * Proofs *)

(** ** The guard operations *)

Lemma Enter_Some (p p' : Paladin) :
  Enter p = Some p' ->
  guard p = false /\ guard p' = true /\ Signal p' = Signal p.
Proof.
  unfold Enter, Mutex.Lock; destruct (guard p); intros H;
    inversion H; subst; auto.
Qed.

Lemma Leave_Some (p p' : Paladin) :
  Leave p = Some p' ->
  guard p = true /\ guard p' = false /\ Signal p' = Signal p.
Proof.
  unfold Leave, Mutex.Unlock; destruct (guard p); intros H;
    inversion H; subst; auto.
Qed.

Lemma Leave_None (p : Paladin) : Leave p = None -> guard p = false.
Proof. unfold Leave, Mutex.Unlock; destruct (guard p); [discriminate|auto]. Qed.

Lemma Enter_None (p : Paladin) : Enter p = None -> guard p = true.
Proof. unfold Enter, Mutex.Lock; destruct (guard p); [auto|discriminate]. Qed.

Lemma Enter_free (p : Paladin) :
  guard p = false -> Enter p = Some {| Signal := Signal p; guard := true |}.
Proof. unfold Enter, Mutex.Lock; intros ->; reflexivity. Qed.

Lemma New_locked : guard New = true /\ Signal New = None.
Proof. split; reflexivity. Qed.

(** ** Tactics for the case analysis of a step *)

Ltac guard_facts :=
  repeat match goal with
  | H : Enter _ = Some _ |- _ =>
      apply Enter_Some in H; destruct H as (? & ? & ?)
  | H : Leave _ = Some _ |- _ =>
      apply Leave_Some in H; destruct H as (? & ? & ?)
  | H : Leave _ = None |- _ => apply Leave_None in H
  | H : Enter _ = None |- _ => apply Enter_None in H
  end.

(** [cases_of H] splits [H : .. = Some st'] along the matches of the step
    function, innermost first. *)
Ltac cases_of H :=
  repeat match type of H with
  | context [match ?x with _ => _ end] =>
      lazymatch x with
      | context [match _ with _ => _ end] => fail
      | _ => destruct x eqn:?; simpl in H; try discriminate H
      end
  end.

Ltac step_cases H :=
  unfold step in H; simpl in H;
  try match type of H with
      | context [step_live _ _ ?l] => destruct l
      end;
  unfold step_live, Run_step, runner_step in H; simpl in H;
  cases_of H;
  try (injection H as H; subst).

Ltac guard_arith :=
  repeat match goal with
  | H : _ /\ _ |- _ => destruct H
  end;
  repeat match goal with
  | H : guard _ = _ |- _ => rewrite H in *
  | H : ?f ?t = true |- _ => rewrite H in *
  | H : ?f ?t = false |- _ => rewrite H in *
  | H : ?f ?t = ?f ?u |- _ => rewrite H in *
  end;
  simpl in *; lia.

Section Proofs.

Variable Handle : Type.
Variable T : Type.
Variable tnext : T -> option (TaskOp * T).


(** ** Running schedules *)

Lemma exec_app (sched1 sched2 : list (Label Handle T)) (st : State Handle T) :
  exec tnext st (sched1 ++ sched2) =
  match exec tnext st sched1 with
  | Some st' => exec tnext st' sched2
  | None => None
  end.
Proof.
  revert st; induction sched1 as [|l sched1 IH]; intros st; simpl.
  - reflexivity.
  - destruct (step tnext st l); [apply IH | reflexivity].
Qed.

Section Invariant.
Variable ok : Label Handle T -> Prop.
Variable P : State Handle T -> Prop.
Hypothesis P_step :
  forall st l st', P st -> ok l -> step tnext st l = Some st' -> P st'.

Lemma exec_invariant (sched : list (Label Handle T)) :
  forall st st',
    P st -> Forall ok sched -> exec tnext st sched = Some st' -> P st'.
Proof.
  induction sched as [|l sched IH]; simpl; intros st st' HP Hok Hex.
  - now inversion Hex; subst.
  - inversion Hok as [|? ? Hl Hrest]; subst.
    destruct (step tnext st l) as [st1|] eqn:Hst; [|discriminate].
    apply (IH st1 st'); auto.
    apply (P_step st l st1); auto.
Qed.
End Invariant.

Lemma Forall_any_label (sched : list (Label Handle T)) : Forall any_label sched.
Proof. induction sched; constructor; unfold any_label; auto. Qed.

(** ** The recorded signal is nil or os.Interrupt *)

Lemma relay_ok (sg : os_Signal) (ch : SigChan) :
  chan_ok (Some ch) -> chan_ok (Some (relay sg ch)).
Proof.
  unfold chan_ok, relay; intros [Hs Hq].
  destruct (existsb (Z.eqb sg) (subscribed ch)) eqn:Hex; simpl; auto.
  destruct (List.length (queue ch) <? sig_capacity); simpl; auto.
  split; auto.
  apply Forall_app; split; auto.
  rewrite Hs in Hex; simpl in Hex.
  rewrite orb_false_r in Hex; apply Z.eqb_eq in Hex; subst.
  constructor; auto.
Qed.

Lemma InvSig_boot : InvSig (@boot Handle T).
Proof.
  unfold InvSig, sig_ok; simpl. repeat split; auto.
  intros k e [].
Qed.

Lemma InvSig_step (st : State Handle T) (l : Label Handle T) (st' : State Handle T) :
  InvSig st -> any_label l -> step tnext st l = Some st' -> InvSig st'.
Proof.
  intros (HS & HC & HL & HP & HG) _ H.
  destruct st as [p sg pc li ru sta k lg d]; simpl in *.
  step_cases H; unfold InvSig; simpl in *.
  (* the events received so far *)
  all: match goal with
       | |- _ /\ _ /\ _ /\ _ /\ ?E =>
           assert (HE : E);
           [ intros k' e' Hin;
             repeat (destruct Hin as [Hin|Hin];
                     [ try discriminate Hin;
                       try (injection Hin as ? ?; subst; auto;
                            intros Hos; discriminate Hos)
                     | ]);
             eauto
           | ]
       end.
  all: auto; guard_facts;
    repeat match goal with
    | H : Signal _ = Signal _ |- _ => rewrite H
    end; auto.
  - (* the signal is recorded *)
    repeat split; auto. right; auto.
  - (* the listener receives *)
    destruct HC as [Hs Hq].
    match goal with Hx : queue _ = _ :: _ |- _ => rewrite Hx in Hq end.
    inversion Hq; subst.
    repeat split; auto.
  - (* the runner goroutine has finished first *)
    repeat split; auto. intros Hos; discriminate Hos.
  - (* a signal is delivered *)
    match goal with
    | |- context [relay ?x ?c] => destruct (relay_ok x c HC)
    end.
    repeat split; auto.
Qed.

Lemma InvSig_reach (sched : list (Label Handle T)) (st : State Handle T) :
  exec tnext boot sched = Some st -> InvSig st.
Proof.
  intros H.
  apply (exec_invariant any_label InvSig InvSig_step sched boot st);
    auto using InvSig_boot, Forall_any_label.
Qed.

(** ** The signal is recorded before the closer is called *)

Lemma InvRec_step (st : State Handle T) (l : Label Handle T) (st' : State Handle T) :
  InvRec st -> any_label l -> step tnext st l = Some st' -> InvRec st'.
Proof.
  intros HR _ H.
  destruct st as [p sg pc li ru sta k lg d]; simpl in *.
  step_cases H; unfold InvRec in *; simpl in *; auto; guard_facts;
    try congruence;
    destruct pc; auto; intros Hos; rewrite <- (HR Hos); auto.
Qed.

Lemma InvRec_reach (sched : list (Label Handle T)) (st : State Handle T) :
  exec tnext boot sched = Some st -> InvRec st.
Proof.
  intros H.
  apply (exec_invariant any_label InvRec InvRec_step sched boot st);
    auto using Forall_any_label.
  exact I.
Qed.

(** ** The listener is alive while [Run] waits *)

Lemma InvListen_step (st : State Handle T) (l : Label Handle T) (st' : State Handle T) :
  InvListen st -> any_label l -> step tnext st l = Some st' -> InvListen st'.
Proof.
  intros [HR HS] _ H.
  destruct st as [p sg pc li ru sta k lg d]; simpl in *.
  step_cases H; unfold InvListen in *; simpl in *; auto;
    try (split; auto; destruct pc; simpl in *; auto; fail);
    try (split; auto; destruct li; simpl in *; auto;
         destruct sg; simpl in *; auto; fail).
Qed.

Lemma InvListen_reach (sched : list (Label Handle T)) (st : State Handle T) :
  exec tnext boot sched = Some st -> InvListen st.
Proof.
  intros H.
  apply (exec_invariant any_label InvListen InvListen_step sched boot st);
    auto using Forall_any_label.
  split; exact I.
Qed.

(** ** The guard has one holder *)

Section Guard.

Variable inreg : T -> bool.
Hypothesis Hobeys : obeys tnext inreg.

Lemma count_in_set_nth (l : list (RunnerPC Handle T)) :
  forall i r r',
    nth_error l i = Some r ->
    count_in inreg (set_nth i r' l) + Nat.b2n (in_region inreg r) =
    count_in inreg l + Nat.b2n (in_region inreg r').
Proof.
  induction l as [|y l IH]; intros [|i] r r' Hn; simpl in *;
    try discriminate.
  - inversion Hn; subst. lia.
  - specialize (IH i r r' Hn). lia.
Qed.

Lemma Forall_set_nth {A : Type} (P : A -> Prop) (l : list A) :
  forall i x, Forall P l -> P x -> Forall P (set_nth i x l).
Proof.
  induction l as [|y l IH]; intros [|i] x Hl Hx; simpl; auto;
    inversion Hl; subst; constructor; auto.
Qed.

Lemma Forall_nth_error {A : Type} (P : A -> Prop) (l : list A) :
  forall i x, Forall P l -> nth_error l i = Some x -> P x.
Proof.
  induction l as [|y l IH]; intros [|i] x Hl Hn; simpl in *;
    try discriminate; inversion Hl; subst.
  - inversion Hn; subst; auto.
  - eauto.
Qed.

Lemma count_in_zero (l : list (RunnerPC Handle T)) :
  count_in inreg l = 0 -> Forall (fun r => in_region inreg r = false) l.
Proof.
  induction l as [|y l IH]; simpl; intros H; constructor.
  - destruct (in_region inreg y); simpl in H; [discriminate|reflexivity].
  - apply IH. lia.
Qed.

Lemma InvGuard_boot : InvGuard inreg (@boot Handle T).
Proof. unfold InvGuard, holders; simpl; repeat split; auto. Qed.

Lemma InvGuard_step (st : State Handle T) (l : Label Handle T) (st' : State Handle T) :
  InvGuard inreg st -> protocol_ok inreg l -> step tnext st l = Some st' ->
  InvGuard inreg st'.
Proof.
  intros (Hd & Hh & Hpc & Hr & Hs & Hn) Hok H.
  destruct st as [p sg pc li ru sta k lg d]; simpl in *.
  unfold holders in Hh; simpl in Hh.
  step_cases H; unfold InvGuard, holders; simpl in *; guard_facts;
    repeat match goal with
    | Hx : tnext _ = Some _ |- _ => apply Hobeys in Hx; simpl in Hx
    | Hx : nth_error sta ?i = Some ?r |- _ =>
        pose proof (Forall_nth_error _ _ _ _ Hs Hx);
        pose proof (fun r' => count_in_set_nth sta i r r' Hx) as Hcount;
        clear Hx
    end;
    subst; simpl in *.
  all: try (exfalso; guard_arith).
  all: try (exfalso; specialize (Hcount ROff); simpl in Hcount; guard_arith).
  all: repeat split; auto using Forall_set_nth; try guard_arith.
  all: try (destruct pc; simpl in *; auto; discriminate).
  all: match goal with
       | |- context [set_nth _ ?r _] =>
           pose proof (Hcount ROff) as Hcount0; simpl in Hcount0;
           specialize (Hcount r); simpl in Hcount; guard_arith
       end.
Qed.

End Guard.

(** Consequences of the guard invariant. *)

Lemma InvGuard_reach (inreg : T -> bool) (sched : list (Label Handle T)) (st : State Handle T) :
  obeys tnext inreg ->
  Forall (protocol_ok inreg) sched ->
  exec tnext boot sched = Some st ->
  InvGuard inreg st.
Proof.
  intros Hob Hok H.
  apply (exec_invariant (protocol_ok inreg) (InvGuard inreg)
           (InvGuard_step inreg Hob) sched boot st);
    auto using InvGuard_boot.
Qed.

Lemma InvGuard_held (inreg : T -> bool) (st : State Handle T) :
  InvGuard inreg st ->
  coord_holds (coord st) = true ->
  guard (pal st) = true /\ nobody_inside inreg st.
Proof.
  intros (Hd & Hh & _) Hc. unfold holders in Hh. rewrite Hc in Hh.
  unfold nobody_inside.
  destruct (guard (pal st)); simpl in Hh; [|discriminate].
  destruct (in_region inreg (runner st)); simpl in Hh; [lia|].
  repeat split; auto. apply count_in_zero. lia.
Qed.

(** ** The log of an invocation *)

Lemma cview_cons (k k' : nat) (ev : Event Handle T)
      (lg : list (nat * Event Handle T)) :
  cview k ((k', ev) :: lg) =
  if (k' =? k) && by_coord ev then ev :: cview k lg else cview k lg.
Proof.
  unfold cview; simpl. destruct ((k' =? k) && by_coord ev); reflexivity.
Qed.

Lemma cview_note (k : nat) (ev : Event Handle T)
      (lg : list (nat * Event Handle T)) :
  by_coord ev = true -> cview k ((k, ev) :: lg) = ev :: cview k lg.
Proof. intros H. rewrite cview_cons, Nat.eqb_refl, H. reflexivity. Qed.

Lemma cview_other (k k' : nat) (ev : Event Handle T)
      (lg : list (nat * Event Handle T)) :
  k' <> k -> cview k ((k', ev) :: lg) = cview k lg.
Proof.
  intros H. rewrite cview_cons.
  destruct (k' =? k) eqn:E; [apply Nat.eqb_eq in E; contradiction|reflexivity].
Qed.

Lemma cview_run (k k' : nat) (c : Handle)
      (lg : list (nat * Event Handle T)) :
  cview k ((k', EvRun c) :: lg) = cview k lg.
Proof. rewrite cview_cons. simpl. rewrite andb_false_r. reflexivity. Qed.

Lemma In_cview (k : nat) (ev : Event Handle T)
      (lg : list (nat * Event Handle T)) :
  In ev (cview k lg) <-> In (k, ev) lg /\ by_coord ev = true.
Proof.
  unfold cview. rewrite in_map_iff. split.
  - intros ([k' ev'] & Heq & Hin). simpl in Heq; subst ev'.
    apply filter_In in Hin. destruct Hin as [Hin Hb]. simpl in Hb.
    apply andb_prop in Hb. destruct Hb as [Hk Hb].
    apply Nat.eqb_eq in Hk; subst. auto.
  - intros [Hin Hb]. exists (k, ev). split; auto.
    apply filter_In. split; auto. simpl. rewrite Nat.eqb_refl, Hb. reflexivity.
Qed.

Lemma launched_cons (x : nat * Event Handle T)
      (lg : list (nat * Event Handle T)) (r : RunnerPC Handle T) :
  launched lg r -> launched (x :: lg) r.
Proof.
  destruct r; simpl; auto.
  intros (Hgo & a & Ha & Hf). split; [auto|]. exists a. auto.
Qed.

Lemma launched_all_cons (x : nat * Event Handle T)
      (lg : list (nat * Event Handle T)) (l : list (RunnerPC Handle T)) :
  Forall (launched lg) l -> Forall (launched (x :: lg)) l.
Proof.
  intros H. eapply Forall_impl; [|exact H]. intros r. apply launched_cons.
Qed.

Lemma LogFrame_note (k : nat) (ev : Event Handle T)
      (lg : list (nat * Event Handle T)) :
  by_coord ev = true -> LogFrame k lg -> LogFrame k ((k, ev) :: lg).
Proof.
  intros Hb (H1 & H2 & H3). repeat split.
  - intros k0 Hk. rewrite cview_other by lia. auto.
  - intros k0 Hk. rewrite cview_other by lia. auto.
  - intros k0 c [Heq|Hin].
    + inversion Heq; subst. discriminate Hb.
    + right. auto.
Qed.

Lemma LogFrame_run (k k0 : nat) (c : Handle)
      (lg : list (nat * Event Handle T)) :
  In (k0, EvGo c) lg -> LogFrame k lg -> LogFrame k ((k0, EvRun c) :: lg).
Proof.
  intros Hgo (H1 & H2 & H3). repeat split.
  - intros k1 Hk. rewrite cview_run. auto.
  - intros k1 Hk. rewrite cview_run. auto.
  - intros k1 c1 [Heq|Hin].
    + inversion Heq; subst. right. auto.
    + right. auto.
Qed.

Lemma LogFrame_call (k : nat) (a : RunArgs Handle T)
      (lg : list (nat * Event Handle T)) :
  finished (cview k lg) -> LogFrame k lg ->
  LogFrame (S k) ((S k, EvCall a) :: lg).
Proof.
  intros Hf (H1 & H2 & H3). repeat split.
  - intros k0 Hk. rewrite cview_other by lia.
    destruct (Nat.eq_dec k0 k); [subst; auto | apply H1; lia].
  - intros k0 Hk. rewrite cview_other by lia. apply H2. lia.
  - intros k0 c [Heq|Hin].
    + inversion Heq.
    + right. auto.
Qed.

Lemma InvLog_boot : InvLog (@boot Handle T).
Proof.
  unfold InvLog, LogFrame; simpl. repeat split; auto; try lia.
  all: try (intros k0 Hk; lia).
  all: try (intros k0 c []).
Qed.

Lemma InvLog_step (st : State Handle T) (l : Label Handle T) (st' : State Handle T) :
  InvLog st -> any_label l -> step tnext st l = Some st' -> InvLog st'.
Proof.
  intros (Hsh & Hfr & Hru & Hsta & Hgo) _ H.
  destruct st as [p sg pc li ru sta k lg d]; simpl in *.
  step_cases H; unfold InvLog; simpl in *.
  all: rewrite ?cview_note by reflexivity.
  all: rewrite ?cview_run.
  all: repeat match goal with
       | Hs : Forall (launched _) ?l, Hx : nth_error ?l _ = Some _ |- _ =>
           pose proof (Forall_nth_error _ _ _ _ Hs Hx); clear Hx
       end; simpl in *.
  all: split; [|split; [|split; [|split]]].
  (* the runner of the invocation *)
  all: try (destruct Hgo as [Hgo|[c0 Hgo]];
            [ try discriminate Hgo; left; assumption
            | right; exists c0; simpl; auto 6 ]; fail).
  all: try (right; eexists; left; reflexivity).
  all: try (left; reflexivity).
  (* runners were launched *)
  all: auto using launched_cons, launched_all_cons, Forall_set_nth.
  all: try (constructor; auto using launched_cons, launched_all_cons; fail).
  all: try (apply Forall_set_nth; simpl;
            auto using launched_cons, launched_all_cons; fail).
  (* the frame *)
  all: try (apply LogFrame_note; [reflexivity|];
            try (apply LogFrame_note; [reflexivity|]); assumption).
  all: try (apply LogFrame_run; tauto).
  all: try (apply LogFrame_call; auto; unfold finished; eauto; fail).
  (* the shape *)
  all: try (destruct Hfr as (_ & Hlater & _); rewrite Hlater by lia;
            reflexivity).
  all: try match goal with
           | Hx : opened _ _ /\ _ |- _ => destruct Hx as [Hop Hx]
           end.
  all: try match goal with
           | Hx : cview _ _ = _ |- _ => rewrite Hx
           end.
  all: try (split; [assumption|]).
  all: try reflexivity.
  all: try (match goal with Hx : os _ = true |- _ => rewrite Hx end;
            reflexivity).
  all: try (match goal with Hx : os _ = false |- _ => rewrite Hx in * end;
            auto; fail).
  all: try match goal with
           | Hx : cview ?k ?lg = _
             |- _ /\ (exists a0, _ /\ run ?a = run a0) =>
               split; [left; reflexivity|];
               exists a; split; [right|reflexivity];
               destruct (proj1 (In_cview k (EvCall a) lg)) as [Hin _];
               [rewrite Hx; simpl; auto 10 | exact Hin]
           end.
  - (* the opener failed *)
    exists a. left. eauto.
  - (* the closer has been called *)
    exists a. right. exists c, e. auto.
Qed.

Lemma InvLog_reach (sched : list (Label Handle T)) (st : State Handle T) :
  exec tnext boot sched = Some st -> InvLog st.
Proof.
  intros H.
  apply (exec_invariant any_label InvLog InvLog_step sched boot st);
    auto using InvLog_boot, Forall_any_label.
Qed.

(** In every reachable state the log of every invocation, past, present
    or future, has the shape of some program point of [Run]. *)
Lemma shape_any (st : State Handle T) (k : nat) :
  InvLog st ->
  exists pc, shape pc (cview k (log st)) /\ (k = runid st -> pc = coord st).
Proof.
  intros (Hsh & (Hpast & Hlater & _) & _).
  destruct (Nat.lt_total k (runid st)) as [Hlt|[Heq|Hgt]].
  - destruct (Hpast k Hlt) as [Hnil|[r Hr]].
    + exists CIdle. split; [exact Hnil | lia].
    + exists (CReturned r). split; [exact Hr | lia].
  - subst k. exists (coord st). auto.
  - exists CIdle. split; [apply Hlater; exact Hgt | lia].
Qed.

(** [shape_cases H] goes through the logs that [H : shape pc l] allows. *)
Ltac shape_cases H :=
  match type of H with
  | shape ?pc _ =>
      destruct pc; simpl in H;
      try match type of H with
          | returned_shape _ _ =>
              let a := fresh "a" in
              destruct H as [a [(? & ? & ? & ? & H)|(? & ? & ? & ? & H)]]
          | _ /\ _ => let Hop := fresh "Hop" in destruct H as [Hop H]
          end;
      try rewrite H in *; unfold failed_trace, closed_trace in *; simpl in *
  end.

Ltac in_cases H :=
  simpl in H;
  repeat (destruct H as [H|H];
          [ try discriminate H; try (injection H as H; subst) | ]);
  try contradiction.

Ltac each_event H :=
  simpl in H;
  repeat (destruct H as [H|H]; [subst; exact I|]);
  contradiction.

Ltac os_cases :=
  repeat match goal with
  | H : context [if os ?e then _ else _] |- _ =>
      destruct (os e) eqn:?; simpl in H
  | |- context [if os ?e then _ else _] =>
      destruct (os e) eqn:?; simpl
  end.

Lemma shape_closes (pc : CoordPC Handle T) (l : list (Event Handle T)) :
  shape pc l -> List.length (filter is_close l) <= 1.
Proof. intros H. shape_cases H; os_cases; simpl; lia. Qed.

Lemma shape_receives (pc : CoordPC Handle T) (l : list (Event Handle T)) :
  shape pc l -> List.length (filter is_recv l) <= 1.
Proof. intros H. shape_cases H; os_cases; simpl; lia. Qed.

(** The log of an invocation that has returned. *)
Lemma shape_returned (pc : CoordPC Handle T) (l : list (Event Handle T))
      (a : RunArgs Handle T) (r : option error) :
  shape pc l -> In (EvCall a) l -> In (EvReturn r) l ->
  (exists c x, openr a tt = (c, Some x) /\
               r = Some (errors_New (could_not_open x)) /\
               l = failed_trace a c x) \/
  (exists c e, opened a c /\ r = closr a c /\ l = closed_trace a c e).
Proof.
  intros H Ha Hr.
  shape_cases H; os_cases; in_cases Hr; in_cases Ha.
  all: try (left; eauto; fail).
  all: right; do 2 eexists; repeat split; eauto;
    unfold closed_trace; simpl;
    match goal with Hx : os _ = _ |- _ => rewrite Hx end; reflexivity.
Qed.

Lemma In_log_cview (st : State Handle T) (k : nat) (ev : Event Handle T) :
  by_coord ev = true ->
  In (k, ev) (log st) -> In ev (cview k (log st)).
Proof. intros Hb Hin. apply In_cview. auto. Qed.

Lemma In_cview_log (st : State Handle T) (k : nat) (ev : Event Handle T) :
  In ev (cview k (log st)) -> In (k, ev) (log st).
Proof. intros Hin. apply In_cview in Hin. tauto. Qed.

(** A completed invocation, read off the log. *)
Lemma run_returned (st : State Handle T) (k : nat) (a : RunArgs Handle T)
      (r : option error) :
  InvLog st ->
  In (k, EvCall a) (log st) -> In (k, EvReturn r) (log st) ->
  (exists c x, openr a tt = (c, Some x) /\
               r = Some (errors_New (could_not_open x)) /\
               cview k (log st) = failed_trace a c x) \/
  (exists c e, opened a c /\ r = closr a c /\
               cview k (log st) = closed_trace a c e).
Proof.
  intros Hinv Ha Hr.
  destruct (shape_any st k Hinv) as (pc & Hsh & _).
  apply (shape_returned pc); auto using In_log_cview.
Qed.

(** From the receipt of the event on, [Run] needs only the guard: its
    caller enters, records the signal, calls the closer and returns. *)
Lemma Run_finishes (st : State Handle T) (a : RunArgs Handle T) (c : Handle)
      (e : event) :
  dead st = false -> coord st = CEnter a c e -> guard (pal st) = false ->
  exists st',
    exec tnext st [LCoord; LCoord; LCoord] = Some st' /\
    coord st' = CReturned (closr a c) /\
    Signal (pal st') = (if os e then s e else Signal (pal st)) /\
    guard (pal st') = true /\
    log st' = [(runid st, EvReturn (closr a c));
               (runid st, EvClose c (closr a c))] ++
              (if os e then [(runid st, EvSignal (s e))] else []) ++
              (runid st, EvEnter) :: log st.
Proof.
  intros Hd Hc Hg.
  destruct st as [p sg pc li ru sta k lg d]; simpl in *; subst.
  unfold step; simpl. unfold Run_step; simpl.
  rewrite (Enter_free p Hg); simpl.
  unfold step; simpl. unfold Run_step; simpl.
  destruct (os e); simpl; eexists; repeat split; reflexivity.
Qed.

(** ** [Run] comes to an end

    [Run] waits at two places: for the first event, and for the guard.
    While it waits for an event, one interruption is enough to end the
    wait; so is the end of the task.  With the guard free, [Run] then
    closes the resource and returns. *)

Lemma relay_Interrupt_nonempty (ch : SigChan) :
  subscribed ch = [os_Interrupt] ->
  queue (relay os_Interrupt ch) <> [] /\
  subscribed (relay os_Interrupt ch) = [os_Interrupt].
Proof.
  intros Hs. unfold relay. rewrite Hs. simpl.
  destruct (queue ch) as [|x q] eqn:Hq; simpl.
  - split; [discriminate|reflexivity].
  - split;
      match goal with
      | |- context [if ?b then _ else _] => destruct b
      end; simpl; try rewrite Hq; try discriminate; auto.
Qed.

Lemma interrupt_ends_wait (sched : list (Label Handle T)) (st : State Handle T)
      (a : RunArgs Handle T) (c : Handle) :
  exec tnext boot sched = Some st ->
  dead st = false ->
  coord st = CWait a c ->
  exists sched' st' e,
    exec tnext st sched' = Some st' /\
    (sched' = [LSyncListener] \/
     sched' = [LDeliver os_Interrupt; LListener; LSyncListener]) /\
    coord st' = CEnter a c e /\ os e = true /\ s e = Some os_Interrupt /\
    pal st' = pal st /\ dead st' = false /\ runid st' = runid st /\
    log st' = (runid st, EvRecv e) :: log st.
Proof.
  intros Hex Hd Hc.
  pose proof (InvListen_reach sched st Hex) as [Hli Hsend].
  pose proof (InvSig_reach sched st Hex) as (_ & Hch & Hev & _).
  destruct st as [p sg pc li ru sta k lg d]; simpl in *; subst.
  destruct li as [| |e|]; try contradiction.
  - (* the listener still waits for a signal *)
    destruct sg as [ch|]; [|contradiction].
    destruct Hch as [Hsub Hq].
    destruct (relay_Interrupt_nonempty ch Hsub) as [Hne Hsub'].
    assert (Hq' : Forall (eq os_Interrupt) (queue (relay os_Interrupt ch))).
    { apply (relay_ok os_Interrupt ch). split; assumption. }
    destruct (queue (relay os_Interrupt ch)) as [|x q] eqn:Hrq;
      [contradiction|].
    inversion Hq'; subst.
    exists [LDeliver os_Interrupt; LListener; LSyncListener].
    unfold exec, step; simpl. rewrite Hrq. simpl.
    do 2 eexists. repeat split; auto.
  - (* the listener already has one *)
    exists [LSyncListener]. unfold exec, step; simpl.
    do 2 eexists. repeat split; auto.
Qed.

Lemma Run_completes_on_interrupt (sched : list (Label Handle T)) (st : State Handle T)
      (a : RunArgs Handle T) (c : Handle) :
  exec tnext boot sched = Some st ->
  dead st = false ->
  coord st = CWait a c ->
  guard (pal st) = false ->
  exists sched' st',
    exec tnext st sched' = Some st' /\
    coord st' = CReturned (closr a c) /\
    Signal (pal st') = Some os_Interrupt /\
    guard (pal st') = true /\
    closes (runid st) st' = 1.
Proof.
  intros Hex Hd Hc Hg.
  destruct (interrupt_ends_wait sched st a c Hex Hd Hc)
    as (s1 & st1 & e & Hex1 & _ & Hc1 & Hos & Hse & Hp & Hd1 & Hk & Hlog1).
  rewrite <- Hp in Hg.
  destruct (Run_finishes st1 a c e Hd1 Hc1 Hg)
    as (st2 & Hex2 & Hc2 & Hs2 & Hg2 & Hlog2).
  exists (s1 ++ [LCoord; LCoord; LCoord]), st2.
  rewrite exec_app, Hex1. repeat split; auto.
  - rewrite Hs2, Hos. exact Hse.
  - pose proof (InvLog_reach sched st Hex) as (Hsh & _).
    rewrite Hc in Hsh. destruct Hsh as [_ Hsh].
    unfold closes. rewrite Hlog2, Hlog1, Hos, Hk. simpl.
    rewrite !cview_note by reflexivity. rewrite Hsh. reflexivity.
Qed.

Lemma Run_completes_on_task_end (sched : list (Label Handle T)) (st : State Handle T)
      (a : RunArgs Handle T) (c : Handle) (t : T) :
  exec tnext boot sched = Some st ->
  dead st = false ->
  coord st = CWait a c ->
  runner st = RSend t ->
  guard (pal st) = false ->
  exists st',
    exec tnext st [LSyncRunner; LCoord; LCoord; LCoord] = Some st' /\
    coord st' = CReturned (closr a c) /\
    Signal (pal st') = Signal (pal st) /\
    guard (pal st') = true /\
    closes (runid st) st' = 1.
Proof.
  intros Hex Hd Hc Hr Hg.
  pose proof (InvLog_reach sched st Hex) as (Hsh & _).
  rewrite Hc in Hsh. destruct Hsh as [_ Hsh].
  destruct st as [p sg pc li ru sta k lg d]; simpl in *; subst.
  unfold step; simpl. unfold step; simpl. unfold Run_step; simpl.
  rewrite (Enter_free p Hg); simpl.
  unfold step; simpl. unfold Run_step; simpl.
  eexists. repeat split; auto.
  unfold closes; simpl. rewrite !cview_note by reflexivity.
  rewrite Hsh. reflexivity.
Qed.

(** ** The claims *)

(** C1: for every invocation of [Run] in which the opener succeeds, the
    closer is invoked exactly once on the resource handle, whatever
    signals are delivered.  In every reachable state, under every
    schedule (which interleaves any number of signal deliveries): no
    invocation has called the closer more than once; an invocation whose
    opener succeeded and that has returned has called it exactly once, on
    the handle the opener returned; a call of the closer is on that
    handle; once the event has been received and the guard is free,
    the caller of [Run] goes on by itself to call the closer and
    return; and while it still waits for an event with the guard free,
    there is a continuation (one interruption is enough) on which it does
    so.  [Run] sets no time limit: it waits as long as no event comes, or
    as long as a task stays inside a protected region. *)
Theorem closer_exactly_once (sched : list (Label Handle T)) (st : State Handle T) :
  exec tnext boot sched = Some st ->
  (forall k, closes k st <= 1) /\
  (forall k a c r,
      In (k, EvCall a) (log st) -> opened a c ->
      In (k, EvReturn r) (log st) ->
      closes k st = 1 /\ In (k, EvClose c (closr a c)) (log st)) /\
  (forall k a c r,
      In (k, EvCall a) (log st) -> In (k, EvClose c r) (log st) ->
      opened a c /\ r = closr a c) /\
  (forall a c e,
      dead st = false -> coord st = CEnter a c e -> guard (pal st) = false ->
      exists st',
        exec tnext st [LCoord; LCoord; LCoord] = Some st' /\
        coord st' = CReturned (closr a c) /\
        closes (runid st) st' = 1) /\
  (forall a c,
      dead st = false -> coord st = CWait a c -> guard (pal st) = false ->
      exists sched' st',
        exec tnext st sched' = Some st' /\
        coord st' = CReturned (closr a c) /\
        closes (runid st) st' = 1).
Proof.
  intros Hex. pose proof (InvLog_reach sched st Hex) as Hinv.
  split; [|split; [|split; [|split]]].
  - intros k. destruct (shape_any st k Hinv) as (pc & Hsh & _).
    unfold closes. apply (shape_closes pc). exact Hsh.
  - intros k a c r Ha Hop Hr.
    destruct (run_returned st k a r Hinv Ha Hr)
      as [(c' & x & Hop' & _)|(c' & e & Hop' & _ & Hl)];
      unfold opened in *; rewrite Hop in Hop'; inversion Hop'; subst.
    split.
    + unfold closes. rewrite Hl. unfold closed_trace. simpl.
      destruct (os e); reflexivity.
    + apply In_cview_log. rewrite Hl. unfold closed_trace. simpl. auto.
  - intros k a c r Ha Hc.
    destruct (shape_any st k Hinv) as (pc & Hsh & _).
    apply In_log_cview in Ha; [|reflexivity].
    apply In_log_cview in Hc; [|reflexivity].
    shape_cases Hsh; os_cases; in_cases Hc; in_cases Ha; auto.
  - intros a c e Hd Hc Hg.
    destruct (Run_finishes st a c e Hd Hc Hg)
      as (st' & Hex' & Hc' & _ & _ & Hlog).
    exists st'. repeat split; auto.
    destruct Hinv as (Hsh & _). rewrite Hc in Hsh. destruct Hsh as [_ Hsh].
    unfold closes. rewrite Hlog.
    destruct (os e); simpl; rewrite !cview_note by reflexivity;
      rewrite Hsh; reflexivity.
  - intros a c Hd Hc Hg.
    destruct (Run_completes_on_interrupt sched st a c Hex Hd Hc Hg)
      as (sched' & st' & Hex' & Hc' & _ & _ & Hcl).
    exists sched', st'. auto.
Qed.

(** C6: [Run] returns the acquisition error when the opener fails, and
    otherwise exactly the closer's result; with opener and closer both
    successful it returns no error, whichever event decided the run.  The
    value with which the caller has returned is the one logged, and it is
    [Run_result] of the arguments of that invocation. *)
Theorem Run_returns_result (sched : list (Label Handle T)) (st : State Handle T) :
  exec tnext boot sched = Some st ->
  (forall r, coord st = CReturned r -> In (runid st, EvReturn r) (log st)) /\
  (forall k a r,
      In (k, EvCall a) (log st) -> In (k, EvReturn r) (log st) ->
      r = Run_result a /\
      (forall c x, openr a tt = (c, Some x) ->
                   r = Some (errors_New (could_not_open x))) /\
      (forall c, opened a c -> r = closr a c) /\
      (forall c, opened a c -> closr a c = None -> r = None)).
Proof.
  intros Hex. pose proof (InvLog_reach sched st Hex) as Hinv.
  split.
  - intros r Hc. destruct Hinv as (Hsh & _). rewrite Hc in Hsh.
    apply In_cview_log.
    destruct Hsh as [a [(c & x & _ & Hr & Hl)|(c & e & _ & Hr & Hl)]];
      rewrite Hl; unfold failed_trace, closed_trace; simpl; subst r; auto.
  - intros k a r Ha Hr.
    unfold Run_result, opened.
    destruct (run_returned st k a r Hinv Ha Hr)
      as [(c' & x' & Hop' & Hres & _)|(c' & e & Hop' & Hres & _)];
      unfold opened in *; rewrite Hop'; repeat split; auto;
      intros; congruence.
Qed.

Lemma call_unique (st : State Handle T) (k : nat) (a a' : RunArgs Handle T) :
  InvLog st ->
  In (k, EvCall a) (log st) -> In (k, EvCall a') (log st) -> a = a'.
Proof.
  intros Hinv Ha Ha'.
  destruct (shape_any st k Hinv) as (pc & Hsh & _).
  apply In_log_cview in Ha; [|reflexivity].
  apply In_log_cview in Ha'; [|reflexivity].
  shape_cases Hsh; os_cases; in_cases Ha; in_cases Ha'; reflexivity.
Qed.

(** C9: the runner and the closer are given exactly the handle that the
    opener returned.  For the invocation [k] called with arguments [a]:
    the launch of the runner goroutine ([EvGo]), the call [run(c)]
    ([EvRun]) and the call [closr(c)] ([EvClose]) all carry the handle
    of [openr a]; a runner goroutine of that invocation that has not yet
    called [run(c)] holds that handle and the runner of [a], and its next
    step starts the task [run a c].  The model is parametric in the type
    of handles, so nothing can look into one or make up another. *)
Theorem handle_passed_on (sched : list (Label Handle T)) (st : State Handle T)
        (k : nat) (a : RunArgs Handle T) (h : Handle) :
  exec tnext boot sched = Some st ->
  In (k, EvCall a) (log st) ->
  (In (k, EvGo h) (log st) -> opened a h) /\
  (In (k, EvRun h) (log st) -> opened a h) /\
  (forall r, In (k, EvClose h r) (log st) -> opened a h) /\
  (forall f,
      runner st = RStart k h f \/ In (RStart k h f) (stale st) ->
      opened a h /\ f = run a /\
      runner_step tnext (pal st) (RStart k h f) =
        Some (Next (pal st) (RRun (run a h)) [(k, EvRun h)])).
Proof.
  intros Hex Ha. pose proof (InvLog_reach sched st Hex) as Hinv.
  assert (Hgo : In (k, EvGo h) (log st) -> opened a h).
  { intros Hg.
    destruct (shape_any st k Hinv) as (pc & Hsh & _).
    apply In_log_cview in Ha; [|reflexivity].
    apply In_log_cview in Hg; [|reflexivity].
    shape_cases Hsh; os_cases; in_cases Hg; in_cases Ha; auto. }
  split; [exact Hgo|]. split; [|split].
  - intros Hr. apply Hgo.
    destruct Hinv as (_ & (_ & _ & Hrun) & _). apply Hrun. exact Hr.
  - intros r Hc.
    destruct (shape_any st k Hinv) as (pc & Hsh & _).
    apply In_log_cview in Ha; [|reflexivity].
    apply In_log_cview in Hc; [|reflexivity].
    shape_cases Hsh; os_cases; in_cases Hc; in_cases Ha; auto.
  - intros f Hf.
    assert (Hl : launched (log st) (RStart k h f)).
    { destruct Hinv as (_ & _ & Hru & Hsta & _).
      destruct Hf as [Hf|Hf]; [rewrite <- Hf; exact Hru|].
      rewrite Forall_forall in Hsta. apply Hsta. exact Hf. }
    destruct Hl as (Hg & a' & Ha' & Hfa).
    rewrite (call_unique st k a a' Hinv Ha Ha'). subst f.
    rewrite <- (call_unique st k a a' Hinv Ha Ha').
    repeat split; auto.
Qed.

(** C4: the guard is held by the caller of [Run] at all times except
    between [p.Leave()] after the opener has returned and the return of
    [p.Enter()] before the closer is called.  It is locked when [New]
    returns; with tasks that obey the usage contract, in every reachable
    state in which the caller of [Run] is not at one of the three program
    points of that window the guard is locked and no task is inside a
    protected region (so that the holder is the caller of [Run]); in
    particular after [Run] has returned, on either path; and the process
    never dies on an unlock of the unlocked guard. *)
Theorem guard_held_outside_window (inreg : T -> bool)
        (sched : list (Label Handle T)) (st : State Handle T) :
  obeys tnext inreg ->
  Forall (protocol_ok inreg) sched ->
  exec tnext boot sched = Some st ->
  guard New = true /\
  guard (pal (@boot Handle T)) = true /\
  dead st = false /\
  ((forall a c, coord st <> CGo a c) ->
   (forall a c, coord st <> CWait a c) ->
   (forall a c e, coord st <> CEnter a c e) ->
   guard (pal st) = true /\ nobody_inside inreg st) /\
  (forall r, coord st = CReturned r ->
             guard (pal st) = true /\ nobody_inside inreg st).
Proof.
  intros Hob Hok Hex.
  pose proof (InvGuard_reach inreg sched st Hob Hok Hex) as Hinv.
  split; [reflexivity|]. split; [reflexivity|].
  split; [apply Hinv|]. split.
  - intros H1 H2 H3. apply (InvGuard_held inreg st Hinv).
    destruct (coord st); try reflexivity.
    + exfalso. eapply H1; reflexivity.
    + exfalso. eapply H2; reflexivity.
    + exfalso. eapply H3; reflexivity.
  - intros r Hr. apply (InvGuard_held inreg st Hinv).
    rewrite Hr. reflexivity.
Qed.

(** C2: the closer is invoked only after the opener has returned
    successfully and after the caller of [Run] has re-acquired the guard
    following the winning event, so that no protected region is open when
    the closer runs.  For every invocation, a call of the closer is
    preceded in the log (which is newest first) by the entry into the
    guard, before that the receipt of the event, and before that the
    launch, the release of the guard and the successful opening; and with
    tasks that obey the usage contract, in every reachable state in which
    the closer is about to be called the guard is locked and no task is
    inside a protected region. *)
Theorem closer_after_reacquire (inreg : T -> bool)
        (sched : list (Label Handle T)) (st : State Handle T) :
  obeys tnext inreg ->
  Forall (protocol_ok inreg) sched ->
  exec tnext boot sched = Some st ->
  (forall k c r,
      In (k, EvClose c r) (log st) ->
      exists a e,
        opened a c /\
        cview k (log st) =
        [EvReturn r; EvClose c r] ++
        (if os e then [EvSignal (s e)] else []) ++
        [EvEnter; EvRecv e; EvGo c; EvLeave; EvOpen c None; EvNotify;
         EvCall a]) /\
  (forall a c e,
      coord st = CRecord a c e \/ coord st = CClose a c e ->
      opened a c /\
      In (runid st, EvEnter) (log st) /\
      guard (pal st) = true /\ nobody_inside inreg st).
Proof.
  intros Hob Hok Hex.
  pose proof (InvGuard_reach inreg sched st Hob Hok Hex) as Hg.
  pose proof (InvLog_reach sched st Hex) as Hl.
  split.
  - intros k c r Hc.
    destruct (shape_any st k Hl) as (pc & Hsh & _).
    apply In_log_cview in Hc; [|reflexivity].
    shape_cases Hsh; os_cases; in_cases Hc.
    all: match goal with
         | Ho : opened ?a ?c, He : os ?e = _ |- _ =>
             exists a, e; rewrite He; split; [exact Ho|reflexivity]
         end.
  - intros a c e Hpc.
    assert (Hh : coord_holds (coord st) = true)
      by (destruct Hpc as [-> | ->]; reflexivity).
    destruct (InvGuard_held inreg st Hg Hh) as [Hlocked Hnone].
    destruct Hl as (Hsh & _).
    assert (opened a c /\ In EvEnter (cview (runid st) (log st))) as [Ho Hin].
    { destruct Hpc as [Hpc|Hpc]; rewrite Hpc in Hsh; simpl in Hsh;
        destruct Hsh as [Ho Hsh]; rewrite Hsh; split; auto;
        os_cases; simpl; auto. }
    repeat split; auto; try apply Hnone.
    apply In_cview_log. exact Hin.
Qed.

(** When the opener fails, two statements of [Run] end the invocation. *)
Lemma Run_fails_fast (st : State Handle T) (a : RunArgs Handle T) (c : Handle)
      (x : error) :
  dead st = false ->
  openr a tt = (c, Some x) ->
  (coord st = CStart a ->
   exists st', exec tnext st [LCoord; LCoord] = Some st' /\
               coord st' = CReturned (Some (errors_New (could_not_open x))) /\
               pal st' = pal st /\ runner st' = runner st) /\
  (coord st = COpen a ->
   exists st', exec tnext st [LCoord] = Some st' /\
               coord st' = CReturned (Some (errors_New (could_not_open x))) /\
               pal st' = pal st /\ runner st' = runner st).
Proof.
  intros Hd Hop.
  destruct st as [p sg pc li ru sta k lg d]; simpl in *; subst.
  split; intros ->; unfold step; simpl; unfold Run_step; simpl.
  - unfold step; simpl; unfold Run_step; simpl. rewrite Hop.
    eexists; repeat split; reflexivity.
  - rewrite Hop. eexists; repeat split; reflexivity.
Qed.

(** C3: when the opener returns an error, [Run] fails at once with the
    error "Could not open: " followed by the message of the opener's
    error; the runner is never started, the closer is never invoked and
    the guard stays with the caller of [Run]; and there is no other way
    for [Run] to return without having called the closer.  In every
    reachable state, for the current invocation, called with [a] whose
    opener fails with [x]: the caller of [Run] is at one of the first two
    program points or has returned that error, and it gets there by
    itself in at most two steps; nothing of that invocation was launched,
    run or closed; the guard is locked and no task is inside a region.
    And an invocation of any [a'] that has returned with the opener
    successful has called the closer. *)
Theorem opener_failure (inreg : T -> bool)
        (sched : list (Label Handle T)) (st : State Handle T)
        (a : RunArgs Handle T) (c : Handle) (x : error) :
  obeys tnext inreg ->
  Forall (protocol_ok inreg) sched ->
  exec tnext boot sched = Some st ->
  In (runid st, EvCall a) (log st) ->
  openr a tt = (c, Some x) ->
  (exists n st',
      n <= 2 /\
      exec tnext st (repeat LCoord n) = Some st' /\
      coord st' = CReturned (Some (errors_New (could_not_open x))) /\
      runner st' = ROff /\ guard (pal st') = true) /\
  (forall r, coord st = CReturned r ->
             r = Some (errors_New (could_not_open x))) /\
  (forall c', ~ In (runid st, EvLeave) (log st) /\
              ~ In (runid st, EvGo c') (log st) /\
              ~ In (runid st, EvRun c') (log st)) /\
  (forall c' r, ~ In (runid st, EvClose c' r) (log st)) /\
  runner st = ROff /\
  guard (pal st) = true /\ nobody_inside inreg st /\
  (forall k a' c' r,
      In (k, EvCall a') (log st) -> opened a' c' ->
      In (k, EvReturn r) (log st) -> In (k, EvClose c' r) (log st)).
Proof.
  intros Hob Hok Hex Ha Hop.
  pose proof (InvGuard_reach inreg sched st Hob Hok Hex) as Hg.
  pose proof (InvLog_reach sched st Hex) as Hl.
  pose proof Hl as (Hsh & (_ & _ & Hrun) & _ & _ & Hru).
  apply In_log_cview in Ha; [|reflexivity].
  assert (Hpc : (coord st = CStart a \/ coord st = COpen a \/
                 coord st = CReturned (Some (errors_New (could_not_open x))))
                /\ cview (runid st) (log st) <> []
                /\ (forall ev, In ev (cview (runid st) (log st)) ->
                      match ev with
                      | EvLeave | EvGo _ | EvClose _ _ => False
                      | _ => True
                      end)).
  { destruct (coord st) eqn:Hc; simpl in Hsh;
      try match type of Hsh with
          | opened _ _ /\ _ => destruct Hsh as [Ho Hsh]; unfold opened in Ho
          end;
      try (rewrite Hsh in Ha; os_cases; in_cases Ha; try congruence).
    - rewrite Hsh. repeat split; auto; try discriminate.
      intros ev Hev. each_event Hev.
    - rewrite Hsh. repeat split; auto; try discriminate.
      intros ev Hev. each_event Hev.
    - destruct Hsh as [a0 [(c0 & x0 & Ho & Hr & Hsh)|(c0 & e0 & Ho & Hr & Hsh)]];
        rewrite Hsh in *; unfold failed_trace, closed_trace in *;
        simpl in Ha; os_cases; in_cases Ha; unfold opened in *;
        try congruence.
      rewrite Hop in Ho. inversion Ho; subst.
      repeat split; auto; try discriminate.
      intros ev Hev. each_event Hev. }
  destruct Hpc as (Hpc & Hne & Hnone).
  assert (Hh : coord_holds (coord st) = true)
    by (destruct Hpc as [-> | [-> | ->]]; reflexivity).
  destruct (InvGuard_held inreg st Hg Hh) as [Hlocked Hnobody].
  assert (Hoff : runner st = ROff).
  { destruct Hru as [Hoff|[c0 Hgo]]; [exact Hoff|].
    exfalso. exact (Hnone _ Hgo). }
  assert (Hd : dead st = false) by apply Hg.
  destruct (Run_fails_fast st a c x Hd Hop) as [Hfast1 Hfast2].
  split; [|split; [|split; [|split; [|split; [|split; [|split]]]]]]; auto.
  - destruct Hpc as [Hpc | [Hpc | Hpc]].
    + destruct (Hfast1 Hpc) as (st' & He & Hc' & Hp & Hr).
      exists 2, st'. simpl. rewrite Hp, Hr. auto.
    + destruct (Hfast2 Hpc) as (st' & He & Hc' & Hp & Hr).
      exists 1, st'. simpl. rewrite Hp, Hr. auto.
    + exists 0, st. simpl. auto.
  - intros r Hr. destruct Hpc as [Hpc | [Hpc | Hpc]]; congruence.
  - intros c'. repeat split; intros Hin.
    + apply In_log_cview in Hin; [|reflexivity]. exact (Hnone _ Hin).
    + apply In_log_cview in Hin; [|reflexivity]. exact (Hnone _ Hin).
    + apply Hrun in Hin.
      apply In_log_cview in Hin; [|reflexivity]. exact (Hnone _ Hin).
  - intros c' r Hin.
    apply In_log_cview in Hin; [|reflexivity]. exact (Hnone _ Hin).
  - intros k a' c' r Ha' Ho' Hr'.
    destruct (run_returned st k a' r Hl Ha' Hr')
      as [(c1 & x1 & Ho1 & _)|(c1 & e1 & Ho1 & Hres & Hcv)];
      unfold opened in *; rewrite Ho' in Ho1; inversion Ho1; subst.
    apply In_cview_log. rewrite Hcv. unfold closed_trace. simpl. auto.
Qed.

(** C8, amended: an invocation of [Run] consults at most one event; it
    has consulted exactly one when it returns after a successful opener,
    and none when the opener failed; the two rendezvous on [done] are
    enabled only while the caller of [Run] stands at its one receive,
    where no event of this invocation has been received yet, and a step
    of the rendezvous leaves that program point: the event that comes
    second is never received. *)
Theorem one_event_decides (sched : list (Label Handle T)) (st : State Handle T) :
  exec tnext boot sched = Some st ->
  (forall k, receives k st <= 1) /\
  (forall k a c r,
      In (k, EvCall a) (log st) -> opened a c ->
      In (k, EvReturn r) (log st) -> receives k st = 1) /\
  (forall k a c x,
      In (k, EvCall a) (log st) -> openr a tt = (c, Some x) ->
      receives k st = 0) /\
  (forall a c, coord st = CWait a c -> receives (runid st) st = 0) /\
  (forall l st',
      l = LSyncListener \/ l = LSyncRunner ->
      step tnext st l = Some st' ->
      exists a c e,
        coord st = CWait a c /\ coord st' = CEnter a c e /\
        log st' = (runid st, EvRecv e) :: log st /\
        receives (runid st') st' = 1 /\
        step tnext st' LSyncListener = None /\
        step tnext st' LSyncRunner = None).
Proof.
  intros Hex. pose proof (InvLog_reach sched st Hex) as Hinv.
  split; [|split; [|split; [|split]]].
  - intros k. destruct (shape_any st k Hinv) as (pc & Hsh & _).
    unfold receives. apply (shape_receives pc). exact Hsh.
  - intros k a c r Ha Hop Hr.
    destruct (run_returned st k a r Hinv Ha Hr)
      as [(c' & x & Hop' & _)|(c' & e & Hop' & _ & Hl)];
      unfold opened in *; rewrite Hop in Hop'; inversion Hop'; subst.
    unfold receives. rewrite Hl. unfold closed_trace. simpl.
    destruct (os e); reflexivity.
  - intros k a c x Ha Hop.
    destruct (shape_any st k Hinv) as (pc & Hsh & _).
    apply In_log_cview in Ha; [|reflexivity].
    unfold receives.
    shape_cases Hsh; os_cases; in_cases Ha;
      unfold opened in *; try congruence; reflexivity.
  - intros a c Hc. destruct Hinv as (Hsh & _). rewrite Hc in Hsh.
    destruct Hsh as [_ Hsh]. unfold receives. rewrite Hsh. reflexivity.
  - intros l st' Hl Hst.
    destruct Hinv as (Hsh & _).
    destruct st as [p sg pc li ru sta k lg d]; simpl in *.
    destruct Hl; subst l; step_cases Hst; simpl in *;
      destruct Hsh as [_ Hsh];
      do 3 eexists; repeat split; try reflexivity;
      unfold receives; simpl; rewrite cview_note by reflexivity;
      rewrite Hsh; reflexivity.
Qed.

(** C10: on a Paladin created by [New], after any number of invocations
    of [Run] and whatever signals the operating system delivers, the
    [Signal] field is nil or [os.Interrupt]: the channel of the listener
    is subscribed to [os.Interrupt] only and holds nothing else. *)
Theorem Signal_nil_or_Interrupt (sched : list (Label Handle T)) (st : State Handle T) :
  exec tnext boot sched = Some st ->
  (Signal (pal st) = None \/ Signal (pal st) = Some os_Interrupt) /\
  (forall ch, sig st = Some ch ->
              subscribed ch = [os_Interrupt] /\
              Forall (eq os_Interrupt) (queue ch)).
Proof.
  intros Hex. destruct (InvSig_reach sched st Hex) as (HS & HC & _).
  split; [exact HS|].
  intros ch Hch. rewrite Hch in HC. exact HC.
Qed.

(** C7: when an interruption has won and the closer fails, [Run] still
    returns, with the closer's error, and the interruption stays
    recorded.  In every reachable state of a live process in which the
    closer is about to be called after an interruption [e], the [Signal]
    field already holds the signal of [e], which is [os.Interrupt]; the
    next statement of [Run] is enabled, returns whatever the closer
    returns, and leaves the [Signal] field as it is. *)
Theorem closer_failure_keeps_signal (sched : list (Label Handle T)) (st : State Handle T)
        (a : RunArgs Handle T) (c : Handle) (e : event) :
  exec tnext boot sched = Some st ->
  dead st = false ->
  coord st = CClose a c e ->
  os e = true ->
  Signal (pal st) = s e /\
  s e = Some os_Interrupt /\
  In (runid st, EvSignal (s e)) (log st) /\
  (forall c' r, ~ In (runid st, EvClose c' r) (log st)) /\
  exists st',
    step tnext st LCoord = Some st' /\
    coord st' = CReturned (closr a c) /\
    pal st' = pal st /\
    log st' = (runid st, EvReturn (closr a c))
              :: (runid st, EvClose c (closr a c)) :: log st.
Proof.
  intros Hex Hd Hc Hos.
  pose proof (InvRec_reach sched st Hex) as Hrec.
  pose proof (InvSig_reach sched st Hex) as (_ & _ & _ & Hev & _).
  pose proof (InvLog_reach sched st Hex) as (Hsh & _).
  unfold InvRec in Hrec. rewrite Hc in Hrec, Hev, Hsh.
  destruct Hsh as [_ Hsh]. simpl in Hsh. rewrite Hos in Hsh. simpl in Hsh.
  split; [auto|]. split; [auto|]. split; [|split].
  - apply In_cview_log. rewrite Hsh. simpl. auto.
  - intros c' r Hin. apply In_log_cview in Hin; [|reflexivity].
    rewrite Hsh in Hin. in_cases Hin.
  - destruct st as [p sg pc li ru sta k lg d]; simpl in *; subst.
    unfold step; simpl. eexists; repeat split; reflexivity.
Qed.

(** ** The signal field across one invocation *)

Lemma kept_step (k : nat) (sg0 : option os_Signal)
      (st : State Handle T) (l : Label Handle T) (st' : State Handle T) :
  InvLog st /\ kept k sg0 st -> not_a_call l ->
  step tnext st l = Some st' ->
  InvLog st' /\ kept k sg0 st'.
Proof.
  intros [Hinv (Hk & Hidle & Hsig)] Hl H.
  split; [apply (InvLog_step st l st' Hinv I H)|].
  destruct Hinv as (Hsh & _).
  destruct st as [p sg pc li ru sta k0 lg d]; simpl in *.
  unfold decided in Hsig; simpl in Hsig.
  step_cases H; try contradiction; unfold kept, decided; simpl in *;
    rewrite ?cview_note by reflexivity; rewrite ?cview_run;
    guard_facts;
    repeat match goal with
    | Hx : Signal _ = Signal _ |- _ => rewrite Hx
    end;
    try (repeat split; auto; try discriminate; fail).
  all: try (destruct pc; repeat split; auto; fail).
  all: try match goal with
           | Hx : opened _ _ /\ _ |- _ => destruct Hx as [_ Hx]
           end;
       try match goal with
           | Hx : cview _ _ = _ |- _ => rewrite Hx
           end;
       simpl; repeat split; auto; try discriminate.
  all: try match goal with Hx : os _ = _ |- _ => rewrite Hx end;
       simpl; auto.
  destruct (os e) eqn:Hos; simpl; rewrite Hos; exact Hsig.
Qed.

Lemma winner_recv (pc : CoordPC Handle T) (l : list (Event Handle T))
      (e : event) :
  shape pc l -> In (EvRecv e) l -> winner l = Some e.
Proof.
  intros H Hin. shape_cases H; os_cases; in_cases Hin; reflexivity.
Qed.

(** C5: if the winning event of an invocation is an interruption, its
    signal is stored in the [Signal] field; if it is the end of the
    task, [Run] does not write the field, which stays nil on a fresh
    Paladin or keeps what an earlier invocation recorded.  For an
    invocation called in a reachable state [st0] and followed by any
    schedule without a further call: the [Signal] field is that of [st0]
    until the event is acted upon, and from there on (in particular when
    [Run] has returned) it is the signal of the event if it is an
    interruption, which is [os.Interrupt], and that of [st0] otherwise;
    the event acted upon is the one received in this invocation. *)
Theorem Signal_after_Run (sched0 : list (Label Handle T)) (st0 : State Handle T)
        (a : RunArgs Handle T) (sched : list (Label Handle T)) (st : State Handle T) :
  exec tnext boot sched0 = Some st0 ->
  exec tnext st0 (LCall a :: sched) = Some st ->
  Forall not_a_call sched ->
  Signal (pal (@boot Handle T)) = None /\
  Signal (pal st) = outcome_signal (Signal (pal st0)) (decided st) /\
  (decided st = None -> Signal (pal st) = Signal (pal st0)) /\
  (forall e, decided st = Some e -> os e = false ->
             Signal (pal st) = Signal (pal st0)) /\
  (forall e, decided st = Some e -> os e = true ->
             Signal (pal st) = s e /\ s e = Some os_Interrupt) /\
  (forall r e, coord st = CReturned r ->
               In (runid st, EvRecv e) (log st) -> decided st = Some e).
Proof.
  intros Hex0 Hex Hnc.
  pose proof (InvLog_reach sched0 st0 Hex0) as Hinv0.
  simpl in Hex.
  destruct (step tnext st0 (LCall a)) as [st1|] eqn:Hcall; [|discriminate].
  assert (Hreach : exec tnext boot (sched0 ++ LCall a :: sched) = Some st).
  { rewrite exec_app, Hex0. simpl. rewrite Hcall. exact Hex. }
  pose proof (InvSig_reach _ st Hreach) as (_ & _ & _ & Hev & Hlogged).
  assert (H1 : InvLog st1 /\ kept (S (runid st0)) (Signal (pal st0)) st1).
  { split; [apply (InvLog_step st0 (LCall a) st1 Hinv0 I Hcall)|].
    destruct st0 as [p sg pc li ru sta k0 lg d]; simpl in *.
    step_cases Hcall; unfold kept, decided; simpl;
      repeat split; auto; discriminate. }
  pose proof (exec_invariant not_a_call
                (fun x => InvLog x /\ kept (S (runid st0)) (Signal (pal st0)) x)
                (kept_step (S (runid st0)) (Signal (pal st0)))
                sched st1 st H1 Hnc Hex) as [Hinv (Hk & Hidle & Hsig)].
  split; [reflexivity|]. split; [exact Hsig|].
  split; [|split; [|split]].
  - intros Hd. rewrite Hsig, Hd. reflexivity.
  - intros e Hd Hos. rewrite Hsig, Hd. simpl. rewrite Hos. reflexivity.
  - intros e Hd Hos. rewrite Hsig, Hd. simpl. rewrite Hos.
    split; [reflexivity|].
    unfold decided in Hd. destruct Hinv as (Hsh & _).
    destruct (coord st) eqn:Hc; try discriminate.
    + inversion Hd; subst. apply Hev. exact Hos.
    + destruct Hsh as [a0 [(c0 & x0 & _ & _ & Hl)|(c0 & e0 & _ & _ & Hl)]];
        rewrite Hl in Hd; unfold failed_trace, closed_trace in Hd;
        simpl in Hd; [discriminate|].
      apply (Hlogged (runid st) e); [|exact Hos].
      apply In_cview_log. rewrite Hl. unfold closed_trace. simpl.
      destruct (os e0); simpl in Hd; inversion Hd; subst; simpl; auto 10.
  - intros r e Hc Hin. unfold decided. rewrite Hc.
    destruct Hinv as (Hsh & _).
    apply (winner_recv (coord st)); [exact Hsh|].
    apply In_log_cview; [reflexivity|exact Hin].
Qed.

(** * More of the package *)

(** ** The guard as a critical section *)

Lemma count_in_member (inreg : T -> bool) (l : list (RunnerPC Handle T)) :
  forall i r,
    nth_error l i = Some r -> in_region inreg r = true ->
    1 <= count_in inreg l.
Proof.
  induction l as [|y l IH]; intros [|i] r Hn Hr; simpl in *;
    try discriminate.
  - inversion Hn; subst. rewrite Hr. simpl. lia.
  - specialize (IH i r Hn Hr). lia.
Qed.

Lemma count_in_two (inreg : T -> bool) (l : list (RunnerPC Handle T)) :
  forall i j ri rj,
    i <> j ->
    nth_error l i = Some ri -> nth_error l j = Some rj ->
    in_region inreg ri = true -> in_region inreg rj = true ->
    2 <= count_in inreg l.
Proof.
  induction l as [|y l IH]; intros [|i] [|j] ri rj Hij Hi Hj Hri Hrj;
    simpl in *; try discriminate; try congruence.
  - inversion Hi; subst. rewrite Hri. simpl.
    pose proof (count_in_member inreg l j rj Hj Hrj). lia.
  - inversion Hj; subst. rewrite Hrj. simpl.
    pose proof (count_in_member inreg l i ri Hi Hri). lia.
  - assert (i <> j) by congruence.
    specialize (IH i j ri rj H Hi Hj Hri Hrj). lia.
Qed.

(** X1: [Enter]/[Leave] make protected regions exclusive: with tasks that
    obey the contract, at any moment at most one of the caller of [Run]
    and the tasks (the runner of this invocation and those still alive
    from earlier ones) holds the guard; a task inside a region excludes
    every other task from being inside one, and the guard is then
    locked. *)
Theorem regions_exclusive (inreg : T -> bool)
        (sched : list (Label Handle T)) (st : State Handle T) :
  obeys tnext inreg ->
  Forall (protocol_ok inreg) sched ->
  exec tnext boot sched = Some st ->
  holders inreg st <= 1 /\
  (in_region inreg (runner st) = true ->
   guard (pal st) = true /\ coord_holds (coord st) = false /\
   Forall (fun r => in_region inreg r = false) (stale st)) /\
  (forall i r,
      nth_error (stale st) i = Some r -> in_region inreg r = true ->
      guard (pal st) = true /\ coord_holds (coord st) = false /\
      in_region inreg (runner st) = false /\
      forall j r', j <> i -> nth_error (stale st) j = Some r' ->
                   in_region inreg r' = false).
Proof.
  intros Hob Hok Hex.
  destruct (InvGuard_reach inreg sched st Hob Hok Hex) as (_ & Hh & _).
  unfold holders in *.
  assert (Hle : Nat.b2n (guard (pal st)) <= 1)
    by (destruct (guard (pal st)); simpl; lia).
  split; [lia|]. split.
  - intros Hr. rewrite Hr in Hh. simpl in Hh.
    destruct (guard (pal st)); simpl in *; [|lia].
    destruct (coord_holds (coord st)); simpl in *; [lia|].
    repeat split; auto. apply count_in_zero. lia.
  - intros i r Hn Hr.
    pose proof (count_in_member inreg (stale st) i r Hn Hr) as H1.
    destruct (guard (pal st)); simpl in *; [|lia].
    destruct (coord_holds (coord st)); simpl in *; [lia|].
    destruct (in_region inreg (runner st)); simpl in *; [lia|].
    repeat split; auto.
    intros j r' Hji Hn'.
    destruct (in_region inreg r') eqn:Hr'; [|reflexivity].
    pose proof (count_in_two inreg (stale st) j i r' r Hji Hn' Hn Hr' Hr).
    lia.
Qed.

(** X2: [Enter] and [Leave] undo each other, and neither can be done twice:
    after [Enter] a second [Enter] waits, and [Leave] gives the Paladin
    back; after [Leave] a second [Leave] is the fatal unlock of an
    unlocked mutex, and [Enter] gives the Paladin back.  Neither touches
    the [Signal] field. *)
Theorem Enter_Leave_compose (p : Paladin) :
  (forall p', Enter p = Some p' ->
              Leave p' = Some p /\ Enter p' = None /\
              Signal p' = Signal p) /\
  (forall p', Leave p = Some p' ->
              Enter p' = Some p /\ Leave p' = None /\
              Signal p' = Signal p) /\
  (Enter p = None <-> guard p = true) /\
  (Leave p = None <-> guard p = false).
Proof.
  destruct p as [sg g]. unfold Enter, Leave, Mutex.Lock, Mutex.Unlock.
  destruct g; simpl; repeat split; intros; try discriminate;
    try congruence;
    match goal with
    | H : Some _ = Some _ |- _ => inversion H; subst; reflexivity
    end.
Qed.

(** ** A recorded signal stays *)

Lemma Signal_kept_step (x : os_Signal)
      (st : State Handle T) (l : Label Handle T) (st' : State Handle T) :
  InvSig st /\ Signal (pal st) = Some x -> any_label l ->
  step tnext st l = Some st' ->
  InvSig st' /\ Signal (pal st') = Some x.
Proof.
  intros [Hinv Hx] Hl H.
  split; [apply (InvSig_step st l st' Hinv Hl H)|].
  destruct Hinv as (HS & _ & _ & HP & _).
  destruct st as [p sg pc li ru sta k lg d]; simpl in *.
  step_cases H; simpl in *; guard_facts; try congruence.
  rewrite HP by assumption.
  destruct HS as [HS|HS]; congruence.
Qed.

(** X3: Once a signal has been recorded in the [Signal] field, no later
    step, of this or of any further invocation of [Run], clears or
    changes it: [Run] writes the field only with a received signal. *)
Theorem Signal_never_cleared (sched0 : list (Label Handle T))
        (st0 : State Handle T) (sched : list (Label Handle T))
        (st : State Handle T) (x : os_Signal) :
  exec tnext boot sched0 = Some st0 ->
  Signal (pal st0) = Some x ->
  exec tnext st0 sched = Some st ->
  Signal (pal st) = Some x.
Proof.
  intros Hex0 Hx Hex.
  pose proof (InvSig_reach sched0 st0 Hex0) as Hinv.
  apply (exec_invariant any_label
           (fun s0 => InvSig s0 /\ Signal (pal s0) = Some x)
           (Signal_kept_step x) sched st0 st);
    auto using Forall_any_label.
Qed.

(** ** The channel of signals *)

Lemma relay_bound (sg : os_Signal) (ch : SigChan) :
  List.length (queue ch) <= sig_capacity ->
  List.length (queue (relay sg ch)) <= sig_capacity.
Proof.
  intros H. unfold relay.
  destruct (existsb (Z.eqb sg) (subscribed ch)); simpl; auto.
  destruct (List.length (queue ch) <? sig_capacity) eqn:E; simpl; auto.
  apply Nat.ltb_lt in E. rewrite length_app. simpl. lia.
Qed.

Lemma InvBound_step (st : State Handle T) (l : Label Handle T)
      (st' : State Handle T) :
  InvBound st -> any_label l -> step tnext st l = Some st' -> InvBound st'.
Proof.
  intros HB _ H.
  destruct st as [p sg pc li ru sta k lg d]; unfold InvBound in *;
    simpl in *.
  step_cases H; simpl in *; auto using Nat.le_0_l.
  - apply Nat.lt_le_incl. exact HB.
  - apply relay_bound. exact HB.
Qed.

Lemma with_sig_same (st : State Handle T) :
  with_sig Handle T st (sig st) = st.
Proof. destruct st; reflexivity. Qed.


(** ** One signal per invocation *)

Lemma budget_step (st : State Handle T) (l : Label Handle T)
      (st' : State Handle T) :
  (is_start (coord st) = true -> listener st = LOff) ->
  not_a_call l ->
  step tnext st l = Some st' ->
  (is_start (coord st') = true -> listener st' = LOff) /\
  takes [l] + budget st' <= budget st.
Proof.
  intros HQ Hl H.
  destruct st as [p sg pc li ru sta k lg d]; unfold budget in *;
    simpl in *.
  step_cases H; try contradiction; simpl in *;
    try (split; [intros; discriminate|]);
    try (split; [exact HQ|]);
    try rewrite (HQ eq_refl);
    try (destruct li; destruct (is_start pc); simpl; lia);
    try (simpl; lia).
  all: destruct (is_start pc) eqn:E;
    [specialize (HQ eq_refl); discriminate|simpl; lia].
Qed.

Lemma takes_budget (sched : list (Label Handle T)) :
  forall st st',
    (is_start (coord st) = true -> listener st = LOff) ->
    Forall not_a_call sched ->
    exec tnext st sched = Some st' ->
    takes sched + budget st' <= budget st.
Proof.
  induction sched as [|l sched IH]; intros st st' HQ Hnc Hex;
    simpl in Hex.
  - inversion Hex; subst. simpl. lia.
  - inversion Hnc as [|? ? Hl Hrest]; subst.
    destruct (step tnext st l) as [st1|] eqn:Hst; [|discriminate].
    destruct (budget_step st l st1 HQ Hl Hst) as [HQ1 Hb].
    specialize (IH st1 st' HQ1 Hrest Hex).
    assert (Ht : takes (l :: sched) = takes [l] + takes sched)
      by (destruct l; reflexivity).
    rewrite Ht. lia.
Qed.

(** X5: In one invocation of [Run] the listener takes at most one signal
    from the channel: a schedule that runs from the call to any later
    point of the same invocation contains at most one receive of the
    listener, however many interrupts are delivered. *)
Theorem one_signal_taken (st0 : State Handle T) (a : RunArgs Handle T)
        (sched : list (Label Handle T)) (st : State Handle T) :
  exec tnext st0 (LCall a :: sched) = Some st ->
  Forall not_a_call sched ->
  takes sched <= 1.
Proof.
  intros Hex Hnc. simpl in Hex.
  destruct (step tnext st0 (LCall a)) as [st1|] eqn:Hcall; [|discriminate].
  assert (H1 : listener st1 = LOff /\ budget st1 = 1).
  { destruct st0 as [p sg pc li ru sta k lg d]; simpl in *.
    step_cases Hcall; split; reflexivity. }
  destruct H1 as [Hoff Hb].
  pose proof (takes_budget sched st1 st (fun _ => Hoff) Hnc Hex). lia.
Qed.

(** ** [Run] on a Paladin that does not hold its guard *)

Lemma never_left_step (a : RunArgs Handle T) (c : Handle)
      (st : State Handle T) (l : Label Handle T) (st' : State Handle T) :
  opened a c ->
  never_left a c st -> any_label l -> step tnext st l = Some st' ->
  never_left a c st'.
Proof.
  intros Hop (Hg & Hr & Hs & Hk & Hlog & Hpc & Hd) _ H.
  unfold opened in Hop.
  destruct st as [p sg pc li ru sta k lg d]; unfold never_left;
    simpl in *; subst.
  step_cases H; simpl in *; guard_facts; try congruence.
  all: try match goal with
           | Hn : nth_error [ROff] ?i = Some _ |- _ =>
               destruct i as [|[|?]]; simpl in Hn; discriminate Hn
           end.
  all: destruct Hpc as [Hpc|[Hpc|Hpc]]; try discriminate Hpc;
    try (injection Hpc as ?; subst).
  all: repeat match goal with
              | Hx : openr _ _ = _ |- _ =>
                  rewrite Hop in Hx; inversion Hx; subst; clear Hx
              end.
  all: repeat split; auto; try discriminate.
  all: try match goal with
           | Hx : _ = ?x \/ In ?x _ |- _ =>
               destruct Hx as [Hx|Hx]; [subst x; reflexivity|]
           end.
  all: match goal with
       | Hx : In ?x _ |- _ => destruct (Hlog x Hx); assumption
       end.
Qed.

Lemma call_step (st : State Handle T) (a : RunArgs Handle T) :
  dead st = false ->
  coord st = CIdle \/ (exists r, coord st = CReturned r) ->
  exists st1,
    step tnext st (LCall a) = Some st1 /\
    coord st1 = CStart a /\ pal st1 = pal st /\ dead st1 = false /\
    runid st1 = S (runid st) /\ runner st1 = ROff /\
    stale st1 = runner st :: stale st /\
    log st1 = (S (runid st), EvCall a) :: log st.
Proof.
  intros Hd Hc.
  destruct st as [p sg pc li ru sta k lg d]; simpl in *; subst.
  destruct Hc as [->|[r ->]]; unfold step; simpl;
    eexists; repeat split; reflexivity.
Qed.

Lemma open_steps (st : State Handle T) (a : RunArgs Handle T) (c : Handle) :
  dead st = false -> coord st = CStart a -> opened a c ->
  exists st3,
    exec tnext st [LCoord; LCoord] = Some st3 /\
    coord st3 = CLeave a c /\ pal st3 = pal st /\ dead st3 = false /\
    runid st3 = runid st /\ runner st3 = runner st /\
    stale st3 = stale st /\
    log st3 = (runid st, EvOpen c None) :: (runid st, EvNotify) :: log st.
Proof.
  intros Hd Hc Hop. unfold opened in Hop.
  destruct st as [p sg pc li ru sta k lg d]; simpl in *; subst.
  unfold step; simpl. unfold Run_step; simpl.
  unfold step; simpl. unfold Run_step; simpl. rewrite Hop.
  eexists; repeat split; reflexivity.
Qed.

Lemma Leave_fatal (st : State Handle T) (a : RunArgs Handle T) (c : Handle) :
  dead st = false -> coord st = CLeave a c -> guard (pal st) = false ->
  exists st',
    step tnext st LCoord = Some st' /\ dead st' = true /\
    log st' = log st /\ coord st' = coord st /\ pal st' = pal st.
Proof.
  intros Hd Hc Hg.
  destruct st as [p sg pc li ru sta k lg d]; simpl in *; subst.
  unfold step; simpl. unfold Run_step; simpl.
  unfold Leave, Mutex.Unlock. rewrite Hg.
  eexists; repeat split; reflexivity.
Qed.

Lemma dead_stuck (st : State Handle T) (l : Label Handle T) :
  dead st = true -> step tnext st l = None.
Proof. intros Hd. unfold step. rewrite Hd. reflexivity. Qed.

(** X6: [Run] needs a Paladin that holds its guard, as [New] makes it.  On
    a Paladin whose guard is not locked, with an opener that succeeds,
    [Run] opens the resource and then dies at [p.Leave()] on the unlock
    of an unlocked mutex: under every schedule the runner is never
    launched, the closer is never called and [Run] never returns; and
    after the fatal error nothing moves any more. *)
Theorem Run_without_New (p : Paladin) (a : RunArgs Handle T) (c : Handle) :
  guard p = false ->
  opened a c ->
  (exists st,
      exec tnext (start p) [LCall a; LCoord; LCoord; LCoord] = Some st /\
      dead st = true /\
      log st = [(1, EvOpen c None); (1, EvNotify); (1, EvCall a)] /\
      forall l, step tnext st l = None) /\
  (forall sched st,
      exec tnext (start p) (LCall a :: sched) = Some st ->
      (forall r, coord st <> CReturned r) /\
      (forall c' r, ~ In (1, EvClose c' r) (log st)) /\
      (forall c', ~ In (1, EvGo c') (log st)) /\
      runner st = ROff /\ guard (pal st) = false /\ runid st = 1).
Proof.
  intros Hg Hop.
  destruct (call_step (start p) a eq_refl (or_introl eq_refl))
    as (st1 & Hs1 & Hc1 & Hp1 & Hd1 & Hk1 & Hr1 & Hsta1 & Hl1).
  split.
  - destruct (open_steps st1 a c Hd1 Hc1 Hop)
      as (st3 & Hs3 & Hc3 & Hp3 & Hd3 & Hk3 & _ & _ & Hl3).
    assert (Hg3 : guard (pal st3) = false) by (rewrite Hp3, Hp1; exact Hg).
    destruct (Leave_fatal st3 a c Hd3 Hc3 Hg3)
      as (st4 & Hs4 & Hd4 & Hl4 & _).
    exists st4.
    change [LCall a; LCoord; LCoord; LCoord]
      with ([LCall a] ++ [LCoord; LCoord] ++ [LCoord]).
    assert (He1 : exec tnext (start p) [LCall a] = Some st1)
      by (unfold exec; rewrite Hs1; reflexivity).
    assert (He4 : exec tnext st3 [LCoord] = Some st4)
      by (unfold exec; rewrite Hs4; reflexivity).
    rewrite exec_app, He1. rewrite exec_app, Hs3. rewrite He4.
    split; [reflexivity|]. split; [exact Hd4|].
    split; [rewrite Hl4, Hl3, Hl1, Hk1; reflexivity|].
    intros l. apply dead_stuck. exact Hd4.
  - intros sched st Hex.
    assert (H1 : never_left a c st1).
    { unfold never_left.
      rewrite Hp1, Hr1, Hsta1, Hk1, Hl1, Hc1, Hd1.
      split; [exact Hg|]. split; [reflexivity|]. split; [reflexivity|].
      split; [reflexivity|]. split; [|split; [auto|discriminate]].
      intros x [Hx|[]]. subst x. split; reflexivity. }
    change (LCall a :: sched) with ([LCall a] ++ sched) in Hex.
    rewrite exec_app in Hex.
    assert (He1 : exec tnext (start p) [LCall a] = Some st1)
      by (unfold exec; rewrite Hs1; reflexivity).
    rewrite He1 in Hex.
    pose proof (fun s0 l0 s1 => never_left_step a c s0 l0 s1 Hop) as Hstep.
    pose proof (exec_invariant any_label (never_left a c) Hstep) as Hinv.
    pose proof (Hinv sched st1 st H1 (Forall_any_label sched) Hex)
      as (Hg' & Hr & _ & Hk & Hlog & Hpc & _).
    clear Hstep Hinv.
    split; [|split; [|split; [|split; [exact Hr|split; [exact Hg'|exact Hk]]]]].
    + intros r Hc. destruct Hpc as [Hpc|[Hpc|Hpc]];
        rewrite Hpc in Hc; discriminate Hc.
    + intros c' r Hin. destruct (Hlog _ Hin) as [Hcl _]. discriminate Hcl.
    + intros c' Hin. destruct (Hlog _ Hin) as [_ Hgo]. discriminate Hgo.
Qed.

(** ** What a received event tells *)

Lemma InvDone_step (st : State Handle T) (l : Label Handle T)
      (st' : State Handle T) :
  InvLog st /\ InvListen st /\ InvDone tnext st -> any_label l ->
  step tnext st l = Some st' ->
  InvLog st' /\ InvListen st' /\ InvDone tnext st'.
Proof.
  intros (Hlog & Hlis & Hover & Hsta & Hrec) Hl H.
  split; [apply (InvLog_step st l st' Hlog Hl H)|].
  split; [apply (InvListen_step st l st' Hlis Hl H)|].
  destruct Hlog as (Hsh & _). destruct Hlis as (_ & Hsend).
  destruct st as [p sg pc li ru sta k lg d]; unfold InvDone, received in *;
    simpl in *.
  step_cases H; simpl in *;
    rewrite ?cview_note by reflexivity; rewrite ?cview_run; simpl.
  all: repeat match goal with
       | Hs : Forall (run_over _) ?l, Hx : nth_error ?l _ = Some _ |- _ =>
           pose proof (Forall_nth_error _ _ _ _ Hs Hx); clear Hx
       end; simpl in *.
  all: try match goal with
           | Hx : opened _ _ /\ _ |- _ => destruct Hx as [_ Hx]
           end.
  all: try match goal with
           | Hx : cview _ _ = _ |- _ => rewrite Hx in *
           end; simpl.
  all: split; [|split]; auto using Forall_set_nth.
  all: try (constructor; assumption).
  all: try (apply Forall_set_nth; simpl; auto; fail).
  all: try match goal with
           | |- context [os ?e] => destruct (os e) eqn:?; simpl in *
           end;
       try discriminate; eauto.
  all: try (match goal with Hx : os _ = true |- _ => rewrite Hx end;
            assumption).
  all: repeat match goal with
       | |- context [match ?x with _ => _ end] =>
           lazymatch x with
           | context [match _ with _ => _ end] => fail
           | _ => let E := fresh "E" in
                  destruct x eqn:E; rewrite ?E in *; simpl in *; auto
           end
       end.
  all: try discriminate.
  all: match goal with
       | Hx : exists _, _ = RDone _ |- _ =>
           destruct Hx as [t0 Hx]; discriminate Hx
       end.
Qed.

Lemma InvDone_reach (sched : list (Label Handle T)) (st : State Handle T) :
  exec tnext boot sched = Some st -> InvDone tnext st.
Proof.
  intros H.
  apply (exec_invariant any_label
           (fun s0 => InvLog s0 /\ InvListen s0 /\ InvDone tnext s0)
           InvDone_step sched boot st);
    auto using Forall_any_label.
  split; [apply InvLog_boot|]. split; [split; exact I|].
  unfold InvDone; simpl. auto.
Qed.

(** X7: An event is sent on [done] only by the goroutine it tells of, after
    that goroutine has done its work.  When the event that the caller of
    [Run] has received says that the task is finished, the runner
    goroutine of this invocation is past [run(c)] and the task has no
    operation left; when it is an interruption, the listener has handed
    it over and it carries [os.Interrupt].  This holds from the receipt
    on, also after [Run] has returned, until [Run] is called again. *)
Theorem event_tells_the_truth (sched : list (Label Handle T))
        (st : State Handle T) (e : event) :
  exec tnext boot sched = Some st ->
  received st = Some e ->
  (os e = false ->
   exists t, runner st = RDone t /\ tnext t = None) /\
  (os e = true -> listener st = LDone /\ s e = Some os_Interrupt) /\
  In (runid st, EvRecv e) (log st).
Proof.
  intros Hex Hrec.
  destruct (InvDone_reach sched st Hex) as (Hover & _ & Hd).
  pose proof (InvLog_reach sched st Hex) as (Hsh & _).
  pose proof (InvSig_reach sched st Hex) as (_ & _ & _ & _ & Hlogged).
  rewrite Hrec in Hd.
  assert (Hin : In (runid st, EvRecv e) (log st)).
  { apply In_cview_log. unfold received in Hrec.
    destruct (coord st) eqn:Hc; try discriminate; simpl in Hsh.
    - destruct Hsh as [_ Hsh]. inversion Hrec; subst. rewrite Hsh.
      simpl; auto.
    - destruct Hsh as [_ Hsh]. inversion Hrec; subst. rewrite Hsh.
      simpl; auto.
    - destruct Hsh as [_ Hsh]. inversion Hrec; subst. rewrite Hsh.
      destruct (os e); simpl; auto.
    - destruct Hsh as [a [(c & x & _ & _ & Hl)|(c & e0 & _ & _ & Hl)]];
        rewrite Hl in *; unfold failed_trace, closed_trace in *;
        simpl in Hrec; [discriminate|].
      destruct (os e0) eqn:Hos0; simpl in *; inversion Hrec; subst;
        rewrite ?Hos0; simpl; auto 10. }
  split; [|split; [|exact Hin]].
  - intros Hos. rewrite Hos in Hd. destruct Hd as [t Hr].
    exists t. rewrite Hr in Hover. simpl in Hover.
    split; auto.
  - intros Hos. rewrite Hos in Hd. split; [exact Hd|].
    apply (Hlogged (runid st) e Hin Hos).
Qed.


(** ** A task that returns inside a protected region *)

Lemma ended_inside_in_region (inreg : T -> bool) (r : RunnerPC Handle T) :
  ended_inside tnext inreg r -> in_region inreg r = true.
Proof. destruct r; simpl; tauto. Qed.

Lemma ended_inside_step (inreg : T -> bool) (a : RunArgs Handle T)
      (c : Handle)
      (st : State Handle T) (l : Label Handle T) (st' : State Handle T) :
  obeys tnext inreg ->
  (InvGuard inreg st /\ InvLog st /\
   ended_inside tnext inreg (runner st) /\
   (coord st = CWait a c \/ exists e, coord st = CEnter a c e)) ->
  protocol_ok inreg l ->
  step tnext st l = Some st' ->
  InvGuard inreg st' /\ InvLog st' /\
  ended_inside tnext inreg (runner st') /\
  (coord st' = CWait a c \/ exists e, coord st' = CEnter a c e).
Proof.
  intros Hob (Hg & Hlog & Hend & Hpc) Hl H.
  split; [apply (InvGuard_step inreg Hob st l st' Hg Hl H)|].
  split; [apply (InvLog_step st l st' Hlog I H)|].
  pose proof (ended_inside_in_region inreg _ Hend) as Hin.
  destruct Hg as (_ & Hh & _). unfold holders in Hh. rewrite Hin in Hh.
  assert (Hlocked : guard (pal st) = true)
    by (destruct (guard (pal st)); [reflexivity|simpl in Hh; lia]).
  clear Hh Hin Hlog.
  destruct st as [p sg pc li ru sta k lg d]; simpl in *.
  destruct Hpc as [Hpc|[e Hpc]]; subst pc;
    step_cases H; simpl in *; guard_facts;
      try congruence; try (destruct Hend; congruence);
      try (split; [assumption|]; eauto; fail);
      try (split; [tauto|]; eauto; fail).
Qed.

(** X8: A task must leave its protected region before it returns: if the
    task of the current invocation has ended inside a region, the guard
    stays locked for ever, so that under every schedule [Run] never gets
    past [p.Enter()]: it does not call the closer and does not
    return. *)
Theorem Run_blocked_by_ended_task (inreg : T -> bool)
        (sched0 : list (Label Handle T)) (st0 : State Handle T)
        (sched : list (Label Handle T)) (st : State Handle T) :
  obeys tnext inreg ->
  Forall (protocol_ok inreg) sched0 ->
  exec tnext boot sched0 = Some st0 ->
  ended_inside tnext inreg (runner st0) ->
  Forall (protocol_ok inreg) sched ->
  exec tnext st0 sched = Some st ->
  (forall r, coord st <> CReturned r) /\
  closes (runid st) st = 0 /\
  guard (pal st) = true /\
  ended_inside tnext inreg (runner st) /\
  exists a c, opened a c /\
              (coord st = CWait a c \/ exists e, coord st = CEnter a c e).
Proof.
  intros Hob Hok0 Hex0 Hend Hok Hex.
  pose proof (InvGuard_reach inreg sched0 st0 Hob Hok0 Hex0) as Hg0.
  pose proof (InvLog_reach sched0 st0 Hex0) as Hl0.
  pose proof (ended_inside_in_region inreg _ Hend) as Hin.
  assert (Hpc0 : exists a c,
             coord st0 = CWait a c \/ exists e, coord st0 = CEnter a c e).
  { destruct Hg0 as (_ & Hh & _ & _ & _ & Hny). unfold holders in Hh.
    rewrite Hin in Hh.
    destruct (coord st0) eqn:Hc; simpl in *;
      try (destruct (guard (pal st0)); simpl in Hh; lia).
    - rewrite Hny in Hend. contradiction.
    - eauto.
    - eauto. }
  destruct Hpc0 as (a & c & Hpc0).
  pose proof (fun s0 l0 s1 => ended_inside_step inreg a c s0 l0 s1 Hob)
    as Hstep.
  pose proof (exec_invariant (protocol_ok inreg) _ Hstep sched st0 st
                (conj Hg0 (conj Hl0 (conj Hend Hpc0))) Hok Hex)
    as (Hg & Hl & Hend' & Hpc).
  clear Hstep.
  pose proof (ended_inside_in_region inreg _ Hend') as Hin'.
  destruct Hg as (_ & Hh & _). unfold holders in Hh. rewrite Hin' in Hh.
  destruct Hl as (Hsh & _).
  split; [|split; [|split; [|split; [exact Hend'|]]]].
  - intros r Hc. destruct Hpc as [Hpc|[e Hpc]]; rewrite Hpc in Hc;
      discriminate Hc.
  - unfold closes.
    destruct Hpc as [Hpc|[e Hpc]]; rewrite Hpc in Hsh;
      destruct Hsh as [_ Hsh]; rewrite Hsh; reflexivity.
  - destruct (guard (pal st)); [reflexivity|simpl in Hh; lia].
  - exists a, c. split; [|exact Hpc].
    destruct Hpc as [Hpc|[e Hpc]]; rewrite Hpc in Hsh; apply Hsh.
Qed.

(** ** The opener and the runner are called once *)

Lemma count_ev_cons (f : Event Handle T -> bool) (k k' : nat)
      (ev : Event Handle T) (lg : list (nat * Event Handle T)) :
  count_ev f k ((k', ev) :: lg) =
  (if (k' =? k) && f ev then 1 else 0) + count_ev f k lg.
Proof.
  unfold count_ev; simpl. destruct ((k' =? k) && f ev); reflexivity.
Qed.

Lemma count_ev_cview (f : Event Handle T -> bool) (k : nat)
      (lg : list (nat * Event Handle T)) :
  (forall ev, f ev = true -> by_coord ev = true) ->
  count_ev f k lg = List.length (filter f (cview k lg)).
Proof.
  intros Hf. induction lg as [|[k' ev] lg IH].
  - reflexivity.
  - rewrite count_ev_cons, cview_cons, IH.
    destruct (k' =? k); simpl.
    + destruct (f ev) eqn:E.
      * rewrite (Hf ev E). simpl. rewrite E. reflexivity.
      * destruct (by_coord ev); simpl; rewrite ?E; reflexivity.
    + reflexivity.
Qed.

Lemma waiting_in_set_nth (k : nat) (l : list (RunnerPC Handle T)) :
  forall i r r',
    nth_error l i = Some r ->
    waiting_in k (set_nth i r' l) + waiting k r =
    waiting_in k l + waiting k r'.
Proof.
  induction l as [|y l IH]; intros [|i] r r' Hn; simpl in *;
    try discriminate.
  - inversion Hn; subst. lia.
  - specialize (IH i r r' Hn). lia.
Qed.

Lemma InvOnce_step (st : State Handle T) (l : Label Handle T)
      (st' : State Handle T) :
  InvLog st /\ InvOnce st -> any_label l -> step tnext st l = Some st' ->
  InvLog st' /\ InvOnce st'.
Proof.
  intros (Hlog & Honce) Hl H.
  split; [apply (InvLog_step st l st' Hlog Hl H)|].
  destruct Hlog as (Hsh & _ & _ & _ & Hgo).
  intros k0. specialize (Honce k0).
  destruct st as [p sg pc li ru sta k lg d];
    unfold runs, gos, pending in *; simpl in *.
  step_cases H; simpl in *; rewrite ?count_ev_cons; simpl;
    rewrite ?andb_false_r; simpl; try lia.
  - (* the runner is launched *)
    destruct Hgo as [Hoff|[c0 Hin]].
    + subst ru. simpl in *. destruct (k =? k0); simpl; lia.
    + destruct Hsh as [_ Hsh]. rewrite Hsh in Hin. exfalso.
      simpl in Hin.
      repeat (destruct Hin as [Hin|Hin]; [discriminate Hin|]).
      exact Hin.
  - (* the runner calls run(c) *)
    rewrite andb_true_r. destruct (k1 =? k0); simpl in *; lia.
  - (* a runner of an earlier invocation calls run(c) *)
    match goal with
    | Hn : nth_error _ _ = Some _ |- _ =>
        pose proof (waiting_in_set_nth k0 _ _ _ (RRun (f c)) Hn) as Hw
    end.
    simpl in Hw. rewrite andb_true_r.
    destruct (k1 =? k0); simpl in *; lia.
  - match goal with
    | Hn : nth_error _ _ = Some _ |- _ =>
        pose proof (waiting_in_set_nth k0 _ _ _ (RRun t1) Hn) as Hw
    end.
    simpl in Hw. lia.
  - match goal with
    | Hn : nth_error _ _ = Some _ |- _ =>
        pose proof (waiting_in_set_nth k0 _ _ _ (RRun t1) Hn) as Hw
    end.
    simpl in Hw. lia.
  - match goal with
    | Hn : nth_error _ _ = Some _ |- _ =>
        pose proof (waiting_in_set_nth k0 _ _ _ (RRun t1) Hn) as Hw
    end.
    simpl in Hw. lia.
  - match goal with
    | Hn : nth_error _ _ = Some _ |- _ =>
        pose proof (waiting_in_set_nth k0 _ _ _ (RSend t) Hn) as Hw
    end.
    simpl in Hw. lia.
Qed.

Lemma shape_opens (pc : CoordPC Handle T) (l : list (Event Handle T)) :
  shape pc l -> List.length (filter is_open l) <= 1.
Proof. intros H. shape_cases H; os_cases; simpl; lia. Qed.

Lemma shape_gos (pc : CoordPC Handle T) (l : list (Event Handle T)) :
  shape pc l -> List.length (filter is_go l) <= 1.
Proof. intros H. shape_cases H; os_cases; simpl; lia. Qed.

(** X9: In every invocation of [Run] the opener is called at most once and
    exactly once by the time [Run] returns; the runner goroutine is
    launched at most once, and exactly once when the opener succeeded;
    and [run(c)] is called at most once: every call of the runner
    belongs to a launch, and a launch whose goroutine has not started
    yet is still waiting to make its one call. *)
Theorem called_once (sched : list (Label Handle T)) (st : State Handle T) :
  exec tnext boot sched = Some st ->
  (forall k,
      opens k st <= 1 /\ gos k st <= 1 /\ runs k st <= 1 /\
      runs k st + pending k st = gos k st) /\
  (forall k a r,
      In (k, EvCall a) (log st) -> In (k, EvReturn r) (log st) ->
      opens k st = 1) /\
  (forall k a c r,
      In (k, EvCall a) (log st) -> opened a c ->
      In (k, EvReturn r) (log st) ->
      gos k st = 1).
Proof.
  intros Hex.
  pose proof (InvLog_reach sched st Hex) as Hinv.
  assert (Honce : InvOnce st).
  { apply (exec_invariant any_label
             (fun s0 => InvLog s0 /\ InvOnce s0)
             InvOnce_step sched boot st);
      auto using Forall_any_label.
    split; [apply InvLog_boot|]. intros k. reflexivity. }
  assert (Hopen : forall ev : Event Handle T,
             is_open ev = true -> by_coord ev = true)
    by (intros []; simpl; auto).
  assert (Hgo : forall ev : Event Handle T,
             is_go ev = true -> by_coord ev = true)
    by (intros []; simpl; auto).
  split; [|split].
  - intros k. destruct (shape_any st k Hinv) as (pc & Hsh & _).
    pose proof (shape_opens pc _ Hsh) as H1.
    pose proof (shape_gos pc _ Hsh) as H2.
    specialize (Honce k).
    unfold opens, gos in *.
    rewrite (count_ev_cview is_open k (log st) Hopen).
    rewrite (count_ev_cview is_go k (log st) Hgo) in *.
    lia.
  - intros k a r Ha Hr. unfold opens.
    rewrite (count_ev_cview is_open k (log st) Hopen).
    destruct (run_returned st k a r Hinv Ha Hr)
      as [(c & x & _ & _ & Hl)|(c & e & _ & _ & Hl)];
      rewrite Hl; unfold failed_trace, closed_trace; simpl;
      [reflexivity|destruct (os e); reflexivity].
  - intros k a c r Ha Hop Hr. unfold gos.
    rewrite (count_ev_cview is_go k (log st) Hgo).
    destruct (run_returned st k a r Hinv Ha Hr)
      as [(c' & x & Hop' & _)|(c' & e & _ & _ & Hl)].
    + unfold opened in Hop. congruence.
    + rewrite Hl; unfold closed_trace; simpl.
      destruct (os e); reflexivity.
Qed.

(** ** The state of a task is its own *)

Section TaskInvariant.

Variable G : Handle -> Prop.
Variable W : T -> Prop.
Hypothesis W_next :
  forall t op t', W t -> tnext t = Some (op, t') -> W t'.

Lemma InvTask_step (st : State Handle T) (l : Label Handle T)
      (st' : State Handle T) :
  InvTask G W st -> call_has G W l -> step tnext st l = Some st' ->
  InvTask G W st'.
Proof.
  intros (Hpc & Hr & Hs) Hl H.
  destruct st as [p sg pc li ru sta k lg d]; unfold InvTask in *;
    simpl in *.
  step_cases H; simpl in *.
  all: repeat match goal with
       | Hf : Forall (runner_has _ _) ?l, Hx : nth_error ?l _ = Some _ |- _ =>
           pose proof (Forall_nth_error _ _ _ _ Hf Hx); clear Hx
       end; simpl in *.
  all: repeat match goal with
       | Hx : tnext _ = Some _ |- _ => apply W_next in Hx; [|tauto]
       end.
  all: split; [|split]; auto using Forall_set_nth; try tauto.
  all: try (constructor; assumption).
  all: try (apply Forall_set_nth; simpl; tauto).
  all: try (destruct pc; simpl in *; auto; fail).
Qed.

Lemma InvTask_reach (sched : list (Label Handle T)) (st : State Handle T) :
  Forall (call_has G W) sched ->
  exec tnext boot sched = Some st ->
  InvTask G W st.
Proof.
  intros Hc H.
  apply (exec_invariant (call_has G W) (InvTask G W) InvTask_step
           sched boot st);
    auto.
  unfold InvTask; simpl. auto.
Qed.

End TaskInvariant.

(** ** The log grows *)

Lemma log_grows_step (st : State Handle T) (l : Label Handle T)
      (st' : State Handle T) (x : nat * Event Handle T) :
  In x (log st) -> any_label l -> step tnext st l = Some st' ->
  In x (log st').
Proof.
  intros Hin _ H.
  destruct st as [p sg pc li ru sta k lg d]; simpl in *.
  step_cases H; simpl; auto.
Qed.

Lemma log_grows (sched : list (Label Handle T)) (st st' : State Handle T)
      (x : nat * Event Handle T) :
  In x (log st) -> exec tnext st sched = Some st' -> In x (log st').
Proof.
  intros Hin Hex.
  apply (exec_invariant any_label (fun s0 => In x (log s0))
           (fun s0 l0 s1 => log_grows_step s0 l0 s1 x) sched st st');
    auto using Forall_any_label.
Qed.

Lemma not_a_call_protocol_ok (inreg : T -> bool)
      (sched : list (Label Handle T)) :
  Forall not_a_call sched -> Forall (protocol_ok inreg) sched.
Proof.
  intros H. eapply Forall_impl; [|exact H].
  intros []; simpl; tauto.
Qed.

Lemma not_a_call_call_has (G : Handle -> Prop) (W : T -> Prop)
      (sched : list (Label Handle T)) :
  Forall not_a_call sched -> Forall (call_has G W) sched.
Proof.
  intros H. eapply Forall_impl; [|exact H].
  intros []; simpl; tauto.
Qed.

(** One invocation from the start: what is known when [Run a] has been
    called on a fresh Paladin and no second call has followed. *)
Lemma first_invocation (a : RunArgs Handle T)
      (sched : list (Label Handle T)) (st : State Handle T) :
  exec tnext boot (LCall a :: sched) = Some st ->
  Forall not_a_call sched ->
  runid st = 1 /\ In (1, EvCall a) (log st) /\
  Signal (pal st) = outcome_signal None (decided st).
Proof.
  intros Hex Hnc.
  destruct (call_step boot a eq_refl (or_introl eq_refl))
    as (st1 & Hs1 & Hc1 & Hp1 & _ & Hk1 & _ & _ & Hl1).
  assert (He1 : exec tnext boot [LCall a] = Some st1)
    by (unfold exec; rewrite Hs1; reflexivity).
  change (LCall a :: sched) with ([LCall a] ++ sched) in Hex.
  rewrite exec_app, He1 in Hex.
  assert (Hin1 : In (1, EvCall a) (log st1))
    by (rewrite Hl1; left; reflexivity).
  assert (Hkept : InvLog st1 /\ kept 1 None st1).
  { split; [apply (InvLog_reach [LCall a] st1 He1)|].
    unfold kept, decided. rewrite Hk1, Hc1, Hp1.
    repeat split; auto; discriminate. }
  pose proof (exec_invariant not_a_call
                (fun x => InvLog x /\ kept 1 None x)
                (kept_step 1 None) sched st1 st Hkept Hnc Hex)
    as [_ (Hk & _ & Hsig)].
  split; [exact Hk|]. split; [|exact Hsig].
  apply (log_grows sched st1 st _ Hin1 Hex).
Qed.

(** ** Runs that no interrupt reaches *)

Lemma relay_other (sg : os_Signal) (ch : SigChan) :
  sg <> os_Interrupt -> subscribed ch = [os_Interrupt] -> relay sg ch = ch.
Proof.
  intros Hsg Hs. unfold relay. rewrite Hs. simpl.
  destruct (Z.eqb sg os_Interrupt) eqn:E; [|reflexivity].
  apply Z.eqb_eq in E. contradiction.
Qed.

Lemma InvQuiet_boot : InvQuiet (@boot Handle T).
Proof.
  unfold InvQuiet; simpl.
  split; [reflexivity|]. split; [exact I|]. split; [left; reflexivity|].
  split; [exact I|]. intros k ev [].
Qed.

Lemma InvQuiet_step (st : State Handle T) (l : Label Handle T)
      (st' : State Handle T) :
  InvQuiet st -> no_interrupt l -> step tnext st l = Some st' -> InvQuiet st'.
Proof.
  intros (Hs & Hq & Hl & Hc & Hlog) Hok H.
  destruct st as [p sg pc li ru sta k lg d]; unfold InvQuiet in *;
    simpl in *.
  step_cases H; simpl in *; guard_facts;
    repeat match goal with
    | Hx : _ \/ _ |- _ => destruct Hx; try discriminate
    | Hx : _ /\ _ |- _ => destruct Hx
    end;
    subst; simpl in *;
    try match goal with
        | Hx : _ :: _ = [] |- _ => discriminate Hx
        end;
    try match goal with
        | Hx : os task_event = true |- _ => discriminate Hx
        end;
    try rewrite relay_other by assumption;
    repeat split; auto; try congruence;
    try (intros ? ? Hin; simpl in Hin;
         repeat (destruct Hin as [Hin|Hin];
                 [injection Hin as ? ?; subst; simpl; auto|]);
         exact (Hlog _ _ Hin)).
Qed.

Lemma InvQuiet_reach (sched : list (Label Handle T)) (st : State Handle T) :
  Forall no_interrupt sched -> exec tnext boot sched = Some st -> InvQuiet st.
Proof.
  intros Hok Hex.
  exact (exec_invariant no_interrupt InvQuiet InvQuiet_step sched boot st
           InvQuiet_boot Hok Hex).
Qed.

(** X10: Without the delivery of an interrupt nothing is ever recorded:
    whatever other signals the process is sent and however often [Run]
    is called, the [Signal] field stays nil, the listener goroutine of
    [Run] does not get past its receive, and every event [Run] receives
    is the one of its runner goroutine, sent after the task has ended. *)
Theorem undisturbed_run (sched : list (Label Handle T))
        (st : State Handle T) :
  exec tnext boot sched = Some st ->
  Forall no_interrupt sched ->
  Signal (pal st) = None /\
  (listener st = LOff \/ listener st = LRecv) /\
  (forall k e, In (k, EvRecv e) (log st) -> e = task_event) /\
  (forall k sg, ~ In (k, EvSignal sg) (log st)) /\
  (forall e, received st = Some e ->
             e = task_event /\
             exists t, runner st = RDone t /\ tnext t = None).
Proof.
  intros Hex Hok.
  destruct (InvQuiet_reach sched st Hok Hex) as (Hs & _ & Hl & Hc & Hlog).
  split; [exact Hs|]. split; [exact Hl|].
  split; [intros k e Hin; exact (Hlog k _ Hin)|].
  split; [intros k sg Hin; exact (Hlog k _ Hin)|].
  intros e Hrec.
  pose proof (InvDone_reach sched st Hex) as (Hover & _ & Hdone).
  pose proof (InvLog_reach sched st Hex) as (Hsh & _).
  assert (He : e = task_event).
  { unfold received in Hrec.
    destruct (coord st) eqn:Hpc; try discriminate;
      try (injection Hrec as Hrec; subst; reflexivity).
    apply (Hlog (runid st) (EvRecv e)).
    apply In_cview_log.
    revert Hrec. clear - Hsh.
    destruct Hsh as [a1 [(c1 & y & _ & _ & Hl)|(c1 & e1 & _ & _ & Hl)]];
      rewrite Hl; unfold failed_trace, closed_trace; simpl.
    - discriminate.
    - destruct (os e1); simpl; intros H; injection H as H; subst; auto 10. }
  split; [exact He|].
  rewrite Hrec in Hdone. subst e. simpl in Hdone.
  destruct Hdone as [t Hr]. exists t. split; [exact Hr|].
  rewrite Hr in Hover. exact Hover.
Qed.

(** ** One goroutine after the other *)

Lemma runner_step_run (p : Paladin) (t : T) (p' : Paladin)
      (r : RunnerPC Handle T) (evs : list (nat * Event Handle T)) :
  runner_step tnext p (RRun t) = Some (Next p' r evs) ->
  evs = [] /\ Signal p' = Signal p.
Proof.
  unfold runner_step. intros H. cases_of H; guard_facts;
    injection H as ? ? ?; subst; auto.
Qed.

Lemma alone_S (k : nat) (p : Paladin) (t : T) :
  alone Handle tnext (S k) p t =
  match runner_step tnext p (RRun t : RunnerPC Handle T) with
  | Some (Next p' (RRun t') _) => alone Handle tnext k p' t'
  | _ => None
  end.
Proof. reflexivity. Qed.

(** One operation of the task alone. *)
Ltac alone_step H p1 t1 E :=
  rewrite alone_S in H;
  match type of H with
  | context [runner_step ?f ?p ?r] =>
      destruct (runner_step f p r) as [[p1 [| | t1 | |] ?|]|] eqn:E;
      try discriminate H
  end.

Lemma alone_Signal (k : nat) :
  forall p t p' t',
    alone Handle tnext k p t = Some (p', t') -> Signal p' = Signal p.
Proof.
  induction k as [|k IH]; intros p t p' t' H.
  - injection H as ? ?; subst; reflexivity.
  - alone_step H p1 t1 E.
    apply runner_step_run in E. destruct E as [_ E].
    rewrite <- E. exact (IH _ _ _ _ H).
Qed.

Lemma alone_app (k1 k2 : nat) :
  forall p t p1 t1,
    alone Handle tnext k1 p t = Some (p1, t1) ->
    alone Handle tnext (k1 + k2) p t = alone Handle tnext k2 p1 t1.
Proof.
  induction k1 as [|k1 IH]; intros p t p1 t1 H.
  - injection H as ? ?; subst; reflexivity.
  - change (S k1 + k2) with (S (k1 + k2)). rewrite alone_S.
    alone_step H p2 t2 E.
    exact (IH _ _ _ _ H).
Qed.

Lemma exec_alone (k : nat) :
  forall (st : State Handle T) t p' t',
    dead st = false -> runner st = RRun t ->
    alone Handle tnext k (pal st) t = Some (p', t') ->
    exec tnext st (repeat LRunner k)
    = Some (with_runner Handle T (with_pal Handle T st p') (RRun t')).
Proof.
  induction k as [|k IH]; intros st t p' t' Hd Hr H.
  - injection H as ? ?; subst. simpl. rewrite <- Hr.
    destruct st; reflexivity.
  - alone_step H p1 t1 E.
    destruct (runner_step_run _ _ _ _ _ E) as [-> _].
    simpl. unfold step. rewrite Hd. simpl. rewrite Hr, E.
    rewrite (IH (logged Handle T
                   (with_runner Handle T (with_pal Handle T st p1) (RRun t1))
                   []) t1 p' t'); auto.
Qed.

Lemma leave_steps (st : State Handle T) (a : RunArgs Handle T) (c : Handle) :
  dead st = false -> coord st = CLeave a c -> guard (pal st) = true ->
  exists st2,
    exec tnext st [LCoord; LCoord] = Some st2 /\
    dead st2 = false /\ coord st2 = CWait a c /\
    runner st2 = RStart (runid st) c (run a) /\
    pal st2 = {| Signal := Signal (pal st); guard := false |}.
Proof.
  intros Hd Hc Hg.
  destruct st as [[sg g] ch pc li ru sta k lg d]; simpl in *; subst.
  unfold step; simpl. unfold Run_step; simpl.
  unfold step; simpl. unfold Run_step; simpl.
  eexists; repeat split; reflexivity.
Qed.

Lemma start_step (st : State Handle T) (k : nat) (c : Handle)
      (f : Handle -> T) :
  dead st = false -> runner st = RStart k c f ->
  exists st',
    exec tnext st [LRunner] = Some st' /\
    dead st' = false /\ coord st' = coord st /\
    runner st' = RRun (f c) /\ pal st' = pal st.
Proof.
  intros Hd Hr.
  destruct st as [p ch pc li ru sta k0 lg d]; simpl in *; subst.
  unfold step; simpl.
  eexists; repeat split; reflexivity.
Qed.

Lemma call_to_wait (st : State Handle T) (a : RunArgs Handle T) (c : Handle) :
  dead st = false ->
  coord st = CIdle \/ (exists r, coord st = CReturned r) ->
  guard (pal st) = true ->
  opened a c ->
  exists st1,
    exec tnext st [LCall a; LCoord; LCoord; LCoord; LCoord; LRunner]
    = Some st1 /\
    dead st1 = false /\ coord st1 = CWait a c /\
    runner st1 = RRun (run a c) /\
    pal st1 = {| Signal := Signal (pal st); guard := false |}.
Proof.
  intros Hd Hc Hg Hop.
  destruct (call_step st a Hd Hc)
    as (s1 & E1 & Hc1 & Hp1 & Hd1 & _).
  destruct (open_steps s1 a c Hd1 Hc1 Hop)
    as (s2 & E2 & Hc2 & Hp2 & Hd2 & _).
  rewrite <- Hp1, <- Hp2 in Hg.
  destruct (leave_steps s2 a c Hd2 Hc2 Hg)
    as (s3 & E3 & Hd3 & Hc3 & Hr3 & Hp3).
  destruct (start_step s3 _ c (run a) Hd3 Hr3)
    as (s4 & E4 & Hd4 & Hc4 & Hr4 & Hp4).
  exists s4.
  change [LCall a; LCoord; LCoord; LCoord; LCoord; LRunner]
    with ([LCall a] ++ [LCoord; LCoord] ++ [LCoord; LCoord] ++
          [@LRunner Handle T]).
  assert (E0 : exec tnext st [LCall a] = Some s1)
    by (unfold exec; rewrite E1; reflexivity).
  rewrite exec_app, E0, exec_app, E2, exec_app, E3, E4.
  split; [reflexivity|]. split; [exact Hd4|].
  split; [rewrite Hc4; exact Hc3|]. split; [exact Hr4|].
  rewrite Hp4, Hp3, Hp2, Hp1. reflexivity.
Qed.

Lemma end_step (st : State Handle T) (t : T) :
  dead st = false -> runner st = RRun t -> tnext t = None ->
  exists st',
    exec tnext st [LRunner] = Some st' /\
    dead st' = false /\ coord st' = coord st /\
    runner st' = RSend t /\ pal st' = pal st.
Proof.
  intros Hd Hr Ht.
  destruct st as [p ch pc li ru sta k0 lg d]; simpl in *; subst.
  unfold step; simpl. rewrite Ht.
  eexists; repeat split; reflexivity.
Qed.

Lemma sync_step (st : State Handle T) (a : RunArgs Handle T) (c : Handle)
      (t : T) :
  dead st = false -> coord st = CWait a c -> runner st = RSend t ->
  exists st',
    exec tnext st [LSyncRunner] = Some st' /\
    dead st' = false /\ coord st' = CEnter a c task_event /\
    runner st' = RDone t /\ pal st' = pal st.
Proof.
  intros Hd Hc Hr.
  destruct st as [p ch pc li ru sta k0 lg d]; simpl in *; subst.
  unfold step; simpl.
  eexists; repeat split; reflexivity.
Qed.

Lemma finish_steps (st : State Handle T) (a : RunArgs Handle T) (c : Handle) :
  dead st = false -> coord st = CEnter a c task_event ->
  guard (pal st) = false ->
  exists st',
    exec tnext st [LCoord; LCoord; LCoord] = Some st' /\
    dead st' = false /\ coord st' = CReturned (closr a c) /\
    runner st' = runner st /\
    pal st' = {| Signal := Signal (pal st); guard := true |}.
Proof.
  intros Hd Hc Hg.
  destruct st as [[sg g] ch pc li ru sta k0 lg d]; simpl in *; subst.
  unfold step; simpl. unfold Run_step; simpl.
  unfold step; simpl. unfold Run_step; simpl.
  unfold step; simpl. unfold Run_step; simpl.
  eexists; repeat split; reflexivity.
Qed.

Lemma wait_to_return (st : State Handle T) (a : RunArgs Handle T)
      (c : Handle) (t : T) :
  dead st = false -> coord st = CWait a c -> runner st = RRun t ->
  tnext t = None -> guard (pal st) = false ->
  exists st',
    exec tnext st [LRunner; LSyncRunner; LCoord; LCoord; LCoord]
    = Some st' /\
    coord st' = CReturned (closr a c) /\
    Signal (pal st') = Signal (pal st) /\
    guard (pal st') = true /\
    runner st' = RDone t /\ dead st' = false.
Proof.
  intros Hd Hc Hr Ht Hg.
  destruct (end_step st t Hd Hr Ht) as (s1 & E1 & Hd1 & Hc1 & Hr1 & Hp1).
  rewrite <- Hc1 in Hc.
  destruct (sync_step s1 a c t Hd1 Hc Hr1)
    as (s2 & E2 & Hd2 & Hc2 & Hr2 & Hp2).
  rewrite <- Hp1, <- Hp2 in Hg.
  destruct (finish_steps s2 a c Hd2 Hc2 Hg)
    as (s3 & E3 & Hd3 & Hc3 & Hr3 & Hp3).
  exists s3.
  change [LRunner; LSyncRunner; LCoord; LCoord; LCoord]
    with ([LRunner] ++ [LSyncRunner] ++
          [@LCoord Handle T; LCoord; LCoord]).
  rewrite exec_app, E1, exec_app, E2, E3.
  split; [reflexivity|]. split; [exact Hc3|].
  rewrite Hp3, Hr3, Hp2, Hp1. simpl. auto.
Qed.

Lemma sched_alone_quiet (a : RunArgs Handle T) (k : nat) :
  Forall no_interrupt (sched_alone a k) /\
  Forall not_a_call (tl (sched_alone a k)).
Proof.
  unfold sched_alone; simpl. split.
  - repeat (constructor; [exact I|]).
    apply Forall_app. split; [|repeat constructor].
    induction k; simpl; constructor; auto. exact I.
  - repeat (constructor; [exact I|]).
    apply Forall_app. split; [|repeat constructor].
    induction k; simpl; constructor; auto. exact I.
Qed.

Lemma Run_alone (st : State Handle T) (a : RunArgs Handle T) (c : Handle)
      (k : nat) (p' : Paladin) (t' : T) :
  dead st = false ->
  coord st = CIdle \/ (exists r, coord st = CReturned r) ->
  guard (pal st) = true ->
  opened a c ->
  alone Handle tnext k {| Signal := Signal (pal st); guard := false |} (run a c)
  = Some (p', t') ->
  tnext t' = None ->
  guard p' = false ->
  exists st',
    exec tnext st (sched_alone a k) = Some st' /\
    coord st' = CReturned (closr a c) /\
    Signal (pal st') = Signal (pal st) /\
    guard (pal st') = true /\
    runner st' = RDone t' /\ dead st' = false.
Proof.
  intros Hd Hc Hg Hop Hal Ht Hg'.
  destruct (call_to_wait st a c Hd Hc Hg Hop)
    as (st1 & He1 & Hd1 & Hc1 & Hr1 & Hp1).
  rewrite <- Hp1 in Hal.
  pose proof (exec_alone k st1 (run a c) p' t' Hd1 Hr1 Hal) as He2.
  pose proof (alone_Signal k _ _ _ _ Hal) as Hs2.
  set (st2 := with_runner Handle T (with_pal Handle T st1 p') (RRun t'))
    in *.
  assert (Hd2 : dead st2 = false) by (destruct st1; exact Hd1).
  assert (Hc2 : coord st2 = CWait a c) by (destruct st1; exact Hc1).
  assert (Hr2 : runner st2 = RRun t') by (destruct st1; reflexivity).
  assert (Hp2 : pal st2 = p') by (destruct st1; reflexivity).
  rewrite <- Hp2 in Hg'.
  destruct (wait_to_return st2 a c t' Hd2 Hc2 Hr2 Ht Hg')
    as (st3 & He3 & Hc3 & Hs3 & Hg3 & Hr3 & Hd3).
  exists st3. unfold sched_alone.
  rewrite exec_app, He1, exec_app, He2, He3.
  split; [reflexivity|]. split; [exact Hc3|].
  split; [|auto].
  rewrite Hs3, Hp2, Hs2, Hp1. reflexivity.
Qed.

(** X11: When the task comes to its end outside a protected region, [Run]
    returns: from any state in which [Run] may be called with the guard
    held, with an opener that succeeds and a task that, left alone,
    performs [k] operations and ends with the guard free, the schedule
    that lets one goroutine move after the other takes [Run] to its
    return with the result of the closer, with the guard held again and
    the [Signal] field as it was. *)
Theorem Run_returns_after_task (st : State Handle T) (a : RunArgs Handle T)
        (c : Handle) (k : nat) (p' : Paladin) (t' : T) :
  dead st = false ->
  coord st = CIdle \/ (exists r, coord st = CReturned r) ->
  guard (pal st) = true ->
  opened a c ->
  alone Handle tnext k {| Signal := Signal (pal st); guard := false |} (run a c)
  = Some (p', t') ->
  tnext t' = None ->
  guard p' = false ->
  exists st',
    exec tnext st (sched_alone a k) = Some st' /\
    Forall no_interrupt (sched_alone a k) /\
    coord st' = CReturned (closr a c) /\
    Signal (pal st') = Signal (pal st) /\
    guard (pal st') = true /\
    runner st' = RDone t' /\ dead st' = false.
Proof.
  intros Hd Hc Hg Hop Hal Ht Hg'.
  destruct (Run_alone st a c k p' t' Hd Hc Hg Hop Hal Ht Hg')
    as (st' & He & H).
  exists st'. split; [exact He|].
  split; [apply sched_alone_quiet|exact H].
Qed.

(** ** An invocation that no interrupt reaches *)

Lemma InvCalm_step (k : nat) (sg0 : option os_Signal)
      (st : State Handle T) (l : Label Handle T) (st' : State Handle T) :
  InvCalm k sg0 st -> not_a_call l /\ no_interrupt l ->
  step tnext st l = Some st' -> InvCalm k sg0 st'.
Proof.
  intros (Hk & Hs & Hq & Hc & Hlog) [Hnc Hok] H.
  destruct st as [p sg pc li ru sta k0 lg d]; unfold InvCalm in *;
    simpl in *.
  step_cases H; simpl in *; try contradiction; guard_facts;
    try match goal with
        | pc0 : CoordPC Handle T |- _ =>
            destruct pc0; simpl in *; try contradiction
        end;
    repeat match goal with
    | Hx : _ /\ _ |- _ => destruct Hx
    | Hx : exists _, _ |- _ => destruct Hx
    end;
    subst; simpl in *;
    try match goal with
        | Hx : Some _ = Some _ |- _ => injection Hx as Hx; subst
        end;
    try match goal with
        | Hx : LSend _ = LRecv |- _ => discriminate Hx
        | Hx : LRecv = LOff |- _ => discriminate Hx
        end;
    try match goal with
        | Hx : queue ?c = [], Hy : queue ?c = _ :: _ |- _ =>
            rewrite Hx in Hy; discriminate Hy
        end;
    try match goal with
        | Hx : os task_event = true |- _ => discriminate Hx
        end;
    try rewrite relay_other by assumption;
    repeat split; eauto; try congruence;
    try (intros ? Hin; simpl in Hin;
         repeat (destruct Hin as [Hin|Hin];
                 [try discriminate Hin;
                  injection Hin as ?; subst; simpl; auto|]);
         exact (Hlog _ Hin)).
Qed.

(** X15: An invocation of [Run] is interrupted only by an interrupt that
    is delivered after it was called: wherever the process stands when
    [Run] is called, whatever interrupts earlier invocations have left
    unread in their channels, as long as no interrupt is delivered after
    the call the [Signal] field stays what it was, the listener of the
    invocation receives nothing, and the only event [Run] can receive is
    the one its runner goroutine sends after the task has ended. *)
Theorem earlier_interrupts_ignored (sched0 : list (Label Handle T))
        (st0 : State Handle T) (a : RunArgs Handle T)
        (sched : list (Label Handle T)) (st : State Handle T) :
  exec tnext boot sched0 = Some st0 ->
  exec tnext st0 (LCall a :: sched) = Some st ->
  Forall not_a_call sched ->
  Forall no_interrupt sched ->
  Signal (pal st) = Signal (pal st0) /\
  (listener st = LOff \/ listener st = LRecv) /\
  (forall e, received st = Some e ->
             e = task_event /\
             exists t, runner st = RDone t /\ tnext t = None).
Proof.
  intros Hex0 Hex Hnc Hok.
  assert (Hall : exec tnext boot (sched0 ++ LCall a :: sched) = Some st)
    by (rewrite exec_app, Hex0; exact Hex).
  simpl in Hex.
  destruct (step tnext st0 (LCall a)) as [st1|] eqn:Hs1; [|discriminate].
  assert (Hd0 : dead st0 = false).
  { unfold step in Hs1. destruct (dead st0); [discriminate|reflexivity]. }
  assert (Hc0 : coord st0 = CIdle \/ exists r, coord st0 = CReturned r).
  { unfold step in Hs1. rewrite Hd0 in Hs1. simpl in Hs1.
    destruct (coord st0); try discriminate; eauto. }
  destruct (call_step st0 a Hd0 Hc0)
    as (st1' & Hs1' & Hc1 & Hp1 & _ & Hk1 & _ & _ & Hl1).
  rewrite Hs1 in Hs1'. injection Hs1' as <-.
  pose proof (InvLog_reach sched0 st0 Hex0) as (_ & (_ & Hlater & _) & _).
  assert (Hcalm : InvCalm (S (runid st0)) (Signal (pal st0)) st1).
  { unfold InvCalm. rewrite Hk1, Hc1, Hp1, Hl1.
    split; [reflexivity|]. split; [reflexivity|].
    split.
    { unfold step in Hs1. rewrite Hd0 in Hs1. simpl in Hs1.
      destruct (coord st0); try discriminate;
        injection Hs1 as <-; reflexivity. }
    split; [exact I|].
    intros e [Hin|Hin]; [discriminate|].
    apply In_log_cview in Hin; [|reflexivity].
    rewrite (Hlater (S (runid st0))) in Hin by lia. destruct Hin. }
  assert (Hboth : Forall (fun l => not_a_call l /\ no_interrupt l) sched)
    by (apply Forall_and; assumption).
  pose proof (exec_invariant _ (InvCalm (S (runid st0)) (Signal (pal st0)))
                (InvCalm_step (S (runid st0)) (Signal (pal st0)))
                sched st1 st Hcalm Hboth Hex)
    as (Hk & Hs & Hq & Hc & Hlog).
  split; [exact Hs|]. split.
  { destruct (coord st); try contradiction; try tauto. }
  intros e Hrec.
  pose proof (InvDone_reach _ st Hall) as (Hover & _ & Hdone).
  pose proof (InvLog_reach _ st Hall) as (Hsh & _).
  assert (He : e = task_event).
  { unfold received in Hrec.
    destruct (coord st) eqn:Hpc; try discriminate;
      try (injection Hrec as Hrec; subst; reflexivity).
    apply Hlog. rewrite <- Hk. apply In_cview_log.
    revert Hrec. clear - Hsh.
    destruct Hsh as [a1 [(c1 & y & _ & _ & Hl)|(c1 & e1 & _ & _ & Hl)]];
      rewrite Hl; unfold failed_trace, closed_trace; simpl.
    - discriminate.
    - destruct (os e1); simpl; intros H; injection H as H; subst; auto 10. }
  split; [exact He|].
  rewrite Hrec in Hdone. subst e. simpl in Hdone.
  destruct Hdone as [t Hr]. exists t. split; [exact Hr|].
  rewrite Hr in Hover. exact Hover.
Qed.

(** ** A return without a signal *)

Lemma returned_nil_done (a : RunArgs Handle T) (c : Handle)
      (sched : list (Label Handle T)) (st : State Handle T)
      (r : option error) :
  opened a c ->
  exec tnext boot (LCall a :: sched) = Some st ->
  Forall not_a_call sched ->
  coord st = CReturned r ->
  Signal (pal st) = None ->
  exists t, runner st = RDone t /\ tnext t = None.
Proof.
  intros Hop Hex Hnc Hc Hnil.
  destruct (first_invocation a sched st Hex Hnc) as (Hk & Hin & Hsig).
  pose proof (InvLog_reach (LCall a :: sched) st Hex) as Hlog.
  pose proof (InvDone_reach (LCall a :: sched) st Hex)
    as (Hover & _ & Hdone).
  pose proof (InvSig_reach (LCall a :: sched) st Hex)
    as (_ & _ & _ & _ & Hok).
  assert (Hret : In (runid st, EvReturn r) (log st)).
  { destruct Hlog as (Hsh & _). rewrite Hc in Hsh.
    apply In_cview_log.
    destruct Hsh as [a0 [(c0 & y & _ & Hr & Hl)|(c0 & e0 & _ & Hr & Hl)]];
      rewrite Hl; unfold failed_trace, closed_trace; simpl; subst r; auto. }
  rewrite Hk in Hret.
  destruct (run_returned st 1 a r Hlog Hin Hret)
    as [(c' & y & Hop' & _)|(c' & e & _ & _ & Hl)].
  { unfold opened in Hop. congruence. }
  assert (Hwin : winner (cview (runid st) (log st)) = Some e).
  { rewrite Hk, Hl. unfold closed_trace. simpl.
    destruct (os e); reflexivity. }
  assert (Hrecv : In (1, EvRecv e) (log st)).
  { rewrite <- Hk. apply In_cview_log. rewrite Hk, Hl.
    unfold closed_trace. simpl. destruct (os e); simpl; auto 10. }
  unfold received in Hdone. unfold decided in Hsig.
  rewrite Hc, Hwin in *. simpl in Hsig.
  destruct (os e) eqn:Hos.
  - (* an interruption would have been recorded *)
    rewrite (Hok 1 e Hrecv Hos) in Hsig. congruence.
  - destruct Hdone as [t Hr]. exists t. split; [exact Hr|].
    rewrite Hr in Hover. exact Hover.
Qed.

(** X16: What [Run] tells its caller on a fresh Paladin, when the opener
    has succeeded: after the return either the [Signal] field holds
    [os.Interrupt], or it is nil and the task has run to its end. *)
Theorem signal_or_task_end (a : RunArgs Handle T) (c : Handle)
        (sched : list (Label Handle T)) (st : State Handle T)
        (r : option error) :
  opened a c ->
  exec tnext boot (LCall a :: sched) = Some st ->
  Forall not_a_call sched ->
  coord st = CReturned r ->
  Signal (pal st) = Some os_Interrupt \/
  (Signal (pal st) = None /\
   exists t, runner st = RDone t /\ tnext t = None).
Proof.
  intros Hop Hex Hnc Hc.
  pose proof (InvSig_reach (LCall a :: sched) st Hex) as ([Hs|Hs] & _).
  - right. split; [exact Hs|].
    exact (returned_nil_done a c sched st r Hop Hex Hnc Hc Hs).
  - left. exact Hs.
Qed.

End Proofs.

(** * The model at work: scripted runs *)

Lemma Script_next_obeys : obeys Script.next Script.inside.
Proof.
  intros [b l] op t' H.
  destruct l as [|[] r]; destruct b; simpl in H;
    inversion H; subst; simpl; auto.
Qed.


Ltac in_log := vm_compute; repeat (try (left; reflexivity); right).

Ltac by_script := repeat constructor.

Lemma go_interrupted :
  exec Script.next boot Script.sched_interrupted
  = Some (Script.final Script.sched_interrupted).
Proof. vm_compute. reflexivity. Qed.

Lemma go_closing :
  exec Script.next boot Script.sched_closing = Some (Script.final Script.sched_closing).
Proof. vm_compute. reflexivity. Qed.

Lemma go_opening :
  exec Script.next boot Script.sched_opening = Some (Script.final Script.sched_opening).
Proof. vm_compute. reflexivity. Qed.

Lemma go_failed :
  exec Script.next boot Script.sched_failed = Some (Script.final Script.sched_failed).
Proof. vm_compute. reflexivity. Qed.

Lemma go_completed_next :
  exec Script.next (Script.final Script.sched_interrupted)
       (LCall Script.quiet :: Script.sched_rest)
  = Some (Script.final (Script.sched_interrupted ++ Script.sched_completed)).
Proof. vm_compute. reflexivity. Qed.

(** Witness of C1: the interrupted run has called the closer once, on
    handle 7. *)
Lemma closer_exactly_once_witness :
  exec Script.next boot Script.sched_interrupted
  = Some (Script.final Script.sched_interrupted) /\
  closes 1 (Script.final Script.sched_interrupted) = 1 /\
  In (1, EvClose 7 (Some Script.close_failed))
     (log (Script.final Script.sched_interrupted)).
Proof.
  split; [exact go_interrupted|].
  destruct (closer_exactly_once nat Script.task Script.next
              Script.sched_interrupted
              (Script.final Script.sched_interrupted) go_interrupted)
    as (_ & Honce & _).
  apply (Honce 1 Script.good 7 (Some Script.close_failed)).
  - in_log.
  - reflexivity.
  - in_log.
Defined.

(** Witness of C2: where the closer of the interrupted run is about to be
    called, the guard is locked and the task is outside its region. *)
Lemma closer_after_reacquire_witness :
  obeys Script.next Script.inside /\
  Forall (protocol_ok Script.inside) Script.sched_closing /\
  exec Script.next boot Script.sched_closing = Some (Script.final Script.sched_closing) /\
  guard (pal (Script.final Script.sched_closing)) = true /\
  nobody_inside Script.inside (Script.final Script.sched_closing).
Proof.
  assert (Hok : Forall (protocol_ok Script.inside) Script.sched_closing)
    by by_script.
  split; [exact Script_next_obeys|]. split; [exact Hok|].
  split; [exact go_closing|].
  destruct (closer_after_reacquire nat Script.task Script.next Script.inside
              Script.sched_closing (Script.final Script.sched_closing)
              Script_next_obeys Hok go_closing) as (_ & Hclose).
  destruct (Hclose Script.good 7 Script.interrupt) as (_ & _ & Hg & Hn).
  - right. vm_compute. reflexivity.
  - split; assumption.
Defined.

(** Witness of C3: with the opener about to fail, one more statement
    ends [Run]; nothing has been launched and the guard is locked. *)
Lemma opener_failure_witness :
  obeys Script.next Script.inside /\
  Forall (protocol_ok Script.inside) Script.sched_opening /\
  exec Script.next boot Script.sched_opening = Some (Script.final Script.sched_opening) /\
  In (runid (Script.final Script.sched_opening), EvCall Script.bad)
     (log (Script.final Script.sched_opening)) /\
  openr Script.bad tt = (0, Some Script.no_such_file) /\
  runner (Script.final Script.sched_opening) = ROff /\
  guard (pal (Script.final Script.sched_opening)) = true /\
  exists n st',
    n <= 2 /\
    exec Script.next (Script.final Script.sched_opening) (repeat LCoord n)
    = Some st' /\
    coord st' =
    CReturned (Some (errors_New (could_not_open Script.no_such_file))).
Proof.
  assert (Hok : Forall (protocol_ok Script.inside) Script.sched_opening)
    by by_script.
  assert (Hin : In (runid (Script.final Script.sched_opening),
                    EvCall Script.bad)
                   (log (Script.final Script.sched_opening))) by in_log.
  split; [exact Script_next_obeys|]. split; [exact Hok|].
  split; [exact go_opening|]. split; [exact Hin|]. split; [reflexivity|].
  destruct (opener_failure nat Script.task Script.next Script.inside
              Script.sched_opening (Script.final Script.sched_opening)
              Script.bad 0 Script.no_such_file
              Script_next_obeys Hok go_opening Hin eq_refl)
    as ((n & st' & Hlen & Hex & Hc & _) & _ & _ & _ & Hoff & Hg & _).
  split; [exact Hoff|]. split; [exact Hg|].
  exists n, st'. auto.
Defined.

(** Witness of C4: after the interrupted run has returned the guard is
    locked. *)
Lemma guard_held_outside_window_witness :
  obeys Script.next Script.inside /\
  Forall (protocol_ok Script.inside) Script.sched_interrupted /\
  exec Script.next boot Script.sched_interrupted
  = Some (Script.final Script.sched_interrupted) /\
  guard (pal (Script.final Script.sched_interrupted)) = true /\
  dead (Script.final Script.sched_interrupted) = false.
Proof.
  assert (Hok : Forall (protocol_ok Script.inside) Script.sched_interrupted)
    by by_script.
  split; [exact Script_next_obeys|]. split; [exact Hok|].
  split; [exact go_interrupted|].
  destruct (guard_held_outside_window nat Script.task Script.next
              Script.inside Script.sched_interrupted
              (Script.final Script.sched_interrupted)
              Script_next_obeys Hok go_interrupted)
    as (_ & _ & Hd & _ & Hret).
  split; [|exact Hd].
  apply (Hret (Some Script.close_failed)). vm_compute. reflexivity.
Defined.

(** Witness of C5: a second invocation, decided by the end of its task,
    leaves in [Signal] the interrupt recorded by the first. *)
Lemma Signal_after_Run_witness :
  exec Script.next boot Script.sched_interrupted
  = Some (Script.final Script.sched_interrupted) /\
  exec Script.next (Script.final Script.sched_interrupted)
       (LCall Script.quiet :: Script.sched_rest)
  = Some (Script.final (Script.sched_interrupted ++ Script.sched_completed)) /\
  Forall not_a_call Script.sched_rest /\
  Signal (pal (Script.final
                 (Script.sched_interrupted ++ Script.sched_completed)))
  = Some os_Interrupt.
Proof.
  assert (Hnc : Forall not_a_call Script.sched_rest) by by_script.
  split; [exact go_interrupted|]. split; [exact go_completed_next|].
  split; [exact Hnc|].
  destruct (Signal_after_Run nat Script.task Script.next
              Script.sched_interrupted
              (Script.final Script.sched_interrupted)
              Script.quiet Script.sched_rest
              (Script.final
                 (Script.sched_interrupted ++ Script.sched_completed))
              go_interrupted go_completed_next Hnc)
    as (_ & _ & _ & Hlost & _).
  rewrite (Hlost {| os := false; s := None |}).
  - vm_compute. reflexivity.
  - vm_compute. reflexivity.
  - reflexivity.
Defined.

(** Witness of C6: the interrupted run returns the closer's error. *)
Lemma Run_returns_result_witness :
  exec Script.next boot Script.sched_interrupted
  = Some (Script.final Script.sched_interrupted) /\
  coord (Script.final Script.sched_interrupted)
  = CReturned (Run_result Script.good).
Proof.
  split; [exact go_interrupted|].
  destruct (Run_returns_result nat Script.task Script.next
              Script.sched_interrupted
              (Script.final Script.sched_interrupted) go_interrupted)
    as (Hlogged & Hres).
  assert (Hc : coord (Script.final Script.sched_interrupted)
               = CReturned (Some Script.close_failed))
    by (vm_compute; reflexivity).
  destruct (Hres 1 Script.good (Some Script.close_failed)) as (Hr & _).
  - in_log.
  - apply (Hlogged _ Hc).
  - rewrite Hc, Hr. reflexivity.
Defined.

(** Witness of C7: the interrupt is recorded before the failing closer
    is called, and is still there when [Run] has returned its error. *)
Lemma closer_failure_keeps_signal_witness :
  exec Script.next boot Script.sched_closing
  = Some (Script.final Script.sched_closing) /\
  dead (Script.final Script.sched_closing) = false /\
  coord (Script.final Script.sched_closing)
  = CClose Script.good 7 Script.interrupt /\
  os Script.interrupt = true /\
  Signal (pal (Script.final Script.sched_closing)) = Some os_Interrupt /\
  exists st',
    step Script.next (Script.final Script.sched_closing) LCoord = Some st' /\
    coord st' = CReturned (Some Script.close_failed) /\
    pal st' = pal (Script.final Script.sched_closing).
Proof.
  assert (Hd : dead (Script.final Script.sched_closing) = false)
    by (vm_compute; reflexivity).
  assert (Hc : coord (Script.final Script.sched_closing)
               = CClose Script.good 7 Script.interrupt)
    by (vm_compute; reflexivity).
  split; [exact go_closing|]. split; [exact Hd|]. split; [exact Hc|].
  split; [reflexivity|].
  destruct (closer_failure_keeps_signal nat Script.task Script.next
              Script.sched_closing (Script.final Script.sched_closing)
              Script.good 7 Script.interrupt go_closing Hd Hc eq_refl)
    as (Hsig & _ & _ & _ & st' & Hst & Hc' & Hp & _).
  split; [exact Hsig|].
  exists st'. auto.
Defined.

(** Witness of C8 as amended: the interrupted run has received one
    event. *)
Lemma one_event_decides_witness :
  exec Script.next boot Script.sched_interrupted
  = Some (Script.final Script.sched_interrupted) /\
  receives 1 (Script.final Script.sched_interrupted) = 1.
Proof.
  split; [exact go_interrupted|].
  destruct (one_event_decides nat Script.task Script.next
              Script.sched_interrupted
              (Script.final Script.sched_interrupted) go_interrupted)
    as (_ & Hone & _).
  apply (Hone 1 Script.good 7 (Some Script.close_failed)).
  - in_log.
  - reflexivity.
  - in_log.
Defined.

(** C8 as stated fails: a [Run] whose opener fails returns without
    having consulted any event. *)
Lemma failed_open_consults_no_event :
  exec Script.next boot Script.sched_failed
  = Some (Script.final Script.sched_failed) /\
  In (1, EvCall Script.bad) (log (Script.final Script.sched_failed)) /\
  coord (Script.final Script.sched_failed)
  = CReturned (Some (errors_New "Could not open: no such file")) /\
  receives 1 (Script.final Script.sched_failed) = 0 /\
  receives 1 (Script.final Script.sched_failed) <> 1.
Proof.
  split; [exact go_failed|].
  split; [in_log|].
  split; [vm_compute; reflexivity|].
  split; [vm_compute; reflexivity|].
  vm_compute. discriminate.
Qed.

(** Witness of C9: in the interrupted run the runner was called with
    handle 7, the handle of the opener. *)
Lemma handle_passed_on_witness :
  exec Script.next boot Script.sched_interrupted
  = Some (Script.final Script.sched_interrupted) /\
  In (1, EvCall Script.good) (log (Script.final Script.sched_interrupted)) /\
  In (1, EvRun 7) (log (Script.final Script.sched_interrupted)) /\
  opened Script.good 7.
Proof.
  assert (Hin : In (1, EvCall Script.good)
                   (log (Script.final Script.sched_interrupted))) by in_log.
  assert (Hrun : In (1, @EvRun nat Script.task 7)
                    (log (Script.final Script.sched_interrupted))) by in_log.
  split; [exact go_interrupted|]. split; [exact Hin|]. split; [exact Hrun|].
  destruct (handle_passed_on nat Script.task Script.next
              Script.sched_interrupted
              (Script.final Script.sched_interrupted)
              1 Script.good 7 go_interrupted Hin) as (_ & Hr & _).
  exact (Hr Hrun).
Defined.

(** Witness of C10: signal 15 was delivered too, and what is recorded is
    [os.Interrupt]. *)
Lemma Signal_nil_or_Interrupt_witness :
  exec Script.next boot Script.sched_interrupted
  = Some (Script.final Script.sched_interrupted) /\
  (Signal (pal (Script.final Script.sched_interrupted)) = None \/
   Signal (pal (Script.final Script.sched_interrupted)) = Some os_Interrupt).
Proof.
  split; [exact go_interrupted|].
  destruct (Signal_nil_or_Interrupt nat Script.task Script.next
              Script.sched_interrupted
              (Script.final Script.sched_interrupted) go_interrupted)
    as (Hsig & _).
  exact Hsig.
Defined.

(** * The tests *)

Lemma int_wrap_small (z : Z) :
  (- 2 ^ 63 <= z < 2 ^ 63)%Z -> int_wrap z = z.
Proof.
  intros H. unfold int_wrap.
  rewrite Z.mod_small; lia.
Qed.

Ltac tests_cases H :=
  unfold Tests.next, Tests.unlock_then, Tests.lock_then,
    Mutex.Lock, Mutex.Unlock in H; simpl in H;
  repeat match type of H with
  | context [match ?x with _ => _ end] => destruct x eqn:?; simpl in H
  end;
  try discriminate.

Lemma Tests_next_sound (n : Z) (x : Tests.Test) :
  (0 <= n < 2 ^ 63 - 1)%Z ->
  forall t op t',
    Tests.sound n x t ->
    Tests.next n t = Some (op, t') ->
    Tests.sound n x t'.
Proof.
  intros Hn [p [res sto kil]] op t' (Hc & Hl & Hx) H.
  unfold Tests.sound, Tests.counted, Tests.locks, Tests.of_test in *;
    simpl in *.
  destruct p, sto, kil; simpl in *; tests_cases H;
    inversion H; subst; unfold incr; simpl in *;
    repeat match goal with
    | Hb : (_ <? _)%Z = true |- _ => apply Z.ltb_lt in Hb
    | Hb : (_ <? _)%Z = false |- _ => apply Z.ltb_ge in Hb
    | Hb : _ /\ _ |- _ => destruct Hb
    end;
    try congruence;
    destruct x; try discriminate;
    rewrite ?int_wrap_small by lia;
    repeat split; auto; try lia.
Qed.

Lemma Tests_next_obeys (n : Z) : obeys (Tests.next n) Tests.inside.
Proof.
  intros [p e] op t' H.
  unfold Tests.inside in *; simpl in *.
  destruct p; simpl in *; tests_cases H;
    inversion H; subst; simpl; auto.
Qed.

Lemma Tests_next_over (n : Z) (x : Tests.Test) (t : Tests.task) :
  Tests.of_test x t = true ->
  Tests.next n t = None -> Tests.pc t = Tests.last_pc x.
Proof.
  destruct t as [p e]. unfold Tests.of_test; simpl. intros Hx H.
  destruct p; simpl in *; tests_cases H;
    destruct x; simpl in *; try discriminate; reflexivity.
Qed.

(** What the tests know of a run: one call of [Run] on a fresh Paladin
    with the arguments of test [x]. *)
Lemma Tests_run_facts (n : Z) (x : Tests.Test)
      (sched : list (Label Tests.env Tests.task))
      (st : State Tests.env Tests.task) :
  (0 <= n < 2 ^ 63 - 1)%Z ->
  exec (Tests.next n) boot (LCall (Tests.args x) :: sched) = Some st ->
  Forall not_a_call sched ->
  InvGuard Tests.inside st /\
  runner_has (fun c => Tests.result c = 0%Z) (Tests.sound n x) (runner st).
Proof.
  intros Hn Hex Hnc.
  assert (Hinit : forall c, opened (Tests.args x) c ->
             Tests.result c = 0%Z /\ Tests.sound n x (run (Tests.args x) c)).
  { intros c Hop. unfold opened in Hop. simpl in Hop.
    destruct x; inversion Hop; subst c;
      unfold Tests.sound, Tests.counted, Tests.locks, Tests.of_test;
      simpl; auto. }
  assert (Hout : starts_outside Tests.inside (Tests.args x))
    by (intros c; destruct x; reflexivity).
  split.
  - apply (InvGuard_reach Tests.env Tests.task (Tests.next n)
             Tests.inside (LCall (Tests.args x) :: sched) st
             (Tests_next_obeys n)); [|exact Hex].
    constructor; [exact Hout|].
    apply not_a_call_protocol_ok. exact Hnc.
  - apply (InvTask_reach Tests.env Tests.task (Tests.next n)
             (fun c => Tests.result c = 0%Z) (Tests.sound n x)
             (Tests_next_sound n x Hn) (LCall (Tests.args x) :: sched) st);
      [|exact Hex].
    constructor; [exact Hinit|].
    apply not_a_call_call_has. exact Hnc.
Qed.

(** X12: The assertions of [TestNoInterrupt], [testInterrupt] and
    [testInterruptProtected] on a run without a recorded signal
    (paladin_test.go, lines 47-53, 144 and 177), for any number of
    iterations that leaves room for one more increment: when [Run] has
    returned and the [Signal] field is nil, the function handed to [Run]
    has run to its end, with [e.result] equal to [iterations] for
    [runner] and to [iterations + 1] for [protectedRunner], and with
    [e.stopper] unlocked again; whatever signals were delivered on the
    way. *)
Theorem tests_run_through (n : Z) (x : Tests.Test)
        (sched : list (Label Tests.env Tests.task))
        (st : State Tests.env Tests.task) (r : option error) :
  (0 <= n < 2 ^ 63 - 1)%Z ->
  exec (Tests.next n) boot (LCall (Tests.args x) :: sched) = Some st ->
  Forall not_a_call sched ->
  coord st = CReturned r ->
  Signal (pal st) = None ->
  exists t,
    runner st = RDone t /\
    Tests.pc t = Tests.last_pc x /\
    Tests.result (Tests.e t) = Tests.full_count n x /\
    Tests.stopper (Tests.e t) = false.
Proof.
  intros Hn Hex Hnc Hc Hnil.
  destruct (Tests_run_facts n x sched st Hn Hex Hnc) as (_ & Hw).
  destruct (returned_nil_done Tests.env Tests.task (Tests.next n)
              (Tests.args x) (fst (Tests.opener x tt)) sched st r)
    as (t & Hr & Hover); auto.
  { destruct x; reflexivity. }
  exists t. split; [exact Hr|].
  rewrite Hr in Hw. simpl in Hw.
  destruct Hw as (Hcount & Hlocks & Hx).
  pose proof (Tests_next_over n x t Hx Hover) as Hpc.
  unfold Tests.counted, Tests.locks, Tests.full_count in *.
  rewrite Hpc in *. destruct x; simpl in *; auto.
Qed.

(** X13: The assertion of [testInterruptProtected] that a protected block is
    executed completely or not at all (paladin_test.go, line 180): in
    that test, whenever the caller of [Run] holds the guard, in
    particular from its re-acquisition on and after [Run] has returned,
    [e.result] is 0, [iterations] or [iterations + 1], never a value in
    between. *)
Theorem protected_block_atomic (n : Z)
        (sched : list (Label Tests.env Tests.task))
        (st : State Tests.env Tests.task) (z : Z) :
  (0 <= n < 2 ^ 63 - 1)%Z ->
  exec (Tests.next n) boot
       (LCall (Tests.args Tests.InterruptProtected) :: sched) = Some st ->
  Forall not_a_call sched ->
  coord_holds (coord st) = true ->
  Tests.seen (runner st) = Some z ->
  z = 0%Z \/ z = n \/ z = (n + 1)%Z.
Proof.
  intros Hn Hex Hnc Hheld Hseen.
  destruct (Tests_run_facts n Tests.InterruptProtected sched st Hn Hex Hnc)
    as (Hg & Hw).
  destruct (InvGuard_held Tests.env Tests.task Tests.inside st Hg Hheld)
    as (_ & Hout & _).
  destruct (runner st) as [|k c' f|t|t|t]; simpl in *;
    try discriminate; inversion Hseen; subst z; clear Hseen.
  - left. tauto.
  - destruct Hw as (Hcount & _ & Hx).
    unfold Tests.counted, Tests.inside, Tests.of_test in *.
    destruct (Tests.pc t); try discriminate; auto.
  - destruct Hw as (Hcount & _ & Hx).
    unfold Tests.counted, Tests.inside, Tests.of_test in *.
    destruct (Tests.pc t); try discriminate; auto.
  - destruct Hw as (Hcount & _ & Hx).
    unfold Tests.counted, Tests.inside, Tests.of_test in *.
    destruct (Tests.pc t); try discriminate; auto.
Qed.

(** ** The tests with one goroutine after the other *)

Lemma Tests_loop (n : Z) (p : Paladin) (st ki : Mutex.t) (prot : bool)
      (m : nat) :
  forall i,
    (0 <= i)%Z -> (i + Z.of_nat m = n)%Z -> (n < 2 ^ 63 - 1)%Z ->
    alone Tests.env (Tests.next n) m p
      {| Tests.pc := if prot then Tests.PrLoop i else Tests.UnLoop i;
         Tests.e := {| Tests.result := i; Tests.stopper := st;
                       Tests.killer := ki |} |}
    = Some (p, {| Tests.pc := if prot then Tests.PrLoop n
                              else Tests.UnLoop n;
                  Tests.e := {| Tests.result := n; Tests.stopper := st;
                                Tests.killer := ki |} |}).
Proof.
  induction m as [|m IH]; intros i Hi Him Hn.
  - replace i with n by lia. reflexivity.
  - rewrite alone_S.
    assert (Hlt : (i <? n)%Z = true) by (apply Z.ltb_lt; lia).
    assert (Hin : incr i = (i + 1)%Z)
      by (unfold incr; apply int_wrap_small; lia).
    destruct prot; unfold runner_step, Tests.next; simpl;
      rewrite Hlt, Hin; unfold Tests.set_result; simpl;
      apply (IH (i + 1)%Z); lia.
Qed.

Lemma Tests_alone (n : Z) (x : Tests.Test) (sg : option os_Signal) :
  (0 <= n < 2 ^ 63 - 1)%Z ->
  alone Tests.env (Tests.next n) (Tests.steps n x)
    {| Signal := sg; guard := false |}
    (Tests.task_of x (fst (Tests.opener x tt)))
  = Some ({| Signal := sg; guard := false |}, Tests.ended n x).
Proof.
  intros Hn.
  assert (Hge : (n <? n)%Z = false) by apply Z.ltb_irrefl.
  assert (Hin : incr n = (n + 1)%Z)
    by (unfold incr; apply int_wrap_small; lia).
  unfold Tests.steps.
  destruct x.
  - rewrite (alone_app Tests.env Tests.task (Tests.next n) _ _ _ _
               {| Signal := sg; guard := false |}
               {| Tests.pc := Tests.UnLoop 0;
                  Tests.e := {| Tests.result := 0; Tests.stopper := true;
                                Tests.killer := false |} |})
      by reflexivity.
    rewrite (alone_app Tests.env Tests.task (Tests.next n) _ _ _ _ _ _
               (Tests_loop n _ true false false (Z.to_nat n) 0%Z
                  ltac:(lia) ltac:(lia) ltac:(lia))).
    simpl. unfold Tests.next; simpl. rewrite Hge. reflexivity.
  - rewrite (alone_app Tests.env Tests.task (Tests.next n) _ _ _ _
               {| Signal := sg; guard := false |}
               {| Tests.pc := Tests.UnLoop 0;
                  Tests.e := {| Tests.result := 0; Tests.stopper := true;
                                Tests.killer := false |} |})
      by reflexivity.
    rewrite (alone_app Tests.env Tests.task (Tests.next n) _ _ _ _ _ _
               (Tests_loop n _ true false false (Z.to_nat n) 0%Z
                  ltac:(lia) ltac:(lia) ltac:(lia))).
    simpl. unfold Tests.next; simpl. rewrite Hge. reflexivity.
  - rewrite (alone_app Tests.env Tests.task (Tests.next n) _ _ _ _
               {| Signal := sg; guard := true |}
               {| Tests.pc := Tests.PrLoop 0;
                  Tests.e := {| Tests.result := 0; Tests.stopper := true;
                                Tests.killer := false |} |})
      by reflexivity.
    rewrite (alone_app Tests.env Tests.task (Tests.next n) _ _ _ _ _ _
               (Tests_loop n _ true false true (Z.to_nat n) 0%Z
                  ltac:(lia) ltac:(lia) ltac:(lia))).
    simpl. unfold Tests.next; simpl. rewrite Hge. simpl.
    unfold Tests.ended, Tests.set_result; simpl. rewrite Hin. reflexivity.
Qed.

(** X14: The three tests pass when no signal comes in the way: for every
    number of iterations that leaves room for one more increment, the
    run in which the task of the test moves alone until its end takes
    [Run] to its return with the nil of [e.Close()], with the [Signal]
    field nil, the guard held by the caller, and [e.result] at
    [iterations], respectively [iterations + 1] for [protectedRunner]
    (paladin_test.go, lines 47-53, 144 and 177). *)
Theorem tests_pass_alone (n : Z) (x : Tests.Test) :
  (0 <= n < 2 ^ 63 - 1)%Z ->
  exists st,
    exec (Tests.next n) boot (sched_alone (Tests.args x) (Tests.steps n x))
    = Some st /\
    coord st = CReturned None /\
    Signal (pal st) = None /\
    guard (pal st) = true /\
    runner st = RDone (Tests.ended n x) /\
    Tests.seen (runner st) = Some (Tests.full_count n x).
Proof.
  intros Hn.
  destruct (Run_alone Tests.env Tests.task (Tests.next n) boot
              (Tests.args x) (fst (Tests.opener x tt)) (Tests.steps n x)
              {| Signal := None; guard := false |} (Tests.ended n x))
    as (st & He & Hc & Hs & Hg & Hr & _).
  - reflexivity.
  - left; reflexivity.
  - reflexivity.
  - destruct x; reflexivity.
  - exact (Tests_alone n x None Hn).
  - destruct x; reflexivity.
  - reflexivity.
  - exists st. split; [exact He|]. split; [exact Hc|].
    split; [exact Hs|]. split; [exact Hg|]. split; [exact Hr|].
    rewrite Hr. reflexivity.
Qed.

(** * Further scripted runs *)

Lemma go_inside :
  exec Script.next boot Runs.sched_inside
  = Some (Script.final Runs.sched_inside).
Proof. vm_compute. reflexivity. Qed.

Lemma go_after_call :
  exec Script.next boot (LCall Script.good :: Runs.after_call)
  = Some (Script.final Script.sched_interrupted).
Proof. vm_compute. reflexivity. Qed.

Lemma go_stays :
  exec Script.next boot Runs.sched_stays
  = Some (Script.final Runs.sched_stays).
Proof. vm_compute. reflexivity. Qed.

Lemma go_stuck :
  exec Script.next (Script.final Runs.sched_stays) Runs.sched_stuck
  = Some (Script.final (Runs.sched_stays ++ Runs.sched_stuck)).
Proof. vm_compute. reflexivity. Qed.

Lemma go_calm :
  exec Script.next boot Runs.sched_calm
  = Some (Script.final Runs.sched_calm).
Proof. vm_compute. reflexivity. Qed.

Lemma go_completed :
  exec Script.next (Script.final Script.sched_interrupted)
       Script.sched_completed
  = Some (Script.final (Script.sched_interrupted ++ Script.sched_completed)).
Proof. vm_compute. reflexivity. Qed.

Lemma go_quiet_test :
  exec (Tests.next 3) boot
       (LCall (Tests.args Tests.NoInterrupt) :: Tests.rest_quiet)
  = Some (Tests.final Tests.sched_quiet).
Proof. vm_compute. reflexivity. Qed.

Lemma go_counting_test :
  exec (Tests.next 3) boot
       (LCall (Tests.args Tests.InterruptProtected) :: Tests.rest_counting)
  = Some (Tests.final Tests.sched_counting).
Proof. vm_compute. reflexivity. Qed.

Lemma three_iterations : (0 <= 3 < 2 ^ 63 - 1)%Z.
Proof. lia. Qed.

(** The task of [Script.good] is inside its region: the guard is locked
    and the caller of [Run] does not hold it. *)
Lemma regions_exclusive_witness :
  obeys Script.next Script.inside /\
  Forall (protocol_ok Script.inside) Runs.sched_inside /\
  exec Script.next boot Runs.sched_inside
  = Some (Script.final Runs.sched_inside) /\
  guard (pal (Script.final Runs.sched_inside)) = true /\
  coord_holds (coord (Script.final Runs.sched_inside)) = false.
Proof.
  assert (Hok : Forall (protocol_ok Script.inside) Runs.sched_inside)
    by by_script.
  split; [exact Script_next_obeys|]. split; [exact Hok|].
  split; [exact go_inside|].
  destruct (regions_exclusive nat Script.task Script.next Script.inside
              Runs.sched_inside (Script.final Runs.sched_inside)
              Script_next_obeys Hok go_inside) as (_ & Hin & _).
  destruct Hin as (Hg & Hc & _); [vm_compute; reflexivity|].
  split; assumption.
Defined.

(** On the Paladin of [New]: a second [Enter] waits, [Leave] frees the
    guard, and a second [Leave] is the fatal error. *)
Lemma Enter_Leave_compose_witness :
  Enter New = None /\
  Leave New = Some Runs.unlocked /\
  Enter Runs.unlocked = Some New /\ Leave Runs.unlocked = None.
Proof.
  destruct (Enter_Leave_compose New) as (_ & Hl & He & _).
  destruct (Hl Runs.unlocked eq_refl) as (H1 & H2 & _).
  split; [apply He; reflexivity|]. split; [reflexivity|].
  split; assumption.
Defined.

(** The interrupt recorded by the first invocation is still in [Signal]
    after a second one that ended with its task. *)
Lemma Signal_never_cleared_witness :
  exec Script.next boot Script.sched_interrupted
  = Some (Script.final Script.sched_interrupted) /\
  Signal (pal (Script.final Script.sched_interrupted)) = Some os_Interrupt /\
  exec Script.next (Script.final Script.sched_interrupted)
       Script.sched_completed
  = Some (Script.final (Script.sched_interrupted ++ Script.sched_completed)) /\
  Signal (pal (Script.final (Script.sched_interrupted ++
                             Script.sched_completed)))
  = Some os_Interrupt.
Proof.
  assert (Hs : Signal (pal (Script.final Script.sched_interrupted))
               = Some os_Interrupt) by (vm_compute; reflexivity).
  split; [exact go_interrupted|]. split; [exact Hs|].
  split; [exact go_completed|].
  exact (Signal_never_cleared nat Script.task Script.next
           Script.sched_interrupted (Script.final Script.sched_interrupted)
           Script.sched_completed
           (Script.final (Script.sched_interrupted ++ Script.sched_completed))
           os_Interrupt go_interrupted Hs go_completed).
Defined.


(** The interrupted run took one of its two interrupts. *)
Lemma one_signal_taken_witness :
  exec Script.next boot (LCall Script.good :: Runs.after_call)
  = Some (Script.final Script.sched_interrupted) /\
  Forall not_a_call Runs.after_call /\
  takes Runs.after_call <= 1.
Proof.
  assert (Hnc : Forall not_a_call Runs.after_call) by by_script.
  split; [exact go_after_call|]. split; [exact Hnc|].
  exact (one_signal_taken nat Script.task Script.next boot Script.good
           Runs.after_call (Script.final Script.sched_interrupted)
           go_after_call Hnc).
Defined.

(** [Run] on [new(Paladin)] dies at [p.Leave()]. *)
Lemma Run_without_New_witness :
  guard Runs.unlocked = false /\
  opened Script.good 7 /\
  exists st,
    exec Script.next (start Runs.unlocked)
         [LCall Script.good; LCoord; LCoord; LCoord] = Some st /\
    dead st = true.
Proof.
  split; [reflexivity|]. split; [reflexivity|].
  destruct (Run_without_New nat Script.task Script.next Runs.unlocked
              Script.good 7 eq_refl eq_refl) as ((st & He & Hd & _) & _).
  exists st. split; assumption.
Defined.

(** The event of the interrupted run came from the listener. *)
Lemma event_tells_the_truth_witness :
  exec Script.next boot Script.sched_interrupted
  = Some (Script.final Script.sched_interrupted) /\
  received (Script.final Script.sched_interrupted) = Some Script.interrupt /\
  listener (Script.final Script.sched_interrupted) = LDone /\
  In (1, EvRecv Script.interrupt)
     (log (Script.final Script.sched_interrupted)).
Proof.
  assert (Hr : received (Script.final Script.sched_interrupted)
               = Some Script.interrupt) by (vm_compute; reflexivity).
  split; [exact go_interrupted|]. split; [exact Hr|].
  destruct (event_tells_the_truth nat Script.task Script.next
              Script.sched_interrupted
              (Script.final Script.sched_interrupted) Script.interrupt
              go_interrupted Hr) as (_ & Hos & Hin).
  split; [apply Hos; reflexivity|exact Hin].
Defined.

(** The task of [Runs.stays] has ended inside its region: its event is
    received, but [Run] does not get the guard. *)
Lemma Run_blocked_by_ended_task_witness :
  obeys Script.next Script.inside /\
  Forall (protocol_ok Script.inside) Runs.sched_stays /\
  exec Script.next boot Runs.sched_stays
  = Some (Script.final Runs.sched_stays) /\
  ended_inside Script.next Script.inside
    (runner (Script.final Runs.sched_stays)) /\
  Forall (protocol_ok Script.inside) Runs.sched_stuck /\
  exec Script.next (Script.final Runs.sched_stays) Runs.sched_stuck
  = Some (Script.final (Runs.sched_stays ++ Runs.sched_stuck)) /\
  (forall r, coord (Script.final (Runs.sched_stays ++ Runs.sched_stuck))
             <> CReturned r) /\
  guard (pal (Script.final (Runs.sched_stays ++ Runs.sched_stuck))) = true.
Proof.
  assert (Hok0 : Forall (protocol_ok Script.inside) Runs.sched_stays)
    by by_script.
  assert (Hok : Forall (protocol_ok Script.inside) Runs.sched_stuck)
    by by_script.
  assert (He : ended_inside Script.next Script.inside
                 (runner (Script.final Runs.sched_stays)))
    by (vm_compute; split; reflexivity).
  split; [exact Script_next_obeys|]. split; [exact Hok0|].
  split; [exact go_stays|]. split; [exact He|]. split; [exact Hok|].
  split; [exact go_stuck|].
  destruct (Run_blocked_by_ended_task nat Script.task Script.next
              Script.inside Runs.sched_stays (Script.final Runs.sched_stays)
              Runs.sched_stuck
              (Script.final (Runs.sched_stays ++ Runs.sched_stuck))
              Script_next_obeys Hok0 go_stays He Hok go_stuck)
    as (Hnr & _ & Hg & _).
  split; assumption.
Defined.

(** In the interrupted run the opener, the launch and the task were
    called once each. *)
Lemma called_once_witness :
  exec Script.next boot Script.sched_interrupted
  = Some (Script.final Script.sched_interrupted) /\
  opens 1 (Script.final Script.sched_interrupted) = 1 /\
  gos 1 (Script.final Script.sched_interrupted) = 1 /\
  runs 1 (Script.final Script.sched_interrupted) <= 1.
Proof.
  split; [exact go_interrupted|].
  destruct (called_once nat Script.task Script.next
              Script.sched_interrupted
              (Script.final Script.sched_interrupted) go_interrupted)
    as (Hle & Ho & Hg).
  split; [apply (Ho 1 Script.good (Some Script.close_failed)); in_log|].
  split; [apply (Hg 1 Script.good 7 (Some Script.close_failed));
          [in_log|reflexivity|in_log]|].
  apply (Hle 1).
Defined.

(** A run that only signal 15 is sent to records nothing. *)
Lemma undisturbed_run_witness :
  exec Script.next boot Runs.sched_calm
  = Some (Script.final Runs.sched_calm) /\
  Forall no_interrupt Runs.sched_calm /\
  Signal (pal (Script.final Runs.sched_calm)) = None /\
  forall k sg, ~ In (k, EvSignal sg) (log (Script.final Runs.sched_calm)).
Proof.
  assert (Hok : Forall no_interrupt Runs.sched_calm)
    by (repeat (constructor; [try exact I; discriminate|]); constructor).
  split; [exact go_calm|]. split; [exact Hok|].
  destruct (undisturbed_run nat Script.task Script.next Runs.sched_calm
              (Script.final Runs.sched_calm) go_calm Hok)
    as (Hs & _ & _ & Hno & _).
  split; assumption.
Defined.

(** The task of [Script.quiet] has three operations: alone, it takes
    [Run] to its return. *)
Lemma Run_returns_after_task_witness :
  exists st,
    exec Script.next boot (sched_alone Script.quiet 3) = Some st /\
    coord st = CReturned None /\ Signal (pal st) = None /\
    guard (pal st) = true.
Proof.
  destruct (Run_returns_after_task nat Script.task Script.next boot
              Script.quiet 8 3 Runs.unlocked (false, []))
    as (st & He & _ & Hc & Hs & Hg & _);
    try reflexivity.
  - left. reflexivity.
  - exists st. split; [exact He|]. split; [exact Hc|].
    split; [exact Hs|exact Hg].
Defined.

(** [TestNoInterrupt] with three iterations: [e.result] is 3. *)
Lemma tests_run_through_witness :
  (0 <= 3 < 2 ^ 63 - 1)%Z /\
  exec (Tests.next 3) boot
       (LCall (Tests.args Tests.NoInterrupt) :: Tests.rest_quiet)
  = Some (Tests.final Tests.sched_quiet) /\
  Forall not_a_call Tests.rest_quiet /\
  coord (Tests.final Tests.sched_quiet) = CReturned None /\
  Signal (pal (Tests.final Tests.sched_quiet)) = None /\
  exists t,
    runner (Tests.final Tests.sched_quiet) = RDone t /\
    Tests.result (Tests.e t) = 3%Z.
Proof.
  assert (Hnc : Forall not_a_call Tests.rest_quiet) by by_script.
  assert (Hc : coord (Tests.final Tests.sched_quiet) = CReturned None)
    by (vm_compute; reflexivity).
  assert (Hs : Signal (pal (Tests.final Tests.sched_quiet)) = None)
    by (vm_compute; reflexivity).
  split; [exact three_iterations|]. split; [exact go_quiet_test|].
  split; [exact Hnc|]. split; [exact Hc|]. split; [exact Hs|].
  destruct (tests_run_through 3 Tests.NoInterrupt Tests.rest_quiet
              (Tests.final Tests.sched_quiet) None
              three_iterations go_quiet_test Hnc Hc Hs)
    as (t & Hr & _ & Hres & _).
  exists t. split; [exact Hr|exact Hres].
Defined.

(** [testInterruptProtected] with three iterations, interrupted while
    counting: after [Run], [e.result] is 3. *)
Lemma protected_block_atomic_witness :
  (0 <= 3 < 2 ^ 63 - 1)%Z /\
  exec (Tests.next 3) boot
       (LCall (Tests.args Tests.InterruptProtected) :: Tests.rest_counting)
  = Some (Tests.final Tests.sched_counting) /\
  Forall not_a_call Tests.rest_counting /\
  coord_holds (coord (Tests.final Tests.sched_counting)) = true /\
  Tests.seen (runner (Tests.final Tests.sched_counting)) = Some 3%Z /\
  (3 = 0 \/ 3 = 3 \/ 3 = 3 + 1)%Z.
Proof.
  assert (Hnc : Forall not_a_call Tests.rest_counting) by by_script.
  assert (Hc : coord_holds (coord (Tests.final Tests.sched_counting)) = true)
    by (vm_compute; reflexivity).
  assert (Hs : Tests.seen (runner (Tests.final Tests.sched_counting))
               = Some 3%Z) by (vm_compute; reflexivity).
  split; [exact three_iterations|]. split; [exact go_counting_test|].
  split; [exact Hnc|]. split; [exact Hc|]. split; [exact Hs|].
  exact (protected_block_atomic 3 Tests.rest_counting
           (Tests.final Tests.sched_counting) 3%Z
           three_iterations go_counting_test Hnc Hc Hs).
Defined.

(** [testInterruptProtected] with three iterations and no signal. *)
Lemma tests_pass_alone_witness :
  (0 <= 3 < 2 ^ 63 - 1)%Z /\
  exists st,
    exec (Tests.next 3) boot
         (sched_alone (Tests.args Tests.InterruptProtected)
                      (Tests.steps 3 Tests.InterruptProtected))
    = Some st /\
    Signal (pal st) = None /\
    Tests.seen (runner st) = Some 4%Z.
Proof.
  split; [exact three_iterations|].
  destruct (tests_pass_alone 3 Tests.InterruptProtected three_iterations)
    as (st & He & _ & Hs & _ & _ & Hseen).
  exists st. split; [exact He|]. split; [exact Hs|exact Hseen].
Defined.

Lemma go_second :
  exec Script.next (Script.final Script.sched_interrupted)
       (LCall Script.quiet :: Runs.after_second_call)
  = Some (Script.final (Script.sched_interrupted ++
                        LCall Script.quiet :: Runs.after_second_call)).
Proof. vm_compute. reflexivity. Qed.

(** The first invocation left an interrupt in its channel: the second
    one ends with its task, and [Signal] is still the interrupt of the
    first. *)
Lemma earlier_interrupts_ignored_witness :
  exec Script.next boot Script.sched_interrupted
  = Some (Script.final Script.sched_interrupted) /\
  exec Script.next (Script.final Script.sched_interrupted)
       (LCall Script.quiet :: Runs.after_second_call)
  = Some (Script.final (Script.sched_interrupted ++
                        LCall Script.quiet :: Runs.after_second_call)) /\
  Forall not_a_call Runs.after_second_call /\
  Forall no_interrupt Runs.after_second_call /\
  Signal (pal (Script.final (Script.sched_interrupted ++
                             LCall Script.quiet :: Runs.after_second_call)))
  = Some os_Interrupt /\
  received (Script.final (Script.sched_interrupted ++
                          LCall Script.quiet :: Runs.after_second_call))
  = Some task_event.
Proof.
  assert (Hnc : Forall not_a_call Runs.after_second_call) by by_script.
  assert (Hok : Forall no_interrupt Runs.after_second_call)
    by (repeat (constructor; [try exact I; discriminate|]); constructor).
  split; [exact go_interrupted|]. split; [exact go_second|].
  split; [exact Hnc|]. split; [exact Hok|].
  destruct (earlier_interrupts_ignored nat Script.task Script.next
              Script.sched_interrupted (Script.final Script.sched_interrupted)
              Script.quiet Runs.after_second_call
              (Script.final (Script.sched_interrupted ++
                             LCall Script.quiet :: Runs.after_second_call))
              go_interrupted go_second Hnc Hok) as (Hs & _ & _).
  split; [rewrite Hs; vm_compute; reflexivity|].
  vm_compute. reflexivity.
Defined.

(** * The demonstrator *)

Ltac simple_cases H :=
  unfold Simple.next in H; simpl in H;
  repeat match type of H with
  | context [match ?x with _ => _ end] => destruct x eqn:?; simpl in H
  end;
  try discriminate.

Lemma Simple_next_obeys : obeys Simple.next Simple.inside.
Proof.
  intros [p fl b0 er s0 out] op t' H.
  unfold Simple.inside in *; simpl in *.
  destruct p; simpl in *; simple_cases H;
    inversion H; subst; simpl; auto.
Qed.

Lemma Simple_next_sound (fl : Simple.file) :
  forall t op t',
    Simple.sound fl t -> Simple.next t = Some (op, t') -> Simple.sound fl t'.
Proof.
  intros [p fl0 b0 er s0 out] op t' [Hf Hs] H.
  unfold Simple.sound in *; simpl in *. subst fl0.
  destruct p; simpl in *;
    unfold Simple.next in H; simpl in H;
    try match type of H with
        | context [(?i <? 10)%Z] => destruct (Z.ltb_spec i 10)
        end;
    try discriminate; inversion H; subst; simpl;
    repeat match goal with
    | Hx : _ /\ _ |- _ => destruct Hx
    end;
    subst; (split; [reflexivity|]); auto.
  - (* the string to print *)
    split; [lia|]. split; reflexivity.
  - split; [lia|]. split; [reflexivity|].
    rewrite repeat_app. reflexivity.
  - (* i++ *)
    unfold incr. rewrite int_wrap_small by lia.
    split; [lia|]. split; [reflexivity|].
    replace (Z.to_nat (i + 1)) with (Z.to_nat i + 1) by lia. reflexivity.
Qed.

Lemma Simple_sound_printed (fl : Simple.file) (t : Simple.task) :
  Simple.sound fl t ->
  exists k, k <= 10 /\ Simple.stdout t = repeat (Simple.text fl) k.
Proof.
  intros [_ Hs]. destruct (Simple.pc t);
    repeat match goal with
    | Hx : _ /\ _ |- _ => destruct Hx
    end;
    try (exists 0; split; [lia|assumption]);
    try (exists (Z.to_nat i); split; [lia|assumption]);
    (exists (Z.to_nat i + 1); split; [lia|assumption]).
Qed.

Lemma Simple_next_over (fl : Simple.file) (t : Simple.task) :
  Simple.sound fl t -> Simple.next t = None ->
  Simple.stdout t = repeat (Simple.text fl) 10.
Proof.
  intros [_ Hs] H. unfold Simple.next in H.
  destruct (Simple.pc t); try discriminate.
  destruct (Z.ltb_spec i 10); [discriminate|].
  destruct Hs as (Hi & _ & Hout).
  replace i with 10%Z in Hout by lia. exact Hout.
Qed.

(** What is known of a run of the demonstrator on the file [fl]. *)
Lemma Simple_run_facts (fl : Simple.file)
      (sched : list (Label Simple.file Simple.task))
      (st : State Simple.file Simple.task) :
  exec Simple.next boot (LCall (Simple.args fl None) :: sched) = Some st ->
  Forall not_a_call sched ->
  InvGuard Simple.inside st /\
  runner_has (fun c => c = fl) (Simple.sound fl) (runner st).
Proof.
  intros Hex Hnc.
  assert (Hinit : forall c, opened (Simple.args fl None) c ->
             c = fl /\ Simple.sound fl (run (Simple.args fl None) c)).
  { intros c Hop. unfold opened in Hop. simpl in Hop.
    inversion Hop; subst c. repeat split. }
  assert (Hout : starts_outside Simple.inside (Simple.args fl None))
    by (intros c; reflexivity).
  split.
  - apply (InvGuard_reach Simple.file Simple.task Simple.next
             Simple.inside (LCall (Simple.args fl None) :: sched) st
             Simple_next_obeys); [|exact Hex].
    constructor; [exact Hout|].
    apply not_a_call_protocol_ok. exact Hnc.
  - apply (InvTask_reach Simple.file Simple.task Simple.next
             (fun c => c = fl) (Simple.sound fl)
             (Simple_next_sound fl)
             (LCall (Simple.args fl None) :: sched) st); [|exact Hex].
    constructor; [exact Hinit|].
    apply not_a_call_call_has. exact Hnc.
Qed.


Lemma Simple_alone (fl : Simple.file) (sg : option os_Signal) :
  alone Simple.file Simple.next 44 {| Signal := sg; guard := false |}
        (Simple.runner fl)
  = Some ({| Signal := sg; guard := false |}, Simple.ended fl).
Proof.
  unfold Simple.ended, Simple.text.
  destruct fl as [d [x|] ce]; vm_compute; reflexivity.
Qed.

(** X18: Left alone the demonstrator does what it says: for every file
    that opens, the run in which the task moves alone reads the file,
    prints its text (or the error of reading it) ten times and ends,
    after which [Run] returns what [f.Close()] returns, with no signal
    recorded. *)
Theorem simple_says_ten_times (fl : Simple.file) :
  exists st,
    exec Simple.next boot (sched_alone (Simple.args fl None) 44) = Some st /\
    coord st = CReturned (Simple.close_err fl) /\
    Signal (pal st) = None /\
    guard (pal st) = true /\
    Simple.printed (runner st) = repeat (Simple.text fl) 10.
Proof.
  destruct (Run_alone Simple.file Simple.task Simple.next boot
              (Simple.args fl None) fl 44
              {| Signal := None; guard := false |} (Simple.ended fl))
    as (st & He & Hc & Hs & Hg & Hr & _).
  - reflexivity.
  - left; reflexivity.
  - reflexivity.
  - reflexivity.
  - exact (Simple_alone fl None).
  - reflexivity.
  - reflexivity.
  - exists st. split; [exact He|]. split; [exact Hc|].
    split; [exact Hs|]. split; [exact Hg|].
    rewrite Hr. reflexivity.
Qed.

Lemma go_said_twice :
  exec Simple.next boot
       (LCall (Simple.args Simple.hello None) :: Simple.rest_said_twice)
  = Some (Simple.final
            (LCall (Simple.args Simple.hello None) ::
             Simple.rest_said_twice)).
Proof. vm_compute. reflexivity. Qed.


(** The interrupted run of [Script.good] reports the interrupt. *)
Lemma signal_or_task_end_witness :
  opened Script.good 7 /\
  exec Script.next boot (LCall Script.good :: Runs.after_call)
  = Some (Script.final Script.sched_interrupted) /\
  Forall not_a_call Runs.after_call /\
  coord (Script.final Script.sched_interrupted)
  = CReturned (Some Script.close_failed) /\
  (Signal (pal (Script.final Script.sched_interrupted)) = Some os_Interrupt \/
   (Signal (pal (Script.final Script.sched_interrupted)) = None /\
    exists t, runner (Script.final Script.sched_interrupted) = RDone t /\
              Script.next t = None)).
Proof.
  assert (Hnc : Forall not_a_call Runs.after_call) by by_script.
  assert (Hc : coord (Script.final Script.sched_interrupted)
               = CReturned (Some Script.close_failed))
    by (vm_compute; reflexivity).
  split; [reflexivity|]. split; [exact go_after_call|].
  split; [exact Hnc|]. split; [exact Hc|].
  exact (signal_or_task_end nat Script.task Script.next Script.good 7
           Runs.after_call (Script.final Script.sched_interrupted)
           (Some Script.close_failed) eq_refl go_after_call Hnc Hc).
Defined.
